(** * pewpi-shared: wallet ledger, integration listener and machine adapter

    A shallow embedding of the JavaScript services of [src/pewpi-shared]:
    [WalletUnified], [IntegrationListener], [MachineAdapter], [AuthService]
    and [TokenService]. The services a class is constructed with (the token
    service of the wallet, the four services of the adapter) are injected
    objects, and enter as interfaces; [Wiring] puts the auth service and
    the token service of the library behind these interfaces.

    Conventions of the embedding.
    - A JavaScript object is a finite map from property names to values
      ([gmap string value]); the spread [{a: 1, ...m}] is a union in which
      the later source wins.
    - Numbers are the integers [Z] in [JS]: a balance of whole amounts.
      [Binary64] has the values with their numbers as doubles, and
      [Wallet64] the wallet in that arithmetic, with [NaN], the infinities
      and the rounding of each step.
    - The [async] methods of the wallet, of the auth and token services
      and of the adapter run to completion: their [await]s are sequence
      points. Those of the listener do not: [Listener] has what other
      code does at each [await] of the dispatcher, and promises that are
      never settled.
    - A storage can refuse a write ([Storage]): [setItem] and [removeItem]
      return or throw.
    - [Date] and [Math.random] are inputs: a call that creates a record takes
      the [Stamp] (id and timestamp) the record gets. *)

From stdpp Require Import gmap strings list fin_maps.
From Stdlib Require Import ZArith Lia Floats.

Local Open Scope string_scope.
Local Open Scope list_scope.
Local Open Scope Z_scope.

(** ** JavaScript values *)

Module JS.

#[warnings="-register-all"]
Inductive value : Type :=
| VUndefined
| VNull
| VBool (b : bool)
| VNum (n : Z)
| VStr (s : string)
| VObj (fields : gmap string value).

(** An object literal or a value of type object. *)
Abbreviation object := (gmap string value).

(** ToBoolean: what [if (v)], [!v] and [v || d] test. *)
Definition truthy (v : value) : bool :=
  match v with
  | VUndefined | VNull => false
  | VBool b => b
  | VNum n => negb (n =? 0)
  | VStr s => negb (String.eqb s "")
  | VObj _ => true
  end.

(** [o.k] on an object: the property, or [undefined] when it is absent. *)
Definition get (k : string) (o : object) : value :=
  default VUndefined (o !! k).

(** [v.k] on any value: reading a property of [undefined] or [null] throws
    a TypeError ([None]); a primitive has none of the properties read here. *)
Definition prop (k : string) (v : value) : option value :=
  match v with
  | VUndefined | VNull => None
  | VObj o => Some (get k o)
  | VBool _ | VNum _ | VStr _ => Some VUndefined
  end.

(** The message of the TypeError that [v.k] throws on [undefined] or [null]. *)
Definition type_error (k : string) (v : value) : string :=
  "Cannot read properties of "
  +:+ match v with VNull => "null" | _ => "undefined" end
  +:+ " (reading '" +:+ k +:+ "')".

(** [a || b] *)
Definition or_else (a b : value) : value :=
  if truthy a then a else b.

(** [{...base, ...over}]: the properties of [over] replace those of [base]. *)
Definition spread (base over : object) : object := over ∪ base.

(** The id and the timestamp a new record gets ([_generateId], [new Date]). *)
Record Stamp := { stamp_id : string; stamp_time : string }.

(** What a call that may throw completes with. *)
Inductive Completion (A : Type) : Type :=
| Normal (a : A)
| Throw (message : string).
Arguments Normal {A} a.
Arguments Throw {A} message.

End JS.

(** ** WalletUnified *)

Module Wallet.
Import JS.

(** The token service a wallet is constructed with ([options.tokenService]):
    any object with a [createToken] method. [T] is the state of the service;
    the call returns a result object or throws, and may change the service. *)
Class TokenApi (T : Type) := {
  createToken : value -> T -> Completion value * T
}.

(** What [_persist] writes under the key [pewpi_wallet]. *)
Record Snapshot := {
  snap_balance : Z;
  snap_transactions : list object
}.

(** One call of a subscribed listener: [listener(event, {transaction, balance})]. *)
Record Notice := {
  notice_listener : nat;
  notice_event : string;
  notice_transaction : object;
  notice_balance : Z
}.

(** What the wallet's methods return. *)
Inductive Result : Type :=
| Failure (error : string)                    (* {success: false, error} *)
| Funds (balance : Z) (transaction : object)  (* {success: true, balance, transaction} *)
| Balance (balance : Z)                       (* {success: true, balance} *)
| Transactions (recent : list object)         (* {success: true, transactions} *)
| Purchased (token : value) (balance : Z)     (* {success: true, token, balance} *)
| Passed (tokenResult : value)                (* the token service's result, as it is *)
| Unsubscriber (listener : nat)               (* the function [subscribe] returns *)
| Deleted (found : bool).                     (* what [Set.delete] returns *)

(** [result.success], for a result built by the wallet itself. *)
Definition success (r : Result) : bool :=
  match r with
  | Failure _ => false
  | Funds _ _ | Balance _ | Transactions _ | Purchased _ _ => true
  | Passed r => truthy (default VUndefined (prop "success" r))
  | Unsubscriber _ | Deleted _ => false
  end.

Section WalletUnified.

(** [b < Number(s)] for a string [s]: the comparison [this.balance < amount]
    converts a string amount to a number first. *)
Context (lt_string : Z -> string -> bool).
Context {T : Type} `{!TokenApi T}.

(** The fields of a [WalletUnified]. [storage] is [None] when the wallet has
    no storage, [Some None] when the key is not set. [listeners] are the
    subscribed callbacks, [delivered] the calls made to them so far: a
    listener observes the wallet and does not call back into it. *)
Record WalletUnified := {
  storage : option (option Snapshot);
  tokenService : option T;
  balance : Z;
  transactions : list object;
  listeners : list nat;
  delivered : list Notice
}.

(** [new WalletUnified(options)] *)
Definition constructor (opt_storage : option (option Snapshot))
    (opt_tokenService : option T) : WalletUnified :=
  {| storage := opt_storage;
     tokenService := opt_tokenService;
     balance := 0;
     transactions := [];
     listeners := [];
     delivered := [] |}.

(** [initialize]: load balance and transactions from the storage. *)
Definition initialize (w : WalletUnified) : Result * WalletUnified :=
  match storage w with
  | Some (Some data) =>
      (Balance (snap_balance data),
       {| storage := storage w;
          tokenService := tokenService w;
          balance := snap_balance data;
          transactions := snap_transactions data;
          listeners := listeners w;
          delivered := delivered w |})
  | _ => (Balance (balance w), w)
  end.

(** [getBalance] *)
Definition getBalance (w : WalletUnified) : Result * WalletUnified :=
  (Balance (balance w), w).

(** [_persist]: write balance and transactions when there is a storage. *)
Definition _persist (w : WalletUnified) : WalletUnified :=
  match storage w with
  | Some _ =>
      {| storage := Some (Some {| snap_balance := balance w;
                                  snap_transactions := transactions w |});
         tokenService := tokenService w;
         balance := balance w;
         transactions := transactions w;
         listeners := listeners w;
         delivered := delivered w |}
  | None => w
  end.

(** [_notifyListeners(event, {transaction, balance: this.balance})] *)
Definition _notifyListeners (event : string) (transaction : object)
    (w : WalletUnified) : WalletUnified :=
  {| storage := storage w;
     tokenService := tokenService w;
     balance := balance w;
     transactions := transactions w;
     listeners := listeners w;
     delivered := delivered w ++
       map (fun l => {| notice_listener := l; notice_event := event;
                        notice_transaction := transaction;
                        notice_balance := balance w |}) (listeners w) |}.

(** [this.balance = b; this.transactions.push(transaction)] *)
Definition post (b : Z) (transaction : object) (w : WalletUnified) : WalletUnified :=
  {| storage := storage w;
     tokenService := tokenService w;
     balance := b;
     transactions := transactions w ++ [transaction];
     listeners := listeners w;
     delivered := delivered w |}.

(** The transaction literal [{id, type, amount, timestamp, ...metadata}]. *)
Definition new_transaction (st : Stamp) (type : string) (amount : Z)
    (metadata : object) : object :=
  spread
    (<["id" := VStr (stamp_id st)]>
     (<["type" := VStr type]>
      (<["amount" := VNum amount]>
       (<["timestamp" := VStr (stamp_time st)]> ∅))))
    metadata.

(** [addFunds(amount, metadata)] *)
Definition addFunds (st : Stamp) (amount : value) (metadata : object)
    (w : WalletUnified) : Result * WalletUnified :=
  match amount with
  | VNum a =>
      if a <=? 0 then (Failure "Invalid amount", w)
      else
        let transaction := new_transaction st "credit" a metadata in
        let w := post (balance w + a) transaction w in
        let w := _persist w in
        let w := _notifyListeners "funds_added" transaction w in
        (Funds (balance w) transaction, w)
  | _ => (Failure "Invalid amount", w)
  end.

(** [deductFunds(amount, metadata)] *)
Definition deductFunds (st : Stamp) (amount : value) (metadata : object)
    (w : WalletUnified) : Result * WalletUnified :=
  match amount with
  | VNum a =>
      if a <=? 0 then (Failure "Invalid amount", w)
      else if balance w <? a then (Failure "Insufficient funds", w)
      else
        let transaction := new_transaction st "debit" a metadata in
        let w := post (balance w - a) transaction w in
        let w := _persist w in
        let w := _notifyListeners "funds_deducted" transaction w in
        (Funds (balance w) transaction, w)
  | _ => (Failure "Invalid amount", w)
  end.

(** [this.transactions.slice(-limit)] for an integer [limit]: the last
    [limit] entries, the whole list for [-0], from index [-limit] on for a
    negative [limit]. *)
Definition slice_last (limit : Z) (l : list object) : list object :=
  if limit <=? 0 then drop (Z.to_nat (- limit)) l
  else drop (length l - Z.to_nat limit)%nat l.

(** [getTransactions(limit)] *)
Definition getTransactions (limit : Z) (w : WalletUnified) : Result * WalletUnified :=
  (Transactions (slice_last limit (transactions w)), w).

(** [this.balance < amount], for the amount [tokenData.value || 0]. *)
Definition balance_lt (b : Z) (amount : value) : bool :=
  match amount with
  | VNum a => b <? a
  | VBool true => b <? 1
  | VBool false | VNull => b <? 0
  | VStr s => lt_string b s
  | VUndefined | VObj _ => false     (* compared with NaN *)
  end.

(** The wallet with its token service in the state [svc], after a call
    that changed the service. *)
Definition with_tokenService (svc : T) (w : WalletUnified) : WalletUnified :=
  {| storage := storage w;
     tokenService := Some svc;
     balance := balance w;
     transactions := transactions w;
     listeners := listeners w;
     delivered := delivered w |}.

(** [tokenData.value || 0], when [tokenData.value] does not throw. *)
Definition purchase_amount (tokenData : value) : option value :=
  v ← prop "value" tokenData; Some (or_else v (VNum 0)).

(** [{purpose: 'token_purchase', tokenId: tokenData.id}] *)
Definition purchase_metadata (tokenData : value) : object :=
  <["purpose" := VStr "token_purchase"]>
    (<["tokenId" := default VUndefined (prop "id" tokenData)]> ∅).

(** [{purpose: 'token_purchase_rollback'}] *)
Definition rollback_metadata : object :=
  <["purpose" := VStr "token_purchase_rollback"]> ∅.

(** [purchaseToken(tokenData)]. [st] stamps the debit, [st'] the credit of
    a rollback. A TypeError and an exception of [createToken] end in the
    [catch] of the method. *)
Definition purchaseToken (st st' : Stamp) (tokenData : value)
    (w : WalletUnified) : Result * WalletUnified :=
  match tokenService w with
  | None => (Failure "Token service not configured", w)
  | Some svc =>
      match purchase_amount tokenData with
      | None => (Failure (type_error "value" tokenData), w)
      | Some amount =>
          if balance_lt (balance w) amount then (Failure "Insufficient funds", w)
          else
            let '(deductResult, w) :=
              deductFunds st amount (purchase_metadata tokenData) w in
            if negb (success deductResult) then (deductResult, w)
            else
              let '(completion, svc) := createToken tokenData svc in
              let w := with_tokenService svc w in
              match completion with
              | Throw message => (Failure message, w)
              | Normal tokenResult =>
                  match prop "success" tokenResult with
                  | None => (Failure (type_error "success" tokenResult), w)
                  | Some ok =>
                      if negb (truthy ok) then
                        let '(_, w) :=
                          addFunds st' amount rollback_metadata w in
                        (Passed tokenResult, w)
                      else
                        (Purchased (default VUndefined (prop "token" tokenResult))
                                   (balance w), w)
                  end
              end
      end
  end.

(** The wallet after a transaction with [b] as the new balance was pushed,
    persisted and announced: the tail of [addFunds] and [deductFunds]. *)
Definition settled (event : string) (b : Z) (tx : object)
    (w : WalletUnified) : WalletUnified :=
  _notifyListeners event tx (_persist (post b tx w)).

(** The wallet after the debit of a purchase of [a], with the token service
    in the state [svc] that [createToken] left. *)
Definition debited (st : Stamp) (a : Z) (tokenData : value) (svc : T)
    (w : WalletUnified) : WalletUnified :=
  with_tokenService svc
    (settled "funds_deducted" (balance w - a)
       (new_transaction st "debit" a (purchase_metadata tokenData)) w).

(** [subscribe(listener)]: the listeners are a [Set]. *)
Definition subscribe (listener : nat) (w : WalletUnified) : WalletUnified :=
  {| storage := storage w;
     tokenService := tokenService w;
     balance := balance w;
     transactions := transactions w;
     listeners := if decide (listener ∈ listeners w) then listeners w
                  else listeners w ++ [listener];
     delivered := delivered w |}.

(** The function [subscribe] returns: [() => this.listeners.delete(listener)]. *)
Definition unsubscribe (listener : nat) (w : WalletUnified) : WalletUnified :=
  {| storage := storage w;
     tokenService := tokenService w;
     balance := balance w;
     transactions := transactions w;
     listeners := filter (fun l => l <> listener) (listeners w);
     delivered := delivered w |}.

(** A call of a public method, with its arguments. [initialize], which
    loads the wallet, comes before these calls. *)
Inductive Call : Type :=
| AddFunds (st : Stamp) (amount : value) (metadata : object)
| DeductFunds (st : Stamp) (amount : value) (metadata : object)
| PurchaseToken (st st' : Stamp) (tokenData : value)
| GetBalance
| GetTransactions (limit : Z)
| Subscribe (listener : nat)
| Unsubscribe (listener : nat).

(** One call: its result and the wallet after it. *)
Definition call (c : Call) (w : WalletUnified) : Result * WalletUnified :=
  match c with
  | AddFunds st amount metadata => addFunds st amount metadata w
  | DeductFunds st amount metadata => deductFunds st amount metadata w
  | PurchaseToken st st' tokenData => purchaseToken st st' tokenData w
  | GetBalance => getBalance w
  | GetTransactions limit => getTransactions limit w
  | Subscribe l => (Unsubscriber l, subscribe l w)
  | Unsubscribe l => (Deleted (bool_decide (l ∈ listeners w)), unsubscribe l w)
  end.

(** A sequence of calls, each on the wallet the one before left. *)
Fixpoint run (cs : list Call) (w : WalletUnified) : WalletUnified :=
  match cs with
  | [] => w
  | c :: cs => run cs (snd (call c w))
  end.

(** The results of a sequence of calls, in call order. *)
Fixpoint results (cs : list Call) (w : WalletUnified) : list Result :=
  match cs with
  | [] => []
  | c :: cs => fst (call c w) :: results cs (snd (call c w))
  end.

End WalletUnified.

End Wallet.

(** ** The ledger a list of transactions stands for *)

Module Ledger.
Import JS.

(** [tx.amount], when it is a number. *)
Definition amount_of (tx : object) : Z :=
  match tx !! "amount" with
  | Some (VNum a) => a
  | _ => 0
  end.

(** [tx.type === type] *)
Definition has_type (type : string) (tx : object) : bool :=
  match tx !! "type" with
  | Some (VStr s) => String.eqb s type
  | _ => false
  end.

(** The sum of the amounts of the transactions of one type. *)
Fixpoint total (type : string) (txs : list object) : Z :=
  match txs with
  | [] => 0
  | tx :: txs =>
      (if has_type type tx then amount_of tx else 0) + total type txs
  end.

(** Credits minus debits. *)
Definition net (txs : list object) : Z :=
  total "credit" txs - total "debit" txs.

(** The metadata of a call leaves the [type] and [amount] of the
    transaction alone: it has neither key. *)
Definition plain (metadata : object) : Prop :=
  metadata !! "type" = None /\ metadata !! "amount" = None.

(** The metadata a call passes on to a transaction is plain. The metadata
    of the two transactions of [purchaseToken] are fixed by the method. *)
Definition plain_call (c : Wallet.Call) : Prop :=
  match c with
  | Wallet.AddFunds _ _ metadata | Wallet.DeductFunds _ _ metadata => plain metadata
  | _ => True
  end.

(** The transaction a result hands back: [result.transaction]. *)
Definition returned (r : Wallet.Result) : list object :=
  match r with
  | Wallet.Funds _ transaction => [transaction]
  | _ => []
  end.

(** A call of any method but [purchaseToken], whose two transactions come
    from the [deductFunds] and [addFunds] calls it makes itself. *)
Definition direct (c : Wallet.Call) : Prop :=
  match c with
  | Wallet.PurchaseToken _ _ _ => False
  | _ => True
  end.

End Ledger.

(** ** Token services to run the wallet with *)

Module Doubles.
Import JS Wallet.

(** A service whose [createToken] always answers [{success: false, error}]. *)
Definition rejecting : TokenApi unit := {|
  createToken _ s :=
    (Normal (VObj (<["success" := VBool false]>
                   (<["error" := VStr "Token creation failed"]> ∅))), s)
|}.

(** A service whose [createToken] always throws. *)
Definition throwing : TokenApi unit := {|
  createToken _ s := (Throw "Token storage unavailable", s)
|}.

(** A service that counts the tokens it made and answers
    [{success: true, token: tokenData}]. *)
Definition minting : TokenApi nat := {|
  createToken tokenData n :=
    (Normal (VObj (<["success" := VBool true]> (<["token" := tokenData]> ∅))), S n)
|}.

(** No string amount is below or above a balance: each converts to [NaN]. *)
Definition lt_nan : Z -> string -> bool := fun _ _ => false.

(** Two stamps to tell transactions apart. *)
Definition stamp1 : Stamp := {| stamp_id := "tx_1"; stamp_time := "t1" |}.
Definition stamp2 : Stamp := {| stamp_id := "tx_2"; stamp_time := "t2" |}.

(** A wallet without storage, holding 10 after one credit, with a token
    service in the state [tt]. *)
Definition funded : @WalletUnified unit :=
  snd (addFunds stamp1 (VNum 10) ∅ (constructor None (Some tt))).

(** A token of value 4. *)
Definition token4 : value :=
  VObj (<["id" := VStr "tok"]> (<["value" := VNum 4]> ∅)).

(** The same wallet with a service that counts its tokens. *)
Definition funded_mint : @WalletUnified nat :=
  snd (addFunds stamp1 (VNum 10) ∅ (constructor None (Some O))).

(** A wallet that loaded a balance of -5 from its storage. *)
Definition overdrawn : @WalletUnified unit :=
  snd (initialize
         (constructor (Some (Some {| snap_balance := -5; snap_transactions := [] |}))
                      (Some tt))).

End Doubles.

(** ** What the subscribers of a wallet are told *)

Module Subscribers.
Import JS Wallet.

(** The calls made to one listener, in order. *)
Definition seen (listener : nat) (notices : list Notice) : list Notice :=
  filter (fun n => notice_listener n = listener) notices.

(** From [w] to [w'] some transactions were appended, and the listener [l]
    was told of each, once and in order, if it is subscribed, and of none
    if it is not; it is subscribed after as before, and the set of
    listeners is still a set. *)
Definition told {T : Type} (l : nat) (w w' : @WalletUnified T) : Prop :=
  exists new notices,
    transactions w' = transactions w ++ new /\
    delivered w' = delivered w ++ notices /\
    NoDup (listeners w') /\
    (l ∈ listeners w' <-> l ∈ listeners w) /\
    (l ∈ listeners w -> map notice_transaction (seen l notices) = new) /\
    (l ∉ listeners w -> seen l notices = []).

(** The call neither subscribes nor unsubscribes the listener. *)
Definition keeps (l : nat) (c : Call) : Prop :=
  c <> Subscribe l /\ c <> Unsubscribe l.

(** The funded wallet with the listeners 5 and 7 subscribed. *)
Definition watched : @WalletUnified unit :=
  subscribe 7%nat (subscribe 5%nat Doubles.funded).

(** A purchase that is rolled back, then a debit. *)
Definition busy_day : list Call :=
  [PurchaseToken Doubles.stamp1 Doubles.stamp2 Doubles.token4;
   DeductFunds Doubles.stamp2 (VNum 3) ∅].

End Subscribers.

(** ** IntegrationListener *)

Module Listener.
Import JS.

(** The envelope [_handleEvent] wraps a service event in. *)
Record Event := {
  id : string;
  service : string;
  type : string;
  data : value;
  timestamp : string
}.

(** A callback is a function object; the number is its identity, which is
    what the [Set] of callbacks of a pattern compares. *)
Abbreviation Callback := nat.

(** One call [_handleEvent(service, eventType, data)], with the stamp the
    event gets. A callback makes such calls through [emit], or through a
    service that notifies its subscribers. *)
Record Raise := {
  raise_stamp : Stamp;
  raise_service : string;
  raise_type : string;
  raise_data : value
}.

(** A call of [on], or of the function it returned. *)
Inductive Registration : Type :=
| Register (eventPattern : string) (callback : Callback)
| Unregister (eventPattern : string) (callback : Callback).

(** What code does to the listener in one go: it registers or removes a
    callback, or has an event handled, through [emit] or through a service
    that notifies its subscribers. *)
Inductive Act : Type :=
| Change (r : Registration)
| Handle (r : Raise).

(** How the value of [callback(event)] ends the [await] on it: the callback
    returned, or its promise was fulfilled; it threw, or its promise was
    rejected; or its promise is never settled. *)
Inductive Settlement : Type :=
| Fulfilled
| Rejected (message : string)
| Pending.

(** What a call [callback(event)] leads to: what the callback does to the
    listener while it runs, in order; what other code does to the listener
    while the dispatcher waits at the [await] for the result, in order; and
    how the result settles. A callback that throws is one that is rejected
    with nothing done meanwhile. *)
Record Reaction := {
  does : list Act;
  meanwhile : list Act;
  settles : Settlement
}.

(** What an observer of the listener sees, in the order it happens. *)
Inductive Observation : Type :=
| Pushed (event : Event)                          (* eventQueue.push(event) *)
| Dispatching (event : Event)                     (* _dispatchEvent(event) starts *)
| Called (callback : Callback) (event : Event)    (* callback(event) *)
| Logged (message : string).                      (* console.error *)

(** The fields of an [IntegrationListener]. The callbacks of a pattern are a
    [Set], kept in insertion order. *)
Record IntegrationListener := {
  eventQueue : list Event;
  listeners : gmap string (list Callback);
  isProcessing : bool
}.

(** [new IntegrationListener(options)] *)
Definition constructor : IntegrationListener :=
  {| eventQueue := []; listeners := ∅; isProcessing := false |}.

(** [set.add(callback)] *)
Definition set_add (callback : Callback) (set : list Callback) : list Callback :=
  if decide (callback ∈ set) then set else set ++ [callback].

(** [set.delete(callback)] *)
Definition set_delete (callback : Callback) (set : list Callback) : list Callback :=
  filter (fun c => c <> callback) set.

(** [on(eventPattern, callback)] *)
Definition on (eventPattern : string) (callback : Callback)
    (l : IntegrationListener) : IntegrationListener :=
  let listeners :=
    match listeners l !! eventPattern with
    | Some _ => listeners l
    | None => <[eventPattern := []]> (listeners l)
    end in
  {| eventQueue := eventQueue l;
     listeners :=
       <[eventPattern := set_add callback (default [] (listeners !! eventPattern))]>
         listeners;
     isProcessing := isProcessing l |}.

(** The function [on] returns, called: it deletes the callback from the
    set of the pattern, when the pattern has one. *)
Definition off (eventPattern : string) (callback : Callback)
    (l : IntegrationListener) : IntegrationListener :=
  match listeners l !! eventPattern with
  | Some callbacks =>
      {| eventQueue := eventQueue l;
         listeners := <[eventPattern := set_delete callback callbacks]> (listeners l);
         isProcessing := isProcessing l |}
  | None => l
  end.

(** The listener after a sequence of calls of [on] and of the functions
    it returned. *)
Definition register_all (rs : list Registration) (l : IntegrationListener)
    : IntegrationListener :=
  fold_left
    (fun l r =>
       match r with
       | Register eventPattern callback => on eventPattern callback l
       | Unregister eventPattern callback => off eventPattern callback l
       end)
    rs l.

(** [getQueueStatus()]: [{size, isProcessing}] *)
Definition getQueueStatus (l : IntegrationListener) : nat * bool :=
  (length (eventQueue l), isProcessing l).

(** The three keys [_dispatchEvent] looks callbacks up under. *)
Definition patterns (event : Event) : list string :=
  [service event +:+ ":" +:+ type event;
   service event +:+ ":*";
   "*"].

(** The event [_handleEvent] builds. *)
Definition event_of (r : Raise) : Event :=
  {| id := stamp_id (raise_stamp r);
     service := raise_service r;
     type := raise_type r;
     data := raise_data r;
     timestamp := stamp_time (raise_stamp r) |}.

(** The callbacks registered under a pattern, in registration order. *)
Definition registered (pattern : string) (l : IntegrationListener) : list Callback :=
  default [] (listeners l !! pattern).

Section Dispatch.

Context {U : Type}.

(** The code around the listener, with [U] the state it is in:
    [callback c event u] is what the call [c(event)] leads to, and
    [interval event u] what other code does to the listener while
    [_processQueue] waits at its [await] for [_dispatchEvent(event)], which
    has run to its end. *)
Record Application := {
  callback : Callback -> Event -> U -> U * Reaction;
  interval : Event -> U -> U * list Act
}.

(** The listener, the state of the code around it, the loops over sets of
    callbacks that are under way, innermost first, and what was observed so
    far. A loop [for (const callback of callbacks)] over the set of a
    pattern is the pattern and the callbacks it has still to visit: the
    iterator of a [Set] skips what is deleted before it gets there and
    visits what is added while it runs. *)
Record World := {
  this : IntegrationListener;
  app : U;
  loops : list (string * list Callback);
  trace : list Observation
}.

(** How far a call of an [async] method got: its promise is fulfilled, or
    it waits for a promise that is never settled. *)
Inductive Run : Type :=
| Returned (w : World)
| Stalled (w : World).

Definition outcome (run : Run) : World :=
  match run with Returned w | Stalled w => w end.

(** The next step of a method, taken when the one before returned. *)
Definition and_then (step : option Run) (next : World -> option Run) : option Run :=
  match step with
  | Some (Returned w) => next w
  | Some (Stalled w) => Some (Stalled w)
  | None => None
  end.

Definition observe (o : Observation) (w : World) : World :=
  {| this := this w; app := app w; loops := loops w; trace := trace w ++ [o] |}.

Definition with_app (u : U) (w : World) : World :=
  {| this := this w; app := u; loops := loops w; trace := trace w |}.

Definition with_this (l : IntegrationListener) (w : World) : World :=
  {| this := l; app := app w; loops := loops w; trace := trace w |}.

Definition with_loops (ls : list (string * list Callback)) (w : World) : World :=
  {| this := this w; app := app w; loops := ls; trace := trace w |}.

(** [on(eventPattern, callback)] while loops are under way: a callback that
    is new to the set is also new to the loops over that set. *)
Definition register (eventPattern : string) (callback : Callback) (w : World) : World :=
  {| this := on eventPattern callback (this w);
     app := app w;
     loops :=
       if decide (callback ∈ registered eventPattern (this w)) then loops w
       else
         map (fun loop : string * list Callback =>
                if String.eqb (fst loop) eventPattern
                then (fst loop, snd loop ++ [callback])
                else loop)
             (loops w);
     trace := trace w |}.

(** The function [on] returned, called while loops are under way: the
    callback is deleted from the set, so from the loops over it. *)
Definition unregister (eventPattern : string) (callback : Callback) (w : World) : World :=
  match listeners (this w) !! eventPattern with
  | Some _ =>
      {| this := off eventPattern callback (this w);
         app := app w;
         loops :=
           map (fun loop : string * list Callback =>
                  if String.eqb (fst loop) eventPattern
                  then (fst loop, set_delete callback (snd loop))
                  else loop)
               (loops w);
         trace := trace w |}
  | None => w
  end.

(** [this.eventQueue.push(event)] *)
Definition push (event : Event) (w : World) : World :=
  observe (Pushed event)
    (with_this {| eventQueue := eventQueue (this w) ++ [event];
                  listeners := listeners (this w);
                  isProcessing := isProcessing (this w) |} w).

(** [this.eventQueue = rest], after [shift()] took the head. *)
Definition with_queue (rest : list Event) (w : World) : World :=
  with_this {| eventQueue := rest;
               listeners := listeners (this w);
               isProcessing := isProcessing (this w) |} w.

(** [this.isProcessing = b] *)
Definition with_processing (b : bool) (w : World) : World :=
  with_this {| eventQueue := eventQueue (this w);
               listeners := listeners (this w);
               isProcessing := b |} w.

(** A sequence of steps, stopping when one does not return. *)
Fixpoint for_each {A : Type} (body : A -> World -> option World)
    (l : list A) (w : World) : option World :=
  match l with
  | [] => Some w
  | a :: l => w ← body a w; for_each body l w
  end.

Section Reentrant.

(** [handle] is [this._handleEvent], as a callback and other code reach
    it; [budget] bounds the rounds of a loop over a set of callbacks. *)
Context (env : Application).
Context (handle : Raise -> World -> option Run).
Context (budget : nat).

(** One thing done to the listener. Code that has an event handled goes on
    when [_handleEvent] gives the control back, fulfilled or not. *)
Definition perform (a : Act) (w : World) : option World :=
  match a with
  | Change (Register eventPattern c) => Some (register eventPattern c w)
  | Change (Unregister eventPattern c) => Some (unregister eventPattern c w)
  | Handle r => run ← handle r w; Some (outcome run)
  end.

(** [try { await callback(event) } catch (error) { console.error(...) }] *)
Definition invoke (event : Event) (c : Callback) (w : World) : option Run :=
  let w := observe (Called c event) w in
  let '(u, reaction) := callback env c event (app w) in
  let w := with_app u w in
  match for_each perform (does reaction ++ meanwhile reaction) w with
  | Some w =>
      match settles reaction with
      | Fulfilled => Some (Returned w)
      | Rejected message =>
          Some (Returned (observe (Logged ("Listener callback error: " +:+ message)) w))
      | Pending => Some (Stalled w)
      end
  | None => None
  end.

(** [for (const callback of callbacks) { ... }], on the innermost loop: at
    most [fuel] rounds. *)
Fixpoint visit (fuel : nat) (event : Event) (w : World) : option Run :=
  match loops w with
  | [] => Some (Returned w)
  | (_, []) :: outer => Some (Returned (with_loops outer w))
  | (pattern, c :: rest) :: outer =>
      match fuel with
      | O => None
      | S fuel =>
          and_then (invoke event c (with_loops ((pattern, rest) :: outer) w))
                   (visit fuel event)
      end
  end.

(** [for (const pattern of patterns) { ... }] *)
Fixpoint each_pattern (event : Event) (ps : list string) (w : World) : option Run :=
  match ps with
  | [] => Some (Returned w)
  | pattern :: ps =>
      and_then
        match listeners (this w) !! pattern with
        | Some callbacks =>
            visit budget event (with_loops ((pattern, callbacks) :: loops w) w)
        | None => Some (Returned w)
        end
        (each_pattern event ps)
  end.

(** [_dispatchEvent(event)] *)
Definition _dispatchEvent (event : Event) (w : World) : option Run :=
  each_pattern event (patterns event) w.

(** [while (this.eventQueue.length > 0) { ... }]: at most [fuel] rounds.
    Other code runs while the loop waits for the dispatch it started. *)
Fixpoint drain (fuel : nat) (w : World) : option Run :=
  match eventQueue (this w) with
  | [] => Some (Returned w)
  | event :: rest =>
      match fuel with
      | O => None
      | S fuel =>
          let w := with_queue rest w in
          let w := observe (Dispatching event) w in
          and_then (_dispatchEvent event w)
            (fun w =>
               let '(u, acts) := interval env event (app w) in
               match for_each perform acts (with_app u w) with
               | Some w => drain fuel w
               | None => None
               end)
      end
  end.

(** [_processQueue()]; the [finally] runs when the loop ends. *)
Definition _processQueue (fuel : nat) (w : World) : option Run :=
  if isProcessing (this w) || bool_decide (eventQueue (this w) = []) then Some (Returned w)
  else
    and_then (drain fuel (with_processing true w))
             (fun w => Some (Returned (with_processing false w))).

End Reentrant.

(** [_handleEvent(service, eventType, data)]: what [initialize] subscribes
    to the services, and what [emit] calls. [fuel] bounds the nesting of
    the calls and the rounds of each loop, and [None] is a run that needs
    more. *)
Fixpoint _handleEvent (env : Application) (fuel : nat) (r : Raise) (w : World)
    : option Run :=
  match fuel with
  | O => None
  | S fuel =>
      let w := push (event_of r) w in
      _processQueue env (_handleEvent env fuel) fuel fuel w
  end.

(** [emit(eventType, data)]: nothing [_handleEvent] runs throws, so the
    answer, when its promise is fulfilled, is [{success: true}]. *)
Definition emit (env : Application) (fuel : nat) (st : Stamp) (eventType : string)
    (data : value) (w : World) : option Run :=
  _handleEvent env fuel
    {| raise_stamp := st; raise_service := "integration";
       raise_type := eventType; raise_data := data |} w.

End Dispatch.

Arguments Application : clear implicits.
Arguments World : clear implicits.
Arguments Run : clear implicits.

(** The observations of each kind, in order. *)
Definition pushed (t : list Observation) : list Event :=
  omap (fun o => match o with Pushed e => Some e | _ => None end) t.

Definition dispatched (t : list Observation) : list Event :=
  omap (fun o => match o with Dispatching e => Some e | _ => None end) t.

Definition called (t : list Observation) : list (Callback * Event) :=
  omap (fun o => match o with Called c e => Some (c, e) | _ => None end) t.

(** The calls one dispatch of [event] makes when the sets of callbacks stay
    as they are: for each of the three keys in turn, each callback
    registered under it, in registration order. *)
Definition targets (event : Event) (l : IntegrationListener) : list (Callback * Event) :=
  flat_map (fun pattern => map (fun c => (c, event)) (registered pattern l))
           (patterns event).

(** A world inside a batch: the flag is set, the table of callbacks is the
    one of [l], no loop is under way, and queue, application and trace are
    any. *)
Definition in_batch {U : Type} (l : IntegrationListener) (queue : list Event)
    (u : U) (t : list Observation) : World U :=
  {| this := {| eventQueue := queue; listeners := listeners l; isProcessing := true |};
     app := u;
     loops := [];
     trace := t |}.

(** From [w] to [w'] the trace grew, and the queue took the events pushed
    at its end and gave the events dispatched from its head. *)
Definition follows {U : Type} (w w' : World U) : Prop :=
  exists t,
    trace w' = trace w ++ t /\
    eventQueue (this w) ++ pushed t = dispatched t ++ eventQueue (this w').

(** Every set of callbacks holds a callback once. *)
Definition sets (l : IntegrationListener) : Prop :=
  forall pattern callbacks,
    listeners l !! pattern = Some callbacks -> NoDup callbacks.

(** What every step of the listener keeps: the queue is first in, first
    out, the sets are sets, and a flag that is set stays set. *)
Definition advances {U : Type} (w w' : World U) : Prop :=
  follows w w' /\
  (sets (this w) -> sets (this w')) /\
  (isProcessing (this w) = true -> isProcessing (this w') = true).

(** The act leaves the sets of callbacks alone. *)
Definition raise_only (a : Act) : Prop :=
  match a with
  | Handle _ => True
  | Change _ => False
  end.

(** While [event] is dispatched nothing registers or removes a callback,
    and every promise is settled. *)
Definition undisturbed {U : Type} (env : Application U) (event : Event) : Prop :=
  forall c u,
    let reaction := snd (callback env c event u) in
    Forall raise_only (does reaction ++ meanwhile reaction) /\
    settles reaction <> Pending.

(** Callbacks and other code leave the listener alone, and every promise is
    settled. *)
Definition quiet {U : Type} (env : Application U) : Prop :=
  (forall c event u,
     let reaction := snd (callback env c event u) in
     does reaction = [] /\ meanwhile reaction = [] /\ settles reaction <> Pending) /\
  (forall event u, snd (interval env event u) = []).

(** Rounds that are enough for the loops of a listener with the table of
    [l] over the events of a queue, when nothing is raised or registered
    meanwhile: one for each event and one for each call. *)
Definition rounds (queue : list Event) (l : IntegrationListener) : nat :=
  length queue + length (flat_map (fun e => targets e l) queue).

(** The worlds calls from outside leave: a new listener, and from there
    calls of [on], of the functions it returned and of [_handleEvent], and
    steps of the code around. *)
Inductive reachable {U : Type} (env : Application U) : World U -> Prop :=
| reach_new u :
    reachable env {| this := constructor; app := u; loops := []; trace := [] |}
| reach_on eventPattern c w :
    reachable env w -> reachable env (register eventPattern c w)
| reach_off eventPattern c w :
    reachable env w -> reachable env (unregister eventPattern c w)
| reach_app u w :
    reachable env w -> reachable env (with_app u w)
| reach_handle fuel r w run :
    reachable env w ->
    _handleEvent env fuel r w = Some run ->
    reachable env (outcome run).

End Listener.

(** ** An application to run the listener with *)

Module ListenerSamples.
Import JS Listener.

(** A sign-in reported by the auth service. *)
Definition signin : Raise :=
  {| raise_stamp := {| stamp_id := "evt_1"; stamp_time := "t1" |};
     raise_service := "auth";
     raise_type := "auth_signin";
     raise_data := VObj (<["handle" := VStr "ada"]> ∅) |}.

(** The event callback 1 emits when it sees a sign-in. *)
Definition audit : Raise :=
  {| raise_stamp := {| stamp_id := "evt_2"; stamp_time := "t2" |};
     raise_service := "integration";
     raise_type := "audit";
     raise_data := VNull |}.

(** An event of the auth service whose type is the string [*]. *)
Definition star : Raise :=
  {| raise_stamp := {| stamp_id := "evt_3"; stamp_time := "t3" |};
     raise_service := "auth";
     raise_type := "*";
     raise_data := VNull |}.

(** A credit the wallet reports. *)
Definition credit : Raise :=
  {| raise_stamp := {| stamp_id := "evt_4"; stamp_time := "t4" |};
     raise_service := "wallet";
     raise_type := "funds_added";
     raise_data := VNull |}.

(** A callback that returns and leaves the listener alone. *)
Definition returns : Reaction :=
  {| does := []; meanwhile := []; settles := Fulfilled |}.

(** Callback 1 emits [audit] on a sign-in, callback 2 throws, and while
    the dispatcher waits for callback 3 on a sign-in the wallet reports a
    credit; the others return. The application counts the calls. *)
Definition behaviour : Application nat := {|
  callback c event calls :=
    (S calls,
     match c with
     | 1%nat =>
         {| does := if String.eqb (type event) "auth_signin" then [Handle audit] else [];
            meanwhile := [];
            settles := Fulfilled |}
     | 2%nat => {| does := []; meanwhile := []; settles := Rejected "boom" |}
     | 3%nat =>
         {| does := [];
            meanwhile := if String.eqb (type event) "auth_signin" then [Handle credit] else [];
            settles := Fulfilled |}
     | _ => returns
     end);
  interval _ calls := (calls, [])
|}.

(** Callback 3 removes callback 4 from [*] and registers callback 5 there;
    the promise of callback 5 is never settled. *)
Definition meddling : Application nat := {|
  callback c event calls :=
    (S calls,
     match c with
     | 3%nat =>
         {| does := [Change (Unregister "*" 4%nat); Change (Register "*" 5%nat)];
            meanwhile := [];
            settles := Fulfilled |}
     | 5%nat => {| does := []; meanwhile := []; settles := Pending |}
     | _ => returns
     end);
  interval _ calls := (calls, [])
|}.

(** Callback 1 under [auth:auth_signin], callback 2 under [auth:*],
    callback 3 under [*] before callback 4, and registered a second time. *)
Definition wiring : list Registration :=
  [Register "auth:auth_signin" 1%nat;
   Register "auth:*" 2%nat;
   Register "*" 3%nat;
   Register "*" 4%nat;
   Register "*" 3%nat].

Definition wired : IntegrationListener := register_all wiring constructor.

(** The application at rest, and inside a batch. *)
Definition idle : World nat :=
  fold_left
    (fun w r =>
       match r with
       | Register p c => register p c w
       | Unregister p c => unregister p c w
       end)
    wiring {| this := constructor; app := O; loops := []; trace := [] |}.

Definition busy : World nat := in_batch wired [] O [].

(** The world after the sign-in was handled from rest. *)
Definition handled : World nat :=
  from_option outcome idle (_handleEvent behaviour 6 signin idle).

(** Callbacks that only count. *)
Definition silent : Application nat := {|
  callback _ _ calls := (S calls, returns);
  interval _ calls := (calls, [])
|}.

End ListenerSamples.

(** ** MachineAdapter *)

Module Machine.
Import JS.

(** What [_transitionTo] is called with as metadata. *)
Inductive Metadata : Type :=
| NoMetadata                                         (* {} *)
| ByAction (action : string) (context : value)       (* {action, context} *)
| ByTrigger (trigger : string).                      (* {trigger} *)

(** A state history entry: [{from, to, timestamp, ...metadata}]. *)
Record HistoryEntry := {
  from : string;
  to : string;
  timestamp : string;
  metadata : Metadata
}.

(** What a transition handler returns: an object with [nextState], [error]
    or [data]. A field is [None] when the object has no such key. *)
Record HandlerResult := {
  nextState : option string;
  error : option value;
  data : option value
}.

(** What [transition] and [initialize] return: [{success, error}] or
    [{success, state, ...result}]. *)
Record TransitionResult := {
  success : bool;
  state : option string;
  result : HandlerResult
}.

Definition no_result : HandlerResult :=
  {| nextState := None; error := None; data := None |}.

(** [{success: false, error: message}] *)
Definition failure (message : string) : TransitionResult :=
  {| success := false; state := None;
     result := {| nextState := None; error := Some (VStr message); data := None |} |}.

Section Adapter.

(** The services are injected: [W] is the state of everything they reach,
    and a method of a service is a step on [W] that returns or throws. *)
Context {W : Type}.

Definition Step (A : Type) : Type := W -> Completion A * W.

Definition ret {A : Type} (a : A) : Step A := fun w => (Normal a, w).

Definition throw {A : Type} (message : string) : Step A := fun w => (Throw message, w).

Definition bind {A B : Type} (m : Step A) (k : A -> Step B) : Step B :=
  fun w =>
    match m w with
    | (Normal a, w) => k a w
    | (Throw message, w) => (Throw message, w)
    end.

Notation "x <- m ;; k" := (bind m (fun x => k))
  (at level 100, m at next level, right associativity).

(** [v.k], as a step: it throws the TypeError. *)
Definition read (k : string) (v : value) : Step value :=
  match prop k v with
  | Some x => ret x
  | None => throw (type_error k v)
  end.

Record AuthService := {
  signIn : value -> Step value;
  signOut : Step value
}.

Record TokenService := {
  createToken : value -> Step value
}.

Record WalletService := {
  addFunds : value -> value -> Step value;
  purchaseToken : value -> Step value
}.

(** [on('*', callback)] registers the callback of [_subscribeToServices];
    [emit('state_change', entry)] is what [_transitionTo] calls. *)
Record IntegrationService := {
  on : string -> Step unit;
  emit : string -> HistoryEntry -> Step value
}.

(** [this.services]: a service is [None] when the option was not given. *)
Record Services := {
  auth : option AuthService;
  token : option TokenService;
  wallet : option WalletService;
  integration : option IntegrationService
}.

(** A handler of the transition table: a function of the context that
    reads [this.services]. *)
Definition Handler : Type := Services -> value -> Step HandlerResult.

(** The fields of a [MachineAdapter]. *)
Record MachineAdapter := {
  services : Services;
  currentState : string;
  stateHistory : list HistoryEntry;
  transitions : gmap string Handler;
  maxHistorySize : nat
}.

(** [new MachineAdapter(options)] *)
Definition constructor (options : Services) : MachineAdapter :=
  {| services := options;
     currentState := "idle";
     stateHistory := [];
     transitions := ∅;
     maxHistorySize := 100 |}.

(** [getState()] at the time [now]: [{current, timestamp}] *)
Definition getState (now : string) (a : MachineAdapter) : string * string :=
  (currentState a, now).

(** [getHistory(limit)]: [this.stateHistory.slice(-limit)], the last
    [limit] entries, and all of them for [limit = 0]. *)
Definition getHistory (limit : nat) (a : MachineAdapter) : list HistoryEntry :=
  match limit with
  | O => stateHistory a
  | _ => drop (length (stateHistory a) - limit) (stateHistory a)
  end.

(** [{ error: message }] *)
Definition error_result (e : value) : HandlerResult :=
  {| nextState := None; error := Some e; data := None |}.

(** [{ nextState: s }] *)
Definition next_result (s : string) : HandlerResult :=
  {| nextState := Some s; error := None; data := None |}.

(** [{ data: result }] *)
Definition data_result (r : value) : HandlerResult :=
  {| nextState := None; error := None; data := Some r |}.

(** [result.success ? { nextState: s } : { error: result.error }] *)
Definition next_or_error (s : string) (r : value) : Step HandlerResult :=
  ok <- read "success" r ;;
  if truthy ok then ret (next_result s)
  else e <- read "error" r ;; ret (error_result e).

(** The handler of [initialized:signin]. *)
Definition on_signin : Handler := fun services ctx =>
  match auth services with
  | None => ret (error_result (VStr "Auth service not available"))
  | Some auth => r <- signIn auth ctx ;; next_or_error "authenticated" r
  end.

(** The handler of [authenticated:signout]. *)
Definition on_signout : Handler := fun services _ =>
  match auth services with
  | None => ret (error_result (VStr "Auth service not available"))
  | Some auth => r <- signOut auth ;; next_or_error "initialized" r
  end.

(** The handler of [authenticated:create_token]. *)
Definition on_create_token : Handler := fun services ctx =>
  match token services with
  | None => ret (error_result (VStr "Token service not available"))
  | Some token => r <- createToken token ctx ;; ret (data_result r)
  end.

(** The handler of [authenticated:add_funds]. *)
Definition on_add_funds : Handler := fun services ctx =>
  match wallet services with
  | None => ret (error_result (VStr "Wallet service not available"))
  | Some wallet =>
      amount <- read "amount" ctx ;;
      metadata <- read "metadata" ctx ;;
      r <- addFunds wallet amount metadata ;;
      ret (data_result r)
  end.

(** The handler of [authenticated:purchase_token]. *)
Definition on_purchase_token : Handler := fun services ctx =>
  match wallet services with
  | None => ret (error_result (VStr "Wallet service not available"))
  | Some wallet =>
      tokenData <- read "tokenData" ctx ;;
      r <- purchaseToken wallet tokenData ;;
      ret (data_result r)
  end.

Definition with_transitions (t : gmap string Handler) (a : MachineAdapter)
    : MachineAdapter :=
  {| services := services a;
     currentState := currentState a;
     stateHistory := stateHistory a;
     transitions := t;
     maxHistorySize := maxHistorySize a |}.

(** [_defineTransitions()]: five calls of [this.transitions.set]. *)
Definition _defineTransitions (a : MachineAdapter) : MachineAdapter :=
  with_transitions
    (<["authenticated:purchase_token" := on_purchase_token]>
     (<["authenticated:add_funds" := on_add_funds]>
      (<["authenticated:create_token" := on_create_token]>
       (<["authenticated:signout" := on_signout]>
        (<["initialized:signin" := on_signin]> (transitions a))))))
    a.

(** [_subscribeToServices()]: register the callback under [*]. *)
Definition _subscribeToServices (a : MachineAdapter) : Step unit :=
  match integration (services a) with
  | Some integration => on integration "*"
  | None => ret tt
  end.

(** The array after [push(entry)] and, past [max] entries, [shift()]. *)
Definition push_bounded (max : nat) (entry : HistoryEntry)
    (history : list HistoryEntry) : list HistoryEntry :=
  let history := history ++ [entry] in
  if (max <? length history)%nat then tail history else history.

(** The adapter after the assignments of [_transitionTo], before [emit]. *)
Definition moved (now : string) (newState : string) (metadata : Metadata)
    (a : MachineAdapter) : MachineAdapter :=
  let historyEntry :=
    {| from := currentState a; to := newState; timestamp := now;
       metadata := metadata |} in
  {| services := services a;
     currentState := newState;
     stateHistory := push_bounded (maxHistorySize a) historyEntry (stateHistory a);
     transitions := transitions a;
     maxHistorySize := maxHistorySize a |}.

(** [_transitionTo(newState, metadata)] at the time [now]: the adapter it
    leaves, and the step of the services that [emit] is. *)
Definition _transitionTo (now : string) (newState : string) (metadata : Metadata)
    (a : MachineAdapter) : MachineAdapter * Step unit :=
  let historyEntry :=
    {| from := currentState a; to := newState; timestamp := now;
       metadata := metadata |} in
  (moved now newState metadata a,
   match integration (services a) with
   | Some integration => _ <- emit integration "state_change" historyEntry ;; ret tt
   | None => ret tt
   end).

(** The default of a parameter declared [context = {}]. *)
Definition default_object (v : value) : value :=
  match v with
  | VUndefined => VObj ∅
  | _ => v
  end.

(** [transition(action, context)] at the time [now]. The handler and
    [_transitionTo] run inside [try]; what they throw is the [error] of the
    answer. The adapter keeps what was assigned before the exception. *)
Definition transition (now : string) (action : string) (context : value)
    (a : MachineAdapter) (w : W) : TransitionResult * MachineAdapter * W :=
  let context := default_object context in
  let transitionKey := currentState a +:+ ":" +:+ action in
  match transitions a !! transitionKey with
  | None =>
      (failure ("No transition from " +:+ currentState a +:+ " on " +:+ action), a, w)
  | Some handler =>
      match handler (services a) context w with
      | (Throw message, w) => (failure message, a, w)
      | (Normal result, w) =>
          let '(a, emitted) :=
            match nextState result with
            | Some newState =>
                if negb (String.eqb newState "") then
                  _transitionTo now newState (ByAction action context) a
                else (a, ret tt)
            | None => (a, ret tt)
            end in
          match emitted w with
          | (Throw message, w) => (failure message, a, w)
          | (Normal _, w) =>
              ({| success := true; state := Some (currentState a); result := result |},
               a, w)
          end
      end
  end.

(** [initialize()] at the time [now]. *)
Definition initialize (now : string) (a : MachineAdapter) (w : W)
    : TransitionResult * MachineAdapter * W :=
  let a := _defineTransitions a in
  match _subscribeToServices a w with
  | (Throw message, w) => (failure message, a, w)
  | (Normal _, w) =>
      let '(a, emitted) := _transitionTo now "initialized" NoMetadata a in
      match emitted w with
      | (Throw message, w) => (failure message, a, w)
      | (Normal _, w) =>
          ({| success := true; state := Some (currentState a); result := no_result |},
           a, w)
      end
  end.

(** The callback of [_subscribeToServices], called with an event of type
    [type] at the time [now]. What it throws goes to its caller. *)
Definition subscription (now : string) (type : string) (a : MachineAdapter)
    : MachineAdapter * Step unit :=
  if String.eqb type "auth_signin" then
    _transitionTo now "authenticated" (ByTrigger "integration_event") a
  else if String.eqb type "auth_signout" then
    _transitionTo now "initialized" (ByTrigger "integration_event") a
  else (a, ret tt).

(** The adapters a program reaches: from a new one by [initialize],
    [transition] and the calls the listener makes to the subscription.
    The listener may call the subscription while a service that a handler
    called is still running, so that the [_transitionTo] of [transition]
    finds an adapter that moved meanwhile: the last rule covers this, every
    change of the history being the assignments of one [_transitionTo]. *)
Inductive reachable : MachineAdapter -> Prop :=
| reach_new options :
    reachable (constructor options)
| reach_initialize now a w :
    reachable a -> reachable (snd (fst (initialize now a w)))
| reach_transition now action context a w :
    reachable a -> reachable (snd (fst (transition now action context a w)))
| reach_subscription now type a :
    reachable a -> reachable (fst (subscription now type a))
| reach_transitionTo now newState metadata a :
    reachable a -> reachable (fst (_transitionTo now newState metadata a)).

(** The history is within its bound, and the bound is 100. *)
Definition bounded (a : MachineAdapter) : Prop :=
  maxHistorySize a = 100%nat /\ (length (stateHistory a) <= 100)%nat.

End Adapter.

(** Services with nothing behind them, to run an adapter with. *)
Definition no_services : @Services unit :=
  {| auth := None; token := None; wallet := None; integration := None |}.

(** The adapter after [new MachineAdapter({})] and [initialize()]. *)
Definition bare : @MachineAdapter unit :=
  snd (fst (initialize "t0" (constructor no_services) tt)).

(** An auth service that accepts every sign-in and sign-out. *)
Definition accepting : @AuthService unit :=
  {| signIn := fun _ => ret (VObj (<["success" := VBool true]> ∅));
     signOut := ret (VObj (<["success" := VBool true]> ∅)) |}.

(** The adapter after [new MachineAdapter({authService})] and
    [initialize()]. *)
Definition staffed : @MachineAdapter unit :=
  snd (fst (initialize "t0"
              (constructor {| auth := Some accepting; token := None;
                              wallet := None; integration := None |}) tt)).

(** An auth service whose [signIn] and [signOut] fail: they answer
    [{success: false, error: 'Invalid credentials'}]. *)
Definition refusing : @AuthService unit :=
  {| signIn := fun _ =>
       ret (VObj (<["success" := VBool false]>
                  (<["error" := VStr "Invalid credentials"]> ∅)));
     signOut :=
       ret (VObj (<["success" := VBool false]>
                  (<["error" := VStr "Invalid credentials"]> ∅))) |}.

(** The adapter after [new MachineAdapter({authService})] with that
    service, and [initialize()]. *)
Definition refused : @MachineAdapter unit :=
  snd (fst (initialize "t0"
              (constructor {| auth := Some refusing; token := None;
                              wallet := None; integration := None |}) tt)).

(** The adapter after [n] more sign-in events reached its subscription. *)
Fixpoint churn (n : nat) (a : @MachineAdapter unit) : @MachineAdapter unit :=
  match n with
  | O => a
  | S n => churn n (fst (subscription "t" "auth_signin" a))
  end.

End Machine.

(** ** The transition table, and services that throw *)

Module Table.
Import JS Machine.

(** The keys [_defineTransitions] sets. *)
Definition defined_keys : list string :=
  ["initialized:signin"; "authenticated:signout"; "authenticated:create_token";
   "authenticated:add_funds"; "authenticated:purchase_token"].

(** The actions whose handlers return [{ data: result }]. *)
Definition data_actions : list string :=
  ["create_token"; "add_funds"; "purchase_token"].

(** The table of an adapter is empty, as the constructor leaves it, or the
    one [_defineTransitions] builds from the empty one. *)
Definition tabled {W : Type} (a : @MachineAdapter W) : Prop :=
  transitions a = ∅ \/
  transitions a = transitions (_defineTransitions (constructor (services a))).

(** An integration listener whose [emit] throws. *)
Definition flaky : @IntegrationService unit :=
  {| on := fun _ => ret tt;
     emit := fun _ _ => throw "listener down" |}.

(** A wallet service that answers [{success: true}]. *)
Definition paying : @WalletService unit :=
  {| addFunds := fun _ _ => ret (VObj (<["success" := VBool true]> ∅));
     purchaseToken := fun _ => ret (VObj (<["success" := VBool true]> ∅)) |}.

(** The adapter of an accepting auth service, a wallet service and the
    flaky listener, after [initialize()]. *)
Definition shaky : @MachineAdapter unit :=
  snd (fst (initialize "t0"
              (constructor {| auth := Some accepting; token := None;
                              wallet := Some paying; integration := Some flaky |}) tt)).

(** That adapter after a sign-in event reached its subscription. *)
Definition shaky_in : @MachineAdapter unit :=
  fst (subscription "t1" "auth_signin" shaky).

End Table.

(** ** The storage of a service *)

Module Storage.
Import JS.

(** The storage a service is constructed with ([options.storage], or
    [localStorage]) follows the Web Storage interface. [getItem] reads the
    text stored under a key, or [null]. [setItem] and [removeItem] write,
    or throw and leave the storage as it is: a storage over its quota, or
    one that is switched off. [refuses items key (Some text)] is the message
    [setItem(key, text)] throws on a storage that holds [items], and
    [refuses items key None] the one [removeItem(key)] throws; [None] is a
    write that goes through. *)
Record Storage := {
  items : gmap string string;
  refuses : gmap string string -> string -> option string -> option string
}.

(** [storage.getItem(key)] *)
Definition getItem (key : string) (s : Storage) : option string :=
  items s !! key.

(** [storage.setItem(key, text)] *)
Definition setItem (key text : string) (s : Storage) : Completion unit * Storage :=
  match refuses s (items s) key (Some text) with
  | Some message => (Throw message, s)
  | None => (Normal tt, {| items := <[key := text]> (items s); refuses := refuses s |})
  end.

(** [storage.removeItem(key)] *)
Definition removeItem (key : string) (s : Storage) : Completion unit * Storage :=
  match refuses s (items s) key None with
  | Some message => (Throw message, s)
  | None => (Normal tt, {| items := delete key (items s); refuses := refuses s |})
  end.

(** [setItem(key, text)] goes through on [s]. *)
Definition takes (key text : string) (s : Storage) : Prop :=
  refuses s (items s) key (Some text) = None.

(** [removeItem(key)] goes through on [s]. *)
Definition drops (key : string) (s : Storage) : Prop :=
  refuses s (items s) key None = None.

(** A storage that takes every write. *)
Definition roomy (items : gmap string string) : Storage :=
  {| items := items; refuses := fun _ _ _ => None |}.

(** A storage that is full: [setItem] throws, [removeItem] goes through. *)
Definition crammed (items : gmap string string) : Storage :=
  {| items := items;
     refuses := fun _ _ write =>
       match write with
       | Some _ => Some "QuotaExceededError"
       | None => None
       end |}.

(** A storage that is switched off: every write throws. *)
Definition locked (items : gmap string string) : Storage :=
  {| items := items; refuses := fun _ _ _ => Some "SecurityError" |}.

End Storage.

(** ** AuthService *)

Module Auth.
Import JS.

(** One call of a subscribed listener: [listener(event, data)]. *)
Record Notice := {
  notice_listener : nat;
  notice_event : string;
  notice_data : value
}.

(** What the methods return. *)
Inductive Result : Type :=
| Failure (error : string)      (* {success: false, error} *)
| User (user : value)           (* {success: true, user} *)
| Done.                         (* {success: true} *)

(** The fields of an [AuthService]. The storage is [None] when the service
    has none. [listeners] are the subscribed callbacks, [delivered] the
    calls made to them so far: a listener observes the service and does not
    call back into it. *)
Record AuthService := {
  storage : option Storage.Storage;
  currentUser : value;
  listeners : list nat;
  sessionKey : string;
  delivered : list Notice
}.

(** [new AuthService(options)] *)
Definition constructor (opt_storage : option Storage.Storage) : AuthService :=
  {| storage := opt_storage;
     currentUser := VNull;
     listeners := [];
     sessionKey := "pewpi_user";
     delivered := [] |}.

Definition with_user (user : value) (a : AuthService) : AuthService :=
  {| storage := storage a;
     currentUser := user;
     listeners := listeners a;
     sessionKey := sessionKey a;
     delivered := delivered a |}.

Definition with_storage (store : Storage.Storage) (a : AuthService) : AuthService :=
  {| storage := Some store;
     currentUser := currentUser a;
     listeners := listeners a;
     sessionKey := sessionKey a;
     delivered := delivered a |}.

(** [initialize()]. What [getItem] returns is a string or [null], so a
    session that is there is restored as [{ handle: userData }]. *)
Definition initialize (a : AuthService) : Result * AuthService :=
  match storage a with
  | Some store =>
      match Storage.getItem (sessionKey a) store with
      | Some userData =>
          if String.eqb userData "" then (User (currentUser a), a)
          else
            let a := with_user (VObj (<["handle" := VStr userData]> ∅)) a in
            (User (currentUser a), a)
      | None => (User (currentUser a), a)
      end
  | None => (User (currentUser a), a)
  end.

(** [_notifyListeners(event, data)] *)
Definition _notifyListeners (event : string) (data : value) (a : AuthService)
    : AuthService :=
  {| storage := storage a;
     currentUser := currentUser a;
     listeners := listeners a;
     sessionKey := sessionKey a;
     delivered := delivered a ++
       map (fun l => {| notice_listener := l; notice_event := event;
                        notice_data := data |}) (listeners a) |}.

Section Builtins.

(** [JSON.stringify] on a user object, which returns the text or throws,
    and the indexed characters a string has as own properties, which a
    spread copies. *)
Context (stringify : object -> Completion string).
Context (characters : string -> object).

(** What [...v] copies into an object literal. *)
Definition own (v : value) : object :=
  match v with
  | VObj o => o
  | VStr s => characters s
  | _ => ∅
  end.

(** The user literal [{handle: credentials.handle || credentials.username,
    timestamp, ...credentials}], for credentials whose [handle] reads [h]. *)
Definition new_user (now : string) (h : value) (credentials : value) : object :=
  spread
    (<["handle" := or_else h (default VUndefined (prop "username" credentials))]>
     (<["timestamp" := VStr now]> ∅))
    (own credentials).

(** [this.storage.setItem(this.sessionKey, JSON.stringify(user))], for a
    service with a storage: the service after it, or what was thrown. *)
Definition save (user : object) (a : AuthService) : Completion unit * AuthService :=
  match storage a with
  | Some store =>
      match stringify user with
      | Throw message => (Throw message, a)
      | Normal text =>
          let '(written, store) := Storage.setItem (sessionKey a) text store in
          (written, with_storage store a)
      end
  | None => (Normal tt, a)
  end.

(** [signIn(credentials)] at the time [now]. The user is assigned before
    the storage is written: what the write throws ends in the [catch], with
    the user in place and no listener called. *)
Definition signIn (now : string) (credentials : value) (a : AuthService)
    : Result * AuthService :=
  match prop "handle" credentials with
  | None => (Failure (type_error "handle" credentials), a)
  | Some h =>
      let user := new_user now h credentials in
      let a := with_user (VObj user) a in
      match save user a with
      | (Throw message, a) => (Failure message, a)
      | (Normal _, a) =>
          let a := _notifyListeners "auth_signin" (VObj user) a in
          (User (VObj user), a)
      end
  end.

(** The write of [signIn] goes through: the service has no storage, or
    [JSON.stringify] returns and [setItem] takes the text. *)
Definition saves (user : object) (a : AuthService) : Prop :=
  match storage a with
  | Some store =>
      exists text, stringify user = Normal text /\
                   Storage.takes (sessionKey a) text store
  | None => True
  end.

End Builtins.

(** [this.storage.removeItem(this.sessionKey)], for a service with a
    storage. *)
Definition clear (a : AuthService) : Completion unit * AuthService :=
  match storage a with
  | Some store =>
      let '(removed, store) := Storage.removeItem (sessionKey a) store in
      (removed, with_storage store a)
  | None => (Normal tt, a)
  end.

(** [signOut()]: what [removeItem] throws ends in the [catch], with the
    user gone and no listener called. *)
Definition signOut (a : AuthService) : Result * AuthService :=
  let previousUser := currentUser a in
  let a := with_user VNull a in
  match clear a with
  | (Throw message, a) => (Failure message, a)
  | (Normal _, a) =>
      let a := _notifyListeners "auth_signout" previousUser a in
      (Done, a)
  end.

(** The write of [signOut] goes through. *)
Definition clears (a : AuthService) : Prop :=
  match storage a with
  | Some store => Storage.drops (sessionKey a) store
  | None => True
  end.

(** [getCurrentUser()] *)
Definition getCurrentUser (a : AuthService) : Result * AuthService :=
  (User (currentUser a), a).

(** [isAuthenticated()]: [this.currentUser !== null] *)
Definition isAuthenticated (a : AuthService) : bool :=
  match currentUser a with
  | VNull => false
  | _ => true
  end.

(** [subscribe(listener)]: the listeners are a [Set]. *)
Definition subscribe (listener : nat) (a : AuthService) : AuthService :=
  {| storage := storage a;
     currentUser := currentUser a;
     listeners := if decide (listener ∈ listeners a) then listeners a
                  else listeners a ++ [listener];
     sessionKey := sessionKey a;
     delivered := delivered a |}.

(** The function [subscribe] returns. *)
Definition unsubscribe (listener : nat) (a : AuthService) : AuthService :=
  {| storage := storage a;
     currentUser := currentUser a;
     listeners := filter (fun l => l <> listener) (listeners a);
     sessionKey := sessionKey a;
     delivered := delivered a |}.

(** The session key of a storage, as [getItem] reads it. *)
Definition session (a : AuthService) : option string :=
  store ← storage a; Storage.getItem (sessionKey a) store.

(** The calls made to listener [l] among [notices]. *)
Definition heard (l : nat) (notices : list Notice) : list Notice :=
  filter (fun n => notice_listener n = l) notices.

(** A stand-in for [JSON.stringify]: it tells of the handle only. *)
Definition brief (user : object) : Completion string :=
  match user !! "handle" with
  | Some (VStr s) => Normal ("{handle:" +:+ s +:+ "}")
  | _ => Normal "{}"
  end.

(** A [JSON.stringify] that throws, as it does on a value that holds
    itself. *)
Definition circular (user : object) : Completion string :=
  Throw "Converting circular structure to JSON".

(** No string has characters to copy. *)
Definition no_characters : string -> object := fun _ => ∅.

(** Credentials with a handle. *)
Definition ada : value := VObj (<["handle" := VStr "ada"]> ∅).

(** A new service on an empty storage, with listener 3 subscribed, and the
    same on a storage that is full. *)
Definition desk : AuthService := subscribe 3%nat (constructor (Some (Storage.roomy ∅))).

Definition stuck : AuthService := subscribe 3%nat (constructor (Some (Storage.crammed ∅))).

End Auth.

(** ** TokenService *)

Module Tokens.
Import JS.

(** One call of a subscribed listener: [listener(event, data)]. *)
Record Notice := {
  notice_listener : nat;
  notice_event : string;
  notice_data : value
}.

(** What the methods return. *)
Inductive Result : Type :=
| Failure (error : string)          (* {success: false, error} *)
| Done                              (* {success: true} *)
| Token (token : value)             (* {success: true, token} *)
| AllTokens (tokens : list value).  (* {success: true, tokens} *)

(** What [JSON.parse] returns, as far as [initialize] looks at it: an array
    with its elements, or a value that is no array. *)
Inductive Json : Type :=
| Items (elements : list value)
| Single (v : value).

(** An id that is not an object: a [Map] compares such keys by value. *)
Definition primitive (v : value) : Prop :=
  match v with
  | VObj _ => False
  | _ => True
  end.

Section TokenService.

(** A [Map] compares two objects used as keys by reference, which the
    values here do not carry: the comparison of object keys is given. *)
Context (same_object : object -> object -> bool).

(** The indexed characters a string has as own properties, which a spread
    copies; [JSON.stringify] on the array of tokens, which returns the text
    or throws; [JSON.parse]. *)
Context (characters : string -> object).
Context (stringify : list value -> Completion string).
Context (parse : string -> Completion Json).

(** SameValueZero, the key equality of a [Map]. *)
Definition same_value_zero (a b : value) : bool :=
  match a, b with
  | VUndefined, VUndefined => true
  | VNull, VNull => true
  | VBool x, VBool y => Bool.eqb x y
  | VNum x, VNum y => x =? y
  | VStr x, VStr y => String.eqb x y
  | VObj x, VObj y => same_object x y
  | _, _ => false
  end.

(** [Map.get]: the value of the first entry with that key. *)
Fixpoint Map_get (k : value) (m : list (value * value)) : option value :=
  match m with
  | [] => None
  | (k', v) :: m => if same_value_zero k' k then Some v else Map_get k m
  end.

(** [Map.set]: the entry with that key gets the value and keeps its place;
    a new key is added at the end. *)
Fixpoint Map_set (k v : value) (m : list (value * value)) : list (value * value) :=
  match m with
  | [] => [(k, v)]
  | (k', v') :: m =>
      if same_value_zero k' k then (k', v) :: m else (k', v') :: Map_set k v m
  end.

(** [Array.from(map.values())]: the values in insertion order. *)
Definition Map_values (m : list (value * value)) : list value := map snd m.

(** The fields of a [TokenService]. The storage is [None] when the service
    has none. *)
Record TokenService := {
  storage : option Storage.Storage;
  tokenCache : list (value * value);
  listeners : list nat;
  delivered : list Notice
}.

(** [new TokenService(options)] *)
Definition constructor (opt_storage : option Storage.Storage) : TokenService :=
  {| storage := opt_storage;
     tokenCache := [];
     listeners := [];
     delivered := [] |}.

Definition with_cache (m : list (value * value)) (t : TokenService) : TokenService :=
  {| storage := storage t;
     tokenCache := m;
     listeners := listeners t;
     delivered := delivered t |}.

(** [tokens.forEach(token => this.tokenCache.set(token.id, token))]: the
    cache when the loop ends or [token.id] throws. *)
Fixpoint load (tokens : list value) (m : list (value * value))
    : Completion unit * list (value * value) :=
  match tokens with
  | [] => (Normal tt, m)
  | token :: tokens =>
      match prop "id" token with
      | None => (Throw (type_error "id" token), m)
      | Some id => load tokens (Map_set id token m)
      end
  end.

(** [initialize()] *)
Definition initialize (t : TokenService) : Result * TokenService :=
  match storage t with
  | Some store =>
      match Storage.getItem "pewpi_tokens" store with
      | Some cached =>
          if String.eqb cached "" then (Done, t)
          else
            match parse cached with
            | Throw message => (Failure message, t)
            | Normal (Single VNull) => (Failure (type_error "forEach" VNull), t)
            | Normal (Single _) => (Failure "tokens.forEach is not a function", t)
            | Normal (Items tokens) =>
                match load tokens (tokenCache t) with
                | (Normal _, m) => (Done, with_cache m t)
                | (Throw message, m) => (Failure message, with_cache m t)
                end
            end
      | None => (Done, t)
      end
  | None => (Done, t)
  end.

(** What [...v] copies into an object literal. *)
Definition own (v : value) : object :=
  match v with
  | VObj o => o
  | VStr s => characters s
  | _ => ∅
  end.

(** [tokenData.k], for a [tokenData] that is not [null] or [undefined]. *)
Definition field (k : string) (tokenData : value) : value :=
  default VUndefined (prop k tokenData).

(** The token literal [{id: tokenData.id || this._generateId(),
    value: tokenData.value || 0, type: tokenData.type || '...',
    timestamp, ...tokenData}]. *)
Definition new_token (st : Stamp) (tokenData : value) : object :=
  spread
    (<["id" := or_else (field "id" tokenData) (VStr (stamp_id st))]>
     (<["value" := or_else (field "value" tokenData) (VNum 0)]>
      (<["type" := or_else (field "type" tokenData) (VStr "🧱🍄⭐")]>
       (<["timestamp" := VStr (stamp_time st)]> ∅))))
    (own tokenData).

Definition with_storage (store : Storage.Storage) (t : TokenService) : TokenService :=
  {| storage := Some store;
     tokenCache := tokenCache t;
     listeners := listeners t;
     delivered := delivered t |}.

(** [_persistTokens()]: what [JSON.stringify] or [setItem] throws is
    logged, and the method returns. *)
Definition _persistTokens (t : TokenService) : TokenService :=
  match storage t with
  | Some store =>
      match stringify (Map_values (tokenCache t)) with
      | Normal text =>
          match Storage.setItem "pewpi_tokens" text store with
          | (Normal _, store) => with_storage store t
          | (Throw _, _) => t
          end
      | Throw _ => t
      end
  | None => t
  end.

(** [_notifyListeners(event, data)] *)
Definition _notifyListeners (event : string) (data : value) (t : TokenService)
    : TokenService :=
  {| storage := storage t;
     tokenCache := tokenCache t;
     listeners := listeners t;
     delivered := delivered t ++
       map (fun l => {| notice_listener := l; notice_event := event;
                        notice_data := data |}) (listeners t) |}.

(** The service after a token was set under [id], persisted and announced:
    the tail of [createToken] and [updateToken]. *)
Definition stored (event : string) (id : value) (token : object)
    (t : TokenService) : TokenService :=
  _notifyListeners event (VObj token)
    (_persistTokens (with_cache (Map_set id (VObj token) (tokenCache t)) t)).

(** [createToken(tokenData)], with the stamp [st] for the id and the
    timestamp. *)
Definition createToken (st : Stamp) (tokenData : value) (t : TokenService)
    : Result * TokenService :=
  match prop "id" tokenData with
  | None => (Failure (type_error "id" tokenData), t)
  | Some _ =>
      let token := new_token st tokenData in
      (Token (VObj token), stored "token_created" (get "id" token) token t)
  end.

(** [getToken(tokenId)] *)
Definition getToken (tokenId : value) (t : TokenService) : Result * TokenService :=
  let token := default VUndefined (Map_get tokenId (tokenCache t)) in
  (Token (or_else token VNull), t).

(** [getAllTokens()] *)
Definition getAllTokens (t : TokenService) : Result * TokenService :=
  (AllTokens (Map_values (tokenCache t)), t).

(** [updateToken(tokenId, updates)] *)
Definition updateToken (tokenId updates : value) (t : TokenService)
    : Result * TokenService :=
  let token := default VUndefined (Map_get tokenId (tokenCache t)) in
  if negb (truthy token) then (Failure "Token not found", t)
  else
    let updatedToken := spread (own token) (own updates) in
    (Token (VObj updatedToken), stored "token_updated" tokenId updatedToken t).

(** [subscribe(listener)]: the listeners are a [Set]. *)
Definition subscribe (listener : nat) (t : TokenService) : TokenService :=
  {| storage := storage t;
     tokenCache := tokenCache t;
     listeners := if decide (listener ∈ listeners t) then listeners t
                  else listeners t ++ [listener];
     delivered := delivered t |}.

(** The function [subscribe] returns. *)
Definition unsubscribe (listener : nat) (t : TokenService) : TokenService :=
  {| storage := storage t;
     tokenCache := tokenCache t;
     listeners := filter (fun l => l <> listener) (listeners t);
     delivered := delivered t |}.

(** A call of a public method, with its arguments. *)
Inductive Call : Type :=
| Initialize
| CreateToken (st : Stamp) (tokenData : value)
| GetToken (tokenId : value)
| GetAllTokens
| UpdateToken (tokenId updates : value)
| Subscribe (listener : nat)
| Unsubscribe (listener : nat).

(** The service after one call. *)
Definition call (c : Call) (t : TokenService) : TokenService :=
  match c with
  | Initialize => snd (initialize t)
  | CreateToken st tokenData => snd (createToken st tokenData t)
  | GetToken tokenId => snd (getToken tokenId t)
  | GetAllTokens => snd (getAllTokens t)
  | UpdateToken tokenId updates => snd (updateToken tokenId updates t)
  | Subscribe l => subscribe l t
  | Unsubscribe l => unsubscribe l t
  end.

(** A sequence of calls, each on the service the one before left. *)
Fixpoint run (cs : list Call) (t : TokenService) : TokenService :=
  match cs with
  | [] => t
  | c :: cs => run cs (call c t)
  end.

(** [this.tokenCache.has(id)] *)
Definition has (id : value) (t : TokenService) : Prop :=
  Map_get id (tokenCache t) <> None.

(** The text under [pewpi_tokens] is the serialization of the tokens the
    service holds. *)
Definition persisted (t : TokenService) : Prop :=
  match storage t with
  | Some store =>
      exists text, stringify (Map_values (tokenCache t)) = Normal text /\
                   Storage.getItem "pewpi_tokens" store = Some text
  | None => True
  end.

(** [JSON.stringify] returns on every array of tokens. *)
Definition serializable : Prop :=
  forall tokens, exists text, stringify tokens = Normal text.

(** The storage takes every write, whatever it holds. *)
Definition unlimited (store : Storage.Storage) : Prop :=
  forall items key write, Storage.refuses store items key write = None.

(** Every token is set under the id it has itself. *)
Definition keyed (m : list (value * value)) : Prop :=
  Forall (fun entry => prop "id" (snd entry) = Some (fst entry)) m.

(** No two entries have the same key. *)
Fixpoint distinct (m : list (value * value)) : Prop :=
  match m with
  | [] => True
  | (k, _) :: m => Forall (fun entry => same_value_zero k (fst entry) = false) m
                   /\ distinct m
  end.

(** What the creating calls keep on a storage that takes every write: the
    tokens are under their own ids, no key twice, and the storage is in
    step with the cache, or was never written while the cache is empty. *)
Definition in_step (t : TokenService) : Prop :=
  keyed (tokenCache t) /\ distinct (tokenCache t) /\
  exists store, storage t = Some store /\ unlimited store /\
    (persisted t \/
     (Storage.getItem "pewpi_tokens" store = None /\ tokenCache t = [])).

(** A call that reads, subscribes, or creates a token whose id is not an
    object. *)
Definition creating (c : Call) : Prop :=
  match c with
  | CreateToken st tokenData => primitive (get "id" (new_token st tokenData))
  | Initialize | UpdateToken _ _ => False
  | GetToken _ | GetAllTokens | Subscribe _ | Unsubscribe _ => True
  end.

End TokenService.

(** Two objects are never the same key. *)
Definition apart : object -> object -> bool := fun _ _ => false.

(** A stand-in for [JSON.stringify] and [JSON.parse] on the array that
    holds the one token [coin]. *)
Definition coin_data : value :=
  VObj (<["id" := VStr "coin"]> (<["value" := VNum 4]> ∅)).

Definition mint_stamp : Stamp := {| stamp_id := "token_1"; stamp_time := "t1" |}.

Definition coin : value := VObj (new_token (fun _ => ∅) mint_stamp coin_data).

Definition coin_text : list value -> Completion string := fun _ => Normal "[coin]".

Definition coin_parse : string -> Completion Json := fun _ => Normal (Items [coin]).

(** A new service on an empty storage, and the same after the coin was
    created. *)
Definition vault : TokenService := constructor (Some (Storage.roomy ∅)).

Definition vault1 : TokenService :=
  snd (createToken apart (fun _ => ∅) coin_text mint_stamp coin_data vault).

End Tokens.

(** ** The services wired to one another

    The loader builds the wallet with the token service of this library,
    and the adapter with the auth service: [new WalletUnified({tokenService})],
    [new MachineAdapter({authService, ...})]. *)

Module Wiring.
Import JS.

(** *** The wallet on the token service *)

(** The token service as the wallet holds it, with the number of stamps
    its [createToken] took so far. *)
Record Issuer := {
  service : Tokens.TokenService;
  issued : nat
}.

(** The result object of [createToken] as a value: [{success: false,
    error}] or [{success: true, token}]. A result that lists tokens is not
    one of [createToken]; an array is no value here and the list is left
    out. *)
Definition token_answer (r : Tokens.Result) : value :=
  match r with
  | Tokens.Failure e =>
      VObj (<["success" := VBool false]> (<["error" := VStr e]> ∅))
  | Tokens.Token token =>
      VObj (<["success" := VBool true]> (<["token" := token]> ∅))
  | Tokens.Done | Tokens.AllTokens _ =>
      VObj (<["success" := VBool true]> ∅)
  end.

Section Shop.

Context (same_object : object -> object -> bool).
Context (characters : string -> object).
Context (stringify : list value -> Completion string).

(** The stamp of the [n]th call of [createToken]. *)
Context (stamps : nat -> Stamp).

(** [this.tokenService.createToken(tokenData)]: the method catches what
    it throws, so the call returns. *)
Definition issuing : Wallet.TokenApi Issuer := {|
  Wallet.createToken tokenData s :=
    let '(r, t) :=
      Tokens.createToken same_object characters stringify
        (stamps (issued s)) tokenData (service s) in
    (Normal (token_answer r), {| service := t; issued := S (issued s) |})
|}.

End Shop.

(** *** The adapter on the auth service *)

(** The auth service as the adapter reaches it, with the number of
    sign-ins so far. *)
Record Front := {
  desk : Auth.AuthService;
  ticks : nat
}.

(** The result object of a method of the auth service as a value. *)
Definition auth_answer (r : Auth.Result) : value :=
  match r with
  | Auth.Failure e =>
      VObj (<["success" := VBool false]> (<["error" := VStr e]> ∅))
  | Auth.User user =>
      VObj (<["success" := VBool true]> (<["user" := user]> ∅))
  | Auth.Done =>
      VObj (<["success" := VBool true]> ∅)
  end.

Section Door.

Context (stringify : object -> Completion string).
Context (characters : string -> object).

(** The time of the [n]th call of [signIn]. *)
Context (clock : nat -> string).

(** [this.services.auth]: both methods catch what they throw. The auth
    service has no way to the adapter: no integration listener is
    subscribed to it, and its listeners do not call the adapter. *)
Definition authService : @Machine.AuthService Front := {|
  Machine.signIn credentials := fun w =>
    let '(r, a) :=
      Auth.signIn stringify characters (clock (ticks w)) credentials (desk w) in
    (Normal (auth_answer r), {| desk := a; ticks := S (ticks w) |});
  Machine.signOut := fun w =>
    let '(r, a) := Auth.signOut (desk w) in
    (Normal (auth_answer r), {| desk := a; ticks := ticks w |})
|}.

End Door.

(** A wallet of 10 on a new token service without storage. *)
Definition till : @Wallet.WalletUnified Issuer :=
  snd (Wallet.addFunds Doubles.stamp1 (VNum 10) ∅
         (Wallet.constructor None
            (Some {| service := Tokens.constructor None; issued := O |}))).

(** Every token gets the same stamp. *)
Definition one_stamp : nat -> Stamp := fun _ => Tokens.mint_stamp.

(** An adapter with the auth service on an empty storage and nothing
    else, after [initialize()]. *)
Definition lobby : @Machine.MachineAdapter Front :=
  snd (fst (Machine.initialize "t0"
              (Machine.constructor
                 {| Machine.auth := Some (authService Auth.brief Auth.no_characters
                                            (fun _ => "t1"));
                    Machine.token := None;
                    Machine.wallet := None;
                    Machine.integration := None |})
              {| desk := Auth.constructor (Some (Storage.roomy ∅)); ticks := O |})).

Definition closed : Front :=
  {| desk := Auth.constructor (Some (Storage.roomy ∅)); ticks := O |}.

End Wiring.

(** ** JavaScript values with their numbers as doubles *)

Module Binary64.

(** A JavaScript number is an IEEE 754 binary64 value, and [+], [-], [<]
    and [<=] on numbers are the operations of that format, rounding to the
    nearest value, ties to even: the primitive floats. *)
#[warnings="-register-all"]
Inductive value : Type :=
| VUndefined
| VNull
| VBool (b : bool)
| VNum (x : float)
| VStr (s : string)
| VObj (fields : gmap string value).

Abbreviation object := (gmap string value).

(** ToBoolean: [0], [-0] and [NaN] are the falsy numbers. *)
Definition truthy (v : value) : bool :=
  match v with
  | VUndefined | VNull => false
  | VBool b => b
  | VNum x => negb (PrimFloat.eqb x 0 || PrimFloat.is_nan x)
  | VStr s => negb (String.eqb s "")
  | VObj _ => true
  end.

(** [o.k] on an object. *)
Definition get (k : string) (o : object) : value :=
  default VUndefined (o !! k).

(** [v.k] on any value: [None] is the TypeError on [undefined] and [null]. *)
Definition prop (k : string) (v : value) : option value :=
  match v with
  | VUndefined | VNull => None
  | VObj o => Some (get k o)
  | VBool _ | VNum _ | VStr _ => Some VUndefined
  end.

(** The message of that TypeError. *)
Definition type_error (k : string) (v : value) : string :=
  "Cannot read properties of "
  +:+ match v with VNull => "null" | _ => "undefined" end
  +:+ " (reading '" +:+ k +:+ "')".

(** [a || b] *)
Definition or_else (a b : value) : value :=
  if truthy a then a else b.

(** [{...base, ...over}] *)
Definition spread (base over : object) : object := over ∪ base.

(** The exact value of a finite double, counted in units of [2^-1074], the
    smallest positive double; [None] for [NaN] and the infinities. *)
Definition exact (x : float) : option Z :=
  match Prim2SF x with
  | S754_zero _ => Some 0
  | S754_finite s m e => Some (cond_Zopp s (Z.pos m) * 2 ^ (e + 1074))
  | S754_infinity _ | S754_nan => None
  end.

End Binary64.

(** ** WalletUnified, in the arithmetic of doubles *)

Module Wallet64.
Import Binary64.

Abbreviation Completion := JS.Completion.
Abbreviation Normal := JS.Normal.
Abbreviation Throw := JS.Throw.
Abbreviation Stamp := JS.Stamp.
Abbreviation stamp_id := JS.stamp_id.
Abbreviation stamp_time := JS.stamp_time.

(** The token service a wallet is constructed with: any object with a
    [createToken] method, which returns a result object or throws. *)
Class TokenApi (T : Type) := {
  createToken : value -> T -> Completion value * T
}.

(** The object [_persist] serializes: [{balance, transactions}]. *)
Record Snapshot := {
  snap_balance : float;
  snap_transactions : list object
}.

(** What [initialize] reads off the value [JSON.parse] returned:
    [data.balance], [None] when it is absent or [null], and
    [data.transactions], [None] when it is absent. A stored balance that is
    neither is a number, as the wallet wrote it. *)
Record Data := {
  data_balance : option float;
  data_transactions : option (list object)
}.

(** One call of a subscribed listener: [listener(event, {transaction, balance})]. *)
Record Notice := {
  notice_listener : nat;
  notice_event : string;
  notice_transaction : object;
  notice_balance : float
}.

(** What the wallet's methods return. *)
Inductive Result : Type :=
| Failure (error : string)                        (* {success: false, error} *)
| Funds (balance : float) (transaction : object)  (* {success: true, balance, transaction} *)
| Balance (balance : float)                       (* {success: true, balance} *)
| Transactions (recent : list object)             (* {success: true, transactions} *)
| Purchased (token : value) (balance : float)     (* {success: true, token, balance} *)
| Passed (tokenResult : value)                    (* the token service's result, as it is *)
| Unsubscriber (listener : nat)                   (* the function [subscribe] returns *)
| Deleted (found : bool).                         (* what [Set.delete] returns *)

(** [result.success] *)
Definition success (r : Result) : bool :=
  match r with
  | Failure _ => false
  | Funds _ _ | Balance _ | Transactions _ | Purchased _ _ => true
  | Passed r => truthy (default VUndefined (prop "success" r))
  | Unsubscriber _ | Deleted _ => false
  end.

Section WalletUnified.

(** The number a string converts to in [this.balance < amount];
    [JSON.stringify] on the snapshot, which returns the text or throws;
    [JSON.parse], which returns a value, [None] for [null], or throws. *)
Context (number_of_string : string -> float).
Context (stringify : Snapshot -> Completion string).
Context (parse : string -> Completion (option Data)).
Context {T : Type} `{!TokenApi T}.

(** The fields of a [WalletUnified]. [listeners] are the subscribed
    callbacks, [delivered] the calls made to them so far: a listener
    observes the wallet and does not call back into it. *)
Record WalletUnified := {
  storage : option Storage.Storage;
  tokenService : option T;
  balance : float;
  transactions : list object;
  listeners : list nat;
  delivered : list Notice
}.

(** [new WalletUnified(options)] *)
Definition constructor (opt_storage : option Storage.Storage)
    (opt_tokenService : option T) : WalletUnified :=
  {| storage := opt_storage;
     tokenService := opt_tokenService;
     balance := 0;
     transactions := [];
     listeners := [];
     delivered := [] |}.

(** [data.balance || 0] *)
Definition balance_or_zero (b : option float) : float :=
  match b with
  | Some x => if truthy (VNum x) then x else 0%float
  | None => 0%float
  end.

(** [initialize()]: the balance and the transactions become those read
    from the storage. *)
Definition initialize (w : WalletUnified) : Result * WalletUnified :=
  match storage w with
  | Some store =>
      match Storage.getItem "pewpi_wallet" store with
      | Some walletData =>
          if String.eqb walletData "" then (Balance (balance w), w)
          else
            match parse walletData with
            | Throw message => (Failure message, w)
            | Normal None => (Failure (type_error "balance" VNull), w)
            | Normal (Some data) =>
                (Balance (balance_or_zero (data_balance data)),
                 {| storage := storage w;
                    tokenService := tokenService w;
                    balance := balance_or_zero (data_balance data);
                    transactions := default [] (data_transactions data);
                    listeners := listeners w;
                    delivered := delivered w |})
            end
      | None => (Balance (balance w), w)
      end
  | None => (Balance (balance w), w)
  end.

(** [getBalance()] *)
Definition getBalance (w : WalletUnified) : Result * WalletUnified :=
  (Balance (balance w), w).

Definition with_storage (store : Storage.Storage) (w : WalletUnified) : WalletUnified :=
  {| storage := Some store;
     tokenService := tokenService w;
     balance := balance w;
     transactions := transactions w;
     listeners := listeners w;
     delivered := delivered w |}.

(** [_persist()]: what [JSON.stringify] or [setItem] throws is logged, and
    the method returns. *)
Definition _persist (w : WalletUnified) : WalletUnified :=
  match storage w with
  | Some store =>
      match stringify {| snap_balance := balance w;
                         snap_transactions := transactions w |} with
      | Normal text =>
          match Storage.setItem "pewpi_wallet" text store with
          | (Normal _, store) => with_storage store w
          | (Throw _, _) => w
          end
      | Throw _ => w
      end
  | None => w
  end.

(** [_notifyListeners(event, {transaction, balance: this.balance})] *)
Definition _notifyListeners (event : string) (transaction : object)
    (w : WalletUnified) : WalletUnified :=
  {| storage := storage w;
     tokenService := tokenService w;
     balance := balance w;
     transactions := transactions w;
     listeners := listeners w;
     delivered := delivered w ++
       map (fun l => {| notice_listener := l; notice_event := event;
                        notice_transaction := transaction;
                        notice_balance := balance w |}) (listeners w) |}.

(** [this.balance = b; this.transactions.push(transaction)] *)
Definition post (b : float) (transaction : object) (w : WalletUnified) : WalletUnified :=
  {| storage := storage w;
     tokenService := tokenService w;
     balance := b;
     transactions := transactions w ++ [transaction];
     listeners := listeners w;
     delivered := delivered w |}.

(** The transaction literal [{id, type, amount, timestamp, ...metadata}]. *)
Definition new_transaction (st : Stamp) (type : string) (amount : float)
    (metadata : object) : object :=
  spread
    (<["id" := VStr (stamp_id st)]>
     (<["type" := VStr type]>
      (<["amount" := VNum amount]>
       (<["timestamp" := VStr (stamp_time st)]> ∅))))
    metadata.

(** The wallet after a transaction with [b] as the new balance was pushed,
    persisted and announced: the tail of [addFunds] and [deductFunds]. *)
Definition settled (event : string) (b : float) (tx : object)
    (w : WalletUnified) : WalletUnified :=
  _notifyListeners event tx (_persist (post b tx w)).

(** [addFunds(amount, metadata)]: [NaN] is a number and is not [<= 0]. *)
Definition addFunds (st : Stamp) (amount : value) (metadata : object)
    (w : WalletUnified) : Result * WalletUnified :=
  match amount with
  | VNum a =>
      if PrimFloat.leb a 0 then (Failure "Invalid amount", w)
      else
        let transaction := new_transaction st "credit" a metadata in
        let w := settled "funds_added" (PrimFloat.add (balance w) a) transaction w in
        (Funds (balance w) transaction, w)
  | _ => (Failure "Invalid amount", w)
  end.

(** [deductFunds(amount, metadata)] *)
Definition deductFunds (st : Stamp) (amount : value) (metadata : object)
    (w : WalletUnified) : Result * WalletUnified :=
  match amount with
  | VNum a =>
      if PrimFloat.leb a 0 then (Failure "Invalid amount", w)
      else if PrimFloat.ltb (balance w) a then (Failure "Insufficient funds", w)
      else
        let transaction := new_transaction st "debit" a metadata in
        let w := settled "funds_deducted" (PrimFloat.sub (balance w) a) transaction w in
        (Funds (balance w) transaction, w)
  | _ => (Failure "Invalid amount", w)
  end.

(** [this.transactions.slice(-limit)] for an integer [limit]. *)
Definition slice_last (limit : Z) (l : list object) : list object :=
  if (limit <=? 0)%Z then drop (Z.to_nat (- limit)) l
  else drop (length l - Z.to_nat limit)%nat l.

(** [getTransactions(limit)] *)
Definition getTransactions (limit : Z) (w : WalletUnified) : Result * WalletUnified :=
  (Transactions (slice_last limit (transactions w)), w).

(** [this.balance < amount], for the amount [tokenData.value || 0]. *)
Definition balance_lt (b : float) (amount : value) : bool :=
  match amount with
  | VNum a => PrimFloat.ltb b a
  | VBool true => PrimFloat.ltb b 1
  | VBool false | VNull => PrimFloat.ltb b 0
  | VStr s => PrimFloat.ltb b (number_of_string s)
  | VUndefined | VObj _ => false     (* compared with NaN *)
  end.

(** The wallet with its token service in the state [svc]. *)
Definition with_tokenService (svc : T) (w : WalletUnified) : WalletUnified :=
  {| storage := storage w;
     tokenService := Some svc;
     balance := balance w;
     transactions := transactions w;
     listeners := listeners w;
     delivered := delivered w |}.

(** [tokenData.value || 0], when [tokenData.value] does not throw. *)
Definition purchase_amount (tokenData : value) : option value :=
  v ← prop "value" tokenData; Some (or_else v (VNum 0)).

(** [{purpose: 'token_purchase', tokenId: tokenData.id}] *)
Definition purchase_metadata (tokenData : value) : object :=
  <["purpose" := VStr "token_purchase"]>
    (<["tokenId" := default VUndefined (prop "id" tokenData)]> ∅).

(** [{purpose: 'token_purchase_rollback'}] *)
Definition rollback_metadata : object :=
  <["purpose" := VStr "token_purchase_rollback"]> ∅.

(** [purchaseToken(tokenData)]. [st] stamps the debit, [st'] the credit of
    a rollback. A TypeError and an exception of [createToken] end in the
    [catch] of the method. *)
Definition purchaseToken (st st' : Stamp) (tokenData : value)
    (w : WalletUnified) : Result * WalletUnified :=
  match tokenService w with
  | None => (Failure "Token service not configured", w)
  | Some svc =>
      match purchase_amount tokenData with
      | None => (Failure (type_error "value" tokenData), w)
      | Some amount =>
          if balance_lt (balance w) amount then (Failure "Insufficient funds", w)
          else
            let '(deductResult, w) :=
              deductFunds st amount (purchase_metadata tokenData) w in
            if negb (success deductResult) then (deductResult, w)
            else
              let '(completion, svc) := createToken tokenData svc in
              let w := with_tokenService svc w in
              match completion with
              | Throw message => (Failure message, w)
              | Normal tokenResult =>
                  match prop "success" tokenResult with
                  | None => (Failure (type_error "success" tokenResult), w)
                  | Some ok =>
                      if negb (truthy ok) then
                        let '(_, w) :=
                          addFunds st' amount rollback_metadata w in
                        (Passed tokenResult, w)
                      else
                        (Purchased (default VUndefined (prop "token" tokenResult))
                                   (balance w), w)
                  end
              end
      end
  end.

(** The wallet after the debit of a purchase of [a], with the token service
    in the state [svc] that [createToken] left. *)
Definition debited (st : Stamp) (a : float) (tokenData : value) (svc : T)
    (w : WalletUnified) : WalletUnified :=
  with_tokenService svc
    (settled "funds_deducted" (PrimFloat.sub (balance w) a)
       (new_transaction st "debit" a (purchase_metadata tokenData)) w).

(** [subscribe(listener)]: the listeners are a [Set]. *)
Definition subscribe (listener : nat) (w : WalletUnified) : WalletUnified :=
  {| storage := storage w;
     tokenService := tokenService w;
     balance := balance w;
     transactions := transactions w;
     listeners := if decide (listener ∈ listeners w) then listeners w
                  else listeners w ++ [listener];
     delivered := delivered w |}.

(** The function [subscribe] returns. *)
Definition unsubscribe (listener : nat) (w : WalletUnified) : WalletUnified :=
  {| storage := storage w;
     tokenService := tokenService w;
     balance := balance w;
     transactions := transactions w;
     listeners := filter (fun l => l <> listener) (listeners w);
     delivered := delivered w |}.

(** A call of a public method, with its arguments. *)
Inductive Call : Type :=
| Initialize
| AddFunds (st : Stamp) (amount : value) (metadata : object)
| DeductFunds (st : Stamp) (amount : value) (metadata : object)
| PurchaseToken (st st' : Stamp) (tokenData : value)
| GetBalance
| GetTransactions (limit : Z)
| Subscribe (listener : nat)
| Unsubscribe (listener : nat).

(** One call: its result and the wallet after it. *)
Definition call (c : Call) (w : WalletUnified) : Result * WalletUnified :=
  match c with
  | Initialize => initialize w
  | AddFunds st amount metadata => addFunds st amount metadata w
  | DeductFunds st amount metadata => deductFunds st amount metadata w
  | PurchaseToken st st' tokenData => purchaseToken st st' tokenData w
  | GetBalance => getBalance w
  | GetTransactions limit => getTransactions limit w
  | Subscribe l => (Unsubscriber l, subscribe l w)
  | Unsubscribe l => (Deleted (bool_decide (l ∈ listeners w)), unsubscribe l w)
  end.

(** A sequence of calls, each on the wallet the one before left. *)
Fixpoint run (cs : list Call) (w : WalletUnified) : WalletUnified :=
  match cs with
  | [] => w
  | c :: cs => run cs (snd (call c w))
  end.

(** Every call but [initialize]. *)
Definition working (c : Call) : Prop :=
  match c with
  | Initialize => False
  | _ => True
  end.

End WalletUnified.

End Wallet64.

(** ** The ledger in doubles *)

Module Ledger64.
Import Binary64 Wallet64.

(** [tx.amount], when it is a number. *)
Definition amount_of (tx : object) : option float :=
  match tx !! "amount" with
  | Some (VNum a) => Some a
  | _ => None
  end.

(** [tx.type === type] *)
Definition has_type (type : string) (tx : object) : bool :=
  match tx !! "type" with
  | Some (VStr s) => String.eqb s type
  | _ => false
  end.

(** The balance after one transaction is applied to it the way the wallet
    does: a credit is added and a debit subtracted, each time rounding to a
    double. *)
Definition apply (b : float) (tx : object) : float :=
  match amount_of tx with
  | Some a =>
      if has_type "credit" tx then PrimFloat.add b a
      else if has_type "debit" tx then PrimFloat.sub b a
      else b
  | None => b
  end.

(** The balance after a list of transactions, applied in list order. *)
Definition replay (b : float) (txs : list object) : float :=
  fold_left apply txs b.

(** The exact sum of the amounts of the transactions of one type, in units
    of [2^-1074]; [None] when an amount is missing or not finite. *)
Fixpoint total (type : string) (txs : list object) : option Z :=
  match txs with
  | [] => Some 0%Z
  | tx :: txs =>
      if has_type type tx then
        a ← amount_of tx; x ← exact a; rest ← total type txs; Some (x + rest)%Z
      else total type txs
  end.

(** The balance [b] is exactly the balance [b0] plus the credits minus the
    debits among [txs]. *)
Definition balanced (b0 b : float) (txs : list object) : Prop :=
  exists x0 x credits debits,
    exact b0 = Some x0 /\ exact b = Some x /\
    total "credit" txs = Some credits /\ total "debit" txs = Some debits /\
    x = (x0 + credits - debits)%Z.

(** [b + a] is exact: no rounding, no overflow. *)
Definition exact_add (b a : float) : Prop :=
  exists x y, exact b = Some x /\ exact a = Some y /\
              exact (PrimFloat.add b a) = Some (x + y)%Z.

(** [b - a] is exact. *)
Definition exact_sub (b a : float) : Prop :=
  exists x y, exact b = Some x /\ exact a = Some y /\
              exact (PrimFloat.sub b a) = Some (x - y)%Z.

(** No step of the replay of [txs] from [b] rounds. *)
Fixpoint unrounded (b : float) (txs : list object) : Prop :=
  match txs with
  | [] => exists x, exact b = Some x
  | tx :: txs =>
      (if has_type "credit" tx
       then exists a, amount_of tx = Some a /\ exact_add b a
       else if has_type "debit" tx
       then exists a, amount_of tx = Some a /\ exact_sub b a
       else True)
      /\ unrounded (apply b tx) txs
  end.

(** The same, as tests that can be run. *)
Definition exact_step (op : Z -> Z -> Z) (b a r : float) : bool :=
  match exact b, exact a, exact r with
  | Some x, Some y, Some z => (z =? op x y)%Z
  | _, _, _ => false
  end.

Fixpoint unrounded_test (b : float) (txs : list object) : bool :=
  match txs with
  | [] => match exact b with Some _ => true | None => false end
  | tx :: txs =>
      (if has_type "credit" tx
       then match amount_of tx with
            | Some a => exact_step Z.add b a (PrimFloat.add b a)
            | None => false
            end
       else if has_type "debit" tx
       then match amount_of tx with
            | Some a => exact_step Z.sub b a (PrimFloat.sub b a)
            | None => false
            end
       else true)
      && unrounded_test (apply b tx) txs
  end.

(** The metadata of a call leaves the [type] and [amount] of the
    transaction alone: it has neither key. *)
Definition plain (metadata : object) : Prop :=
  metadata !! "type" = None /\ metadata !! "amount" = None.

(** The metadata a call passes on to a transaction is plain, and the call
    is not [initialize]. The metadata of the two transactions of
    [purchaseToken] are fixed by the method. *)
Definition plain_call (c : Call) : Prop :=
  match c with
  | AddFunds _ _ metadata | DeductFunds _ _ metadata => plain metadata
  | Initialize => False
  | _ => True
  end.

(** A call of [addFunds] or [deductFunds]. *)
Definition funding (c : Call) : Prop :=
  match c with
  | AddFunds _ _ _ | DeductFunds _ _ _ => True
  | _ => False
  end.

(** The object [_persist] serializes for a wallet as it is. *)
Definition snapshot {T : Type} (w : @WalletUnified T) : Snapshot :=
  {| snap_balance := balance w; snap_transactions := transactions w |}.

(** The transactions a call appended. *)
Definition appended {T : Type} (w w' : @WalletUnified T) : list object :=
  drop (length (transactions w)) (transactions w').

End Ledger64.

(** ** Wallets in doubles to run *)

Module Samples64.
Import Binary64 Wallet64.

(** A token service whose [createToken] always answers
    [{success: false, error}]. *)
Definition rejecting : TokenApi unit := {|
  createToken _ s :=
    (Normal (VObj (<["success" := VBool false]>
                   (<["error" := VStr "Token creation failed"]> ∅))), s)
|}.

(** No string is a number. *)
Definition not_a_number : string -> float := fun _ => nan.

(** Stand-ins for [JSON.stringify] and [JSON.parse]: the text tells
    whether there are transactions, and every text parses to an empty
    object. *)
Definition tally (s : Snapshot) : Completion string :=
  Normal (match snap_transactions s with [] => "{}" | _ => "{...}" end).

Definition blank (text : string) : Completion (option Data) :=
  Normal (Some {| data_balance := None; data_transactions := None |}).

Definition stamp1 : Stamp := {| JS.stamp_id := "tx_1"; JS.stamp_time := "t1" |}.
Definition stamp2 : Stamp := {| JS.stamp_id := "tx_2"; JS.stamp_time := "t2" |}.
Definition stamp3 : Stamp := {| JS.stamp_id := "tx_3"; JS.stamp_time := "t3" |}.

(** A new wallet without storage, with a token service. *)
Definition empty : @WalletUnified unit := constructor None (Some tt).

(** The wallet after [addFunds(b)]. *)
Definition holding (b : float) : @WalletUnified unit :=
  snd (addFunds tally stamp1 (VNum b) ∅ empty).

(** A token that costs [price]. *)
Definition token (price : float) : value :=
  VObj (<["id" := VStr "tok"]> (<["value" := VNum price]> ∅)).

(** A new wallet on a storage that is full and holds an older text. *)
Definition stale : @WalletUnified unit :=
  constructor (Some (Storage.crammed (<["pewpi_wallet" := "{}"]> ∅))) (Some tt).

(** A [JSON.parse] that reads the snapshot [s] back from every text. *)
Definition recalling (s : Snapshot) (text : string) : Completion (option Data) :=
  Normal (Some {| data_balance := Some (snap_balance s);
                  data_transactions := Some (snap_transactions s) |}).

(** A new wallet on an empty storage that takes every write. *)
Definition saving : @WalletUnified unit :=
  constructor (Some (Storage.roomy ∅)) (Some tt).

End Samples64.

(** * Properties of the wallet *)

Module WalletFacts.
Import JS Wallet Ledger.

Section Facts.

Context (lt_string : Z -> string -> bool).
Context {T : Type} `{!TokenApi T}.

Abbreviation wallet := (@WalletUnified T).

(** *** What [_persist] and [_notifyListeners] leave alone *)

Lemma persist_balance (w : wallet) : balance (_persist w) = balance w.
Proof. unfold _persist. now destruct (storage w). Qed.

Lemma persist_transactions (w : wallet) :
  transactions (_persist w) = transactions w.
Proof. unfold _persist. now destruct (storage w). Qed.

Lemma persist_tokenService (w : wallet) :
  tokenService (_persist w) = tokenService w.
Proof. unfold _persist. now destruct (storage w). Qed.

Lemma settled_balance event b tx (w : wallet) :
  balance (settled event b tx w) = b.
Proof. unfold settled. cbn. now rewrite persist_balance. Qed.

Lemma settled_transactions event b tx (w : wallet) :
  transactions (settled event b tx w) = transactions w ++ [tx].
Proof. unfold settled. cbn. now rewrite persist_transactions. Qed.

Lemma settled_tokenService event b tx (w : wallet) :
  tokenService (settled event b tx w) = tokenService w.
Proof. unfold settled. cbn. now rewrite persist_tokenService. Qed.

(** *** The two outcomes of [addFunds] and [deductFunds] *)

Lemma addFunds_ok st a metadata (w : wallet) :
  0 < a ->
  addFunds st (VNum a) metadata w =
    (Funds (balance w + a) (new_transaction st "credit" a metadata),
     settled "funds_added" (balance w + a)
       (new_transaction st "credit" a metadata) w).
Proof.
  intros Ha. unfold addFunds.
  destruct (Z.leb_spec a 0) as [Hle|_]; [lia|].
  cbn zeta. f_equal. f_equal. apply settled_balance.
Qed.

Lemma addFunds_invalid st amount metadata (w : wallet) :
  (forall a, amount = VNum a -> a <= 0) ->
  addFunds st amount metadata w = (Failure "Invalid amount", w).
Proof.
  intros Hbad. unfold addFunds. destruct amount as [| |b|a|s|o]; try reflexivity.
  destruct (Z.leb_spec a 0) as [_|Hpos]; [reflexivity|].
  specialize (Hbad a eq_refl). lia.
Qed.

Lemma deductFunds_ok st a metadata (w : wallet) :
  0 < a -> a <= balance w ->
  deductFunds st (VNum a) metadata w =
    (Funds (balance w - a) (new_transaction st "debit" a metadata),
     settled "funds_deducted" (balance w - a)
       (new_transaction st "debit" a metadata) w).
Proof.
  intros Ha Hb. unfold deductFunds.
  destruct (Z.leb_spec a 0) as [Hle|_]; [lia|].
  destruct (Z.ltb_spec (balance w) a) as [Hlt|_]; [lia|].
  cbn zeta. f_equal. f_equal. apply settled_balance.
Qed.

Lemma deductFunds_invalid st amount metadata (w : wallet) :
  (forall a, amount = VNum a -> a <= 0) ->
  deductFunds st amount metadata w = (Failure "Invalid amount", w).
Proof.
  intros Hbad. unfold deductFunds. destruct amount as [| |b|a|s|o]; try reflexivity.
  destruct (Z.leb_spec a 0) as [_|Hpos]; [reflexivity|].
  specialize (Hbad a eq_refl). lia.
Qed.

Lemma deductFunds_insufficient st a metadata (w : wallet) :
  0 < a -> balance w < a ->
  deductFunds st (VNum a) metadata w = (Failure "Insufficient funds", w).
Proof.
  intros Ha Hb. unfold deductFunds.
  destruct (Z.leb_spec a 0) as [Hle|_]; [lia|].
  destruct (Z.ltb_spec (balance w) a) as [_|Hge]; [reflexivity|lia].
Qed.

(** A successful [deductFunds] had a positive number within the balance. *)
Lemma deductFunds_success st amount metadata (w : wallet) :
  success (fst (deductFunds st amount metadata w)) = true ->
  exists a, amount = VNum a /\ 0 < a <= balance w.
Proof.
  unfold deductFunds. destruct amount as [| |b|a|s|o]; cbn; try discriminate.
  destruct (Z.leb_spec a 0) as [|Hpos]; [discriminate|].
  destruct (Z.ltb_spec (balance w) a) as [|Hge]; [discriminate|].
  intros _. exists a. split; [reflexivity|lia].
Qed.


Lemma addFunds_cases st amount metadata (w : wallet) :
  (exists a, amount = VNum a /\ 0 < a) \/
  addFunds st amount metadata w = (Failure "Invalid amount", w).
Proof.
  unfold addFunds.
  destruct amount as [| |b|a|s|o]; try (right; reflexivity).
  destruct (Z.leb_spec a 0) as [|Hpos]; [right; reflexivity|].
  left. exists a. split; [reflexivity|lia].
Qed.

Lemma deductFunds_cases st amount metadata (w : wallet) :
  (exists a, amount = VNum a /\ 0 < a <= balance w) \/
  (exists e, deductFunds st amount metadata w = (Failure e, w)).
Proof.
  unfold deductFunds.
  destruct amount as [| |b|a|s|o]; try (right; eexists; reflexivity).
  destruct (Z.leb_spec a 0) as [|Hpos]; [right; eexists; reflexivity|].
  destruct (Z.ltb_spec (balance w) a) as [|Hge]; [right; eexists; reflexivity|].
  left. exists a. split; [reflexivity|lia].
Qed.

(** *** The transaction literal *)

Lemma new_transaction_type st type a metadata :
  metadata !! "type" = None ->
  new_transaction st type a metadata !! "type" = Some (VStr type).
Proof.
  intros Hmd. unfold new_transaction, spread.
  rewrite lookup_union_r by exact Hmd. reflexivity.
Qed.

Lemma new_transaction_amount st type a metadata :
  metadata !! "amount" = None ->
  new_transaction st type a metadata !! "amount" = Some (VNum a).
Proof.
  intros Hmd. unfold new_transaction, spread.
  rewrite lookup_union_r by exact Hmd. reflexivity.
Qed.

Lemma total_app type (l l' : list object) :
  total type (l ++ l') = total type l + total type l'.
Proof. induction l as [|tx l IH]; cbn; [reflexivity|]. rewrite IH. lia. Qed.

Lemma net_app (l l' : list object) : net (l ++ l') = net l + net l'.
Proof. unfold net. rewrite !total_app. lia. Qed.

Lemma net_credit st a metadata :
  plain metadata -> net [new_transaction st "credit" a metadata] = a.
Proof.
  intros [Hty Ham]. unfold net, total, has_type, amount_of.
  rewrite (new_transaction_type _ _ _ _ Hty), (new_transaction_amount _ _ _ _ Ham).
  cbn. lia.
Qed.

Lemma net_debit st a metadata :
  plain metadata -> net [new_transaction st "debit" a metadata] = - a.
Proof.
  intros [Hty Ham]. unfold net, total, has_type, amount_of.
  rewrite (new_transaction_type _ _ _ _ Hty), (new_transaction_amount _ _ _ _ Ham).
  cbn. lia.
Qed.

Lemma purchase_metadata_plain tokenData : plain (purchase_metadata tokenData).
Proof. split; reflexivity. Qed.

Lemma rollback_metadata_plain : plain rollback_metadata.
Proof. split; reflexivity. Qed.


(** *** What one call does to balance and transactions *)

Lemma purchaseToken_effect st st' tokenData (w : wallet) :
  snd (purchaseToken lt_string st st' tokenData w) = w \/
  exists a svc,
    0 < a <= balance w /\
    (snd (purchaseToken lt_string st st' tokenData w) = debited st a tokenData svc w \/
     snd (purchaseToken lt_string st st' tokenData w) =
       settled "funds_added" (balance w - a + a)
         (new_transaction st' "credit" a rollback_metadata)
         (debited st a tokenData svc w)).
Proof.
  unfold purchaseToken.
  destruct (tokenService w) as [svc|]; [|now left].
  destruct (purchase_amount tokenData) as [amount|]; [|now left].
  destruct (balance_lt lt_string (balance w) amount); [now left|].
  destruct (deductFunds_cases st amount (purchase_metadata tokenData) w)
    as [(a & -> & Ha)|[e He]].
  - rewrite deductFunds_ok by lia. cbn [success negb].
    destruct (createToken tokenData svc) as [completion svc'].
    right. exists a, svc'. split; [exact Ha|].
    destruct completion as [tokenResult|message]; [|now left].
    destruct (prop "success" tokenResult) as [ok|]; [|now left].
    destruct (truthy ok); cbn [negb]; [now left|].
    right. rewrite addFunds_ok by lia. cbn [snd].
    unfold debited, with_tokenService at 1 2. cbn [balance].
    rewrite settled_balance. reflexivity.
  - rewrite He. now left.
Qed.

Lemma debited_balance st a tokenData svc (w : wallet) :
  balance (debited st a tokenData svc w) = balance w - a.
Proof. unfold debited. cbn. now rewrite persist_balance. Qed.

Lemma debited_transactions st a tokenData svc (w : wallet) :
  transactions (debited st a tokenData svc w) =
    transactions w ++ [new_transaction st "debit" a (purchase_metadata tokenData)].
Proof. unfold debited. cbn. now rewrite persist_transactions. Qed.

(** The step of a call that appends nothing and leaves the balance. *)
Ltac nothing_appended :=
  exists []; rewrite app_nil_r; repeat split; auto; unfold net; cbn; lia.

(** One call keeps the transactions it found and appends its own, and moves
    the balance by what it appended when the metadata is plain; a balance
    that was not negative stays so. *)
Lemma call_effect c (w : wallet) :
  exists new,
    transactions (snd (call lt_string c w)) = transactions w ++ new /\
    (0 <= balance w -> 0 <= balance (snd (call lt_string c w))) /\
    (plain_call c -> balance (snd (call lt_string c w)) = balance w + net new).
Proof.
  destruct c as [st amount md|st amount md|st st' td| |limit|l|l]; cbn [call].
  - destruct (addFunds_cases st amount md w) as [(a & -> & Ha)|He].
    + rewrite addFunds_ok by exact Ha. cbn [snd].
      exists [new_transaction st "credit" a md].
      rewrite settled_balance, settled_transactions.
      split; [reflexivity|]. split; [lia|].
      intros Hmd. rewrite net_credit by exact Hmd. reflexivity.
    + rewrite He. cbn. nothing_appended.
  - destruct (deductFunds_cases st amount md w) as [(a & -> & Ha)|[e He]].
    + rewrite deductFunds_ok by lia. cbn [snd].
      exists [new_transaction st "debit" a md].
      rewrite settled_balance, settled_transactions.
      split; [reflexivity|]. split; [lia|].
      intros Hmd. rewrite net_debit by exact Hmd. lia.
    + rewrite He. cbn. nothing_appended.
  - destruct (purchaseToken_effect st st' td w) as [->|(a & svc & Ha & [->| ->])].
    + nothing_appended.
    + exists [new_transaction st "debit" a (purchase_metadata td)].
      rewrite debited_balance, debited_transactions.
      split; [reflexivity|]. split; [lia|]. intros _.
      rewrite net_debit by apply purchase_metadata_plain. lia.
    + exists [new_transaction st "debit" a (purchase_metadata td);
              new_transaction st' "credit" a rollback_metadata].
      rewrite settled_balance, settled_transactions, debited_transactions.
      rewrite <- app_assoc. split; [reflexivity|]. split; [lia|]. intros _.
      change [?x; ?y] with ([x] ++ [y]). rewrite net_app.
      rewrite net_debit by apply purchase_metadata_plain.
      rewrite net_credit by apply rollback_metadata_plain. lia.
  - nothing_appended.
  - nothing_appended.
  - nothing_appended.
  - nothing_appended.
Qed.

Lemma run_effect cs (w : wallet) :
  exists new,
    transactions (run lt_string cs w) = transactions w ++ new /\
    (0 <= balance w -> 0 <= balance (run lt_string cs w)) /\
    (Forall plain_call cs -> balance (run lt_string cs w) = balance w + net new).
Proof.
  revert w. induction cs as [|c cs IH]; intros w; cbn [run].
  - nothing_appended.
  - destruct (call_effect c w) as (new1 & Htx1 & Hpos1 & Hnet1).
    destruct (IH (snd (call lt_string c w))) as (new2 & Htx2 & Hpos2 & Hnet2).
    exists (new1 ++ new2). rewrite Htx2, Htx1, <- app_assoc.
    split; [reflexivity|]. split; [auto|].
    intros Hall. inversion Hall as [|? ? Hc Hcs]; subst.
    rewrite Hnet2, Hnet1, net_app by assumption. lia.
Qed.


(** *** The claims *)




(** C10, amended. On a wallet with a token service and a balance that is
    not negative, [purchaseToken] of a [tokenData] whose [value] is absent,
    0 or otherwise falsy answers "Invalid amount" and leaves the wallet and
    its token service as they were: no token is created. *)
Theorem purchase_without_value st st' tokenData svc v (w : wallet) :
  tokenService w = Some svc ->
  0 <= balance w ->
  prop "value" tokenData = Some v ->
  truthy v = false ->
  purchaseToken lt_string st st' tokenData w = (Failure "Invalid amount", w).
Proof.
  intros Hsvc Hpos Hv Hfalsy.
  unfold purchaseToken, purchase_amount. rewrite Hsvc, Hv. cbn [mbind option_bind].
  unfold or_else. rewrite Hfalsy. cbn [balance_lt].
  destruct (Z.ltb_spec (balance w) 0) as [Hlt|_]; [lia|].
  reflexivity.
Qed.

End Facts.

(** *** The claims at concrete wallets *)

Import Doubles.




Lemma purchase_without_value_witness :
  purchaseToken lt_nan (TokenApi0 := rejecting) stamp1 stamp2
    (VObj (<["value" := VStr ""]> ∅)) funded =
    (Failure "Invalid amount", funded).
Proof.
  apply (purchase_without_value lt_nan (TokenApi0 := rejecting)
           stamp1 stamp2 _ tt (VStr "") funded eq_refl).
  - vm_compute. discriminate.
  - reflexivity.
  - reflexivity.
Defined.

(** C10 as stated fails twice: without a token service the answer is
    "Token service not configured", and on a negative balance, which
    [initialize] loads as it finds it, the answer is "Insufficient funds". *)
Lemma purchase_without_value_counterexample :
  purchaseToken lt_nan (TokenApi0 := rejecting) stamp1 stamp2 (VObj ∅)
    (constructor None None) =
    (Failure "Token service not configured", constructor None None) /\
  balance overdrawn = -5 /\
  purchaseToken lt_nan (TokenApi0 := rejecting) stamp1 stamp2 (VObj ∅) overdrawn =
    (Failure "Insufficient funds", overdrawn).
Proof. vm_compute. repeat split; reflexivity. Qed.

End WalletFacts.

(** * Properties of the integration listener *)

Module ListenerFacts.
Import JS Listener.

(** *** The sets of callbacks *)

Lemma set_add_NoDup c (s : list Callback) : NoDup s -> NoDup (set_add c s).
Proof.
  intros Hs. unfold set_add. destruct (decide (c ∈ s)) as [|Hnew]; [exact Hs|].
  apply NoDup_app. split; [exact Hs|]. split.
  - intros x Hx Hx'. apply list_elem_of_singleton in Hx'. subst. contradiction.
  - apply NoDup_singleton.
Qed.

Lemma set_delete_NoDup c (s : list Callback) : NoDup s -> NoDup (set_delete c s).
Proof. intros Hs. unfold set_delete. now apply NoDup_filter. Qed.

Lemma sets_constructor : sets constructor.
Proof. intros p cbs H. cbn in H. now rewrite lookup_empty in H. Qed.

Lemma registered_on p c l :
  registered p (on p c l) = set_add c (registered p l).
Proof.
  unfold registered, on. cbn [listeners].
  rewrite lookup_insert_eq. cbn [default].
  destruct (Listener.listeners l !! p) as [cbs|] eqn:Hp; cbn [default].
  - now rewrite Hp.
  - now rewrite lookup_insert_eq.
Qed.

Lemma registered_on_ne p q c l :
  p <> q -> registered q (on p c l) = registered q l.
Proof.
  intros Hne. unfold registered, on. cbn [listeners].
  rewrite lookup_insert_ne by exact Hne.
  destruct (Listener.listeners l !! p); [reflexivity|].
  now rewrite lookup_insert_ne by exact Hne.
Qed.

Lemma sets_on p c l : sets l -> sets (on p c l).
Proof.
  intros Hl q cbs Hq. destruct (decide (p = q)) as [<-|Hne].
  - assert (Hr : registered p (on p c l) = cbs) by (unfold registered; now rewrite Hq).
    rewrite registered_on in Hr. subst cbs. apply set_add_NoDup.
    unfold registered. destruct (Listener.listeners l !! p) as [cbs|] eqn:Hp; cbn.
    + exact (Hl p cbs Hp).
    + apply NoDup_nil_2.
  - unfold on in Hq. cbn [listeners] in Hq.
    rewrite lookup_insert_ne in Hq by exact Hne.
    destruct (Listener.listeners l !! p).
    + exact (Hl q cbs Hq).
    + rewrite lookup_insert_ne in Hq by exact Hne. exact (Hl q cbs Hq).
Qed.

Lemma sets_off p c l : sets l -> sets (off p c l).
Proof.
  intros Hl q cbs Hq. unfold off in Hq.
  destruct (Listener.listeners l !! p) as [old|] eqn:Hp; [|exact (Hl q cbs Hq)].
  cbn [listeners] in Hq. destruct (decide (p = q)) as [<-|Hne].
  - rewrite lookup_insert_eq in Hq. injection Hq as <-.
    apply set_delete_NoDup. exact (Hl p old Hp).
  - rewrite lookup_insert_ne in Hq by exact Hne. exact (Hl q cbs Hq).
Qed.

(** *** Observations *)

Lemma pushed_app t t' : pushed (t ++ t') = pushed t ++ pushed t'.
Proof. apply omap_app. Qed.

Lemma dispatched_app t t' : dispatched (t ++ t') = dispatched t ++ dispatched t'.
Proof. apply omap_app. Qed.

Lemma called_app t t' : called (t ++ t') = called t ++ called t'.
Proof. apply omap_app. Qed.

Lemma pushed_called c e : pushed [Called c e] = [].
Proof. reflexivity. Qed.

(** *** The keys of a dispatch *)

Lemma patterns_distinct event : type event <> "*" -> NoDup (patterns event).
Proof.
  intros Hty. unfold patterns.
  assert (H12 : service event +:+ ":" +:+ type event <> service event +:+ ":*").
  { intros Heq. apply (inj (String.app (service event))) in Heq.
    injection Heq as Heq. contradiction. }
  assert (Hstar : forall s rest, s +:+ ":" +:+ rest <> "*").
  { intros [|a [|b s]] rest; cbn; discriminate. }
  repeat constructor; rewrite ?elem_of_cons, ?elem_of_nil; intros H.
  - destruct H as [H|[H|[]]]; [contradiction|]. exact (Hstar _ _ H).
  - destruct H as [H|[]]. exact (Hstar _ "*" H).
  - destruct H.
Qed.

Lemma outcome_returned {U : Type} (w : World U) : outcome (Returned w) = w.
Proof. reflexivity. Qed.

Section Facts.

Context {U : Type} (env : Application U).

Abbreviation world := (World U).

(** *** What every step keeps *)

Lemma follows_refl (w : world) : follows w w.
Proof. exists []. cbn. now rewrite !app_nil_r. Qed.

Lemma follows_trans (w1 w2 w3 : world) : follows w1 w2 -> follows w2 w3 -> follows w1 w3.
Proof.
  intros (t1 & Ht1 & Hq1) (t2 & Ht2 & Hq2). exists (t1 ++ t2). split.
  - now rewrite Ht2, Ht1, app_assoc.
  - rewrite pushed_app, dispatched_app, app_assoc, Hq1, <- !app_assoc.
    now rewrite Hq2.
Qed.

Lemma advances_refl (w : world) : advances w w.
Proof. split; [apply follows_refl|]. split; auto. Qed.

Lemma advances_trans (w1 w2 w3 : world) :
  advances w1 w2 -> advances w2 w3 -> advances w1 w3.
Proof.
  intros (Hf & Hs & Hp) (Hf' & Hs' & Hp').
  split; [eapply follows_trans; eassumption|]. split; auto.
Qed.

(** A step that pushes and dispatches nothing and keeps queue and flag. *)
Lemma advances_aside t (w w' : world) :
  trace w' = trace w ++ t ->
  pushed t = [] ->
  dispatched t = [] ->
  eventQueue (this w') = eventQueue (this w) ->
  isProcessing (this w') = isProcessing (this w) ->
  (sets (this w) -> sets (this w')) ->
  advances w w'.
Proof.
  intros Ht Hpu Hdi Hq Hp Hs. split; [|split; [exact Hs|congruence]].
  exists t. split; [exact Ht|]. rewrite Hpu, Hdi, Hq. cbn. now rewrite app_nil_r.
Qed.

Lemma advances_observe o (w : world) :
  pushed [o] = [] -> dispatched [o] = [] -> advances w (observe o w).
Proof. intros Hpu Hdi. now apply (advances_aside [o]). Qed.

Lemma advances_with_app u (w : world) : advances w (with_app u w).
Proof. apply (advances_aside []); cbn; auto using app_nil_r. Qed.

Lemma advances_with_loops ls (w : world) : advances w (with_loops ls w).
Proof. apply (advances_aside []); cbn; auto using app_nil_r. Qed.

Lemma advances_register p c (w : world) : advances w (register p c w).
Proof.
  apply (advances_aside []); cbn; auto using app_nil_r. apply sets_on.
Qed.

Lemma advances_unregister p c (w : world) : advances w (unregister p c w).
Proof.
  unfold unregister. destruct (listeners (this w) !! p) as [cbs|] eqn:Hp;
    [|apply advances_refl].
  apply (advances_aside []); cbn [this trace]; auto using app_nil_r.
  - unfold off. now rewrite Hp.
  - unfold off. now rewrite Hp.
  - apply sets_off.
Qed.

Lemma advances_push event (w : world) : advances w (push event w).
Proof.
  split; [|split; [intros Hs; exact Hs|auto]].
  exists [Pushed event]. split; reflexivity.
Qed.

Lemma advances_shift event rest (w : world) :
  eventQueue (this w) = event :: rest ->
  advances w (observe (Dispatching event) (with_queue rest w)).
Proof.
  intros Hq. split; [|split; [intros Hs; exact Hs|auto]].
  exists [Dispatching event]. split; [reflexivity|]. cbn. now rewrite Hq, app_nil_r.
Qed.

Lemma and_then_Some (step : option (Run U)) next run :
  and_then step next = Some run ->
  (exists w1, step = Some (Stalled w1) /\ run = Stalled w1) \/
  (exists w1, step = Some (Returned w1) /\ next w1 = Some run).
Proof.
  destruct step as [[w1|w1]|]; cbn; [|intros [= <-]|discriminate]; eauto.
Qed.

Lemma for_each_advances {A : Type} (body : A -> world -> option world) (l : list A) :
  (forall a w w', body a w = Some w' -> advances w w') ->
  forall w w', for_each body l w = Some w' -> advances w w'.
Proof.
  intros Hbody. induction l as [|a l IH]; intros w w' Hrun; cbn in Hrun.
  - injection Hrun as <-. apply advances_refl.
  - destruct (body a w) as [w1|] eqn:Ha; [|discriminate]. cbn in Hrun.
    eapply advances_trans; [exact (Hbody _ _ _ Ha)|exact (IH _ _ Hrun)].
Qed.

Section Reentrant.

Context (handle : Raise -> world -> option (Run U)).
Context (budget : nat).
Hypothesis handle_advances :
  forall r w run, handle r w = Some run -> advances w (outcome run).

Lemma perform_advances a (w w' : world) :
  perform handle a w = Some w' -> advances w w'.
Proof.
  destruct a as [[p c|p c]|r]; cbn [perform].
  - intros [= <-]. apply advances_register.
  - intros [= <-]. apply advances_unregister.
  - destruct (handle r w) as [run|] eqn:Hr; [|discriminate].
    intros [= <-]. exact (handle_advances _ _ _ Hr).
Qed.

Lemma invoke_advances event c (w : world) run :
  invoke env handle event c w = Some run -> advances w (outcome run).
Proof.
  unfold invoke. cbn zeta.
  destruct (callback env c event (app (observe (Called c event) w))) as [u reaction].
  destruct (for_each (perform handle) _ _) as [w1|] eqn:Hacts; [|discriminate].
  assert (H1 : advances w w1).
  { eapply advances_trans; [apply (advances_observe (Called c event)); reflexivity|].
    eapply advances_trans; [apply advances_with_app|].
    eapply for_each_advances; [|exact Hacts]. apply perform_advances. }
  destruct (settles reaction) as [|message|]; intros [= <-]; cbn [outcome];
    try exact H1.
  eapply advances_trans; [exact H1|]. now apply advances_observe.
Qed.

Lemma visit_advances fuel event (w : world) run :
  visit env handle fuel event w = Some run -> advances w (outcome run).
Proof.
  revert w. induction fuel as [|fuel IH]; intros w; cbn [visit];
    destruct (loops w) as [|[p [|c rest]] outer];
    try (intros [= <-]; cbn [outcome];
         first [apply advances_refl|apply advances_with_loops]);
    try discriminate.
  intros Hrun. apply and_then_Some in Hrun as [(w1 & Hc & ->)|(w1 & Hc & Hrest)].
  - eapply advances_trans; [apply advances_with_loops|].
    exact (invoke_advances _ _ _ _ Hc).
  - eapply advances_trans; [apply advances_with_loops|].
    eapply advances_trans; [exact (invoke_advances _ _ _ _ Hc)|].
    exact (IH _ Hrest).
Qed.

Lemma each_pattern_advances event ps (w : world) run :
  each_pattern env handle budget event ps w = Some run -> advances w (outcome run).
Proof.
  revert w. induction ps as [|p ps IH]; intros w; cbn [each_pattern].
  - intros [= <-]. apply advances_refl.
  - intros Hrun.
    assert (Hp : forall run1,
      match listeners (this w) !! p with
      | Some callbacks =>
          visit env handle budget event (with_loops ((p, callbacks) :: loops w) w)
      | None => Some (Returned w)
      end = Some run1 -> advances w (outcome run1)).
    { intros run1. destruct (listeners (this w) !! p) as [cbs|].
      - intros Hv. eapply advances_trans; [apply advances_with_loops|].
        exact (visit_advances _ _ _ _ Hv).
      - intros [= <-]. apply advances_refl. }
    apply and_then_Some in Hrun as [(w1 & Hc & ->)|(w1 & Hc & Hrest)].
    + exact (Hp _ Hc).
    + eapply advances_trans; [exact (Hp _ Hc)|exact (IH _ Hrest)].
Qed.

Lemma drain_advances fuel (w : world) run :
  drain env handle budget fuel w = Some run -> advances w (outcome run).
Proof.
  revert w. induction fuel as [|fuel IH]; intros w; cbn [drain];
    destruct (eventQueue (this w)) as [|event rest] eqn:Hq;
    try (intros [= <-]; apply advances_refl); try discriminate.
  intros Hrun.
  pose proof (advances_shift event rest w Hq) as Hshift.
  apply and_then_Some in Hrun as [(w1 & Hd & ->)|(w1 & Hd & Hrest)].
  - eapply advances_trans; [exact Hshift|].
    exact (each_pattern_advances _ _ _ _ Hd).
  - eapply advances_trans; [exact Hshift|].
    eapply advances_trans; [exact (each_pattern_advances _ _ _ _ Hd)|].
    destruct (interval env event (app w1)) as [u acts].
    destruct (for_each (perform handle) acts (with_app u w1)) as [w2|] eqn:Hacts;
      [|discriminate].
    eapply advances_trans; [apply advances_with_app|].
    eapply advances_trans; [|exact (IH _ Hrest)].
    eapply for_each_advances; [|exact Hacts]. apply perform_advances.
Qed.

(** The loop returns on an empty queue only. *)
Lemma drain_returned fuel (w w' : world) :
  drain env handle budget fuel w = Some (Returned w') -> eventQueue (this w') = [].
Proof.
  revert w. induction fuel as [|fuel IH]; intros w; cbn [drain];
    destruct (eventQueue (this w)) as [|event rest] eqn:Hq;
    try (intros [= <-]; exact Hq); try discriminate.
  intros Hrun. apply and_then_Some in Hrun as [(w1 & _ & [=])|(w1 & _ & Hrest)].
  destruct (interval env event (app w1)) as [u acts].
  destruct (for_each (perform handle) acts (with_app u w1)) as [w2|];
    [|discriminate].
  exact (IH _ Hrest).
Qed.

(** [_processQueue] with the flag set returns at once; with the flag
    cleared it returns with an empty queue and the flag cleared, or stalls
    with the flag set. *)
Lemma processQueue_cases fuel (w : world) run :
  _processQueue env handle budget fuel w = Some run ->
  follows w (outcome run) /\
  (sets (this w) -> sets (this (outcome run))) /\
  (isProcessing (this w) = true -> run = Returned w) /\
  (isProcessing (this w) = false ->
   match run with
   | Returned w' => eventQueue (this w') = [] /\ isProcessing (this w') = false
   | Stalled w' => isProcessing (this w') = true
   end).
Proof.
  unfold _processQueue. destruct (isProcessing (this w)) eqn:Hp; cbn [orb].
  - intros [= <-]. split; [apply follows_refl|]. split; [auto|].
    split; [reflexivity|discriminate].
  - destruct (bool_decide_reflect (eventQueue (this w) = [])) as [Hq|Hq].
    + intros [= <-]. split; [apply follows_refl|]. split; [auto|].
      split; [discriminate|]. intros _. split; [exact Hq|exact Hp].
    + intros Hrun. apply and_then_Some in Hrun as [(w1 & Hd & ->)|(w1 & Hd & [= <-])].
      * destruct (drain_advances _ _ _ Hd) as (Hf & Hs & Hflag). cbn [outcome] in *.
        split; [exact Hf|]. split; [exact Hs|]. split; [discriminate|].
        intros _. now apply Hflag.
      * destruct (drain_advances _ _ _ Hd) as (Hf & Hs & Hflag). cbn [outcome] in *.
        split; [|split; [exact Hs|split; [discriminate|]]].
        -- destruct Hf as (t & Ht & Hqt). exists t. split; assumption.
        -- intros _. split; [|reflexivity]. cbn. exact (drain_returned _ _ _ Hd).
Qed.

(** *** A dispatch that nothing disturbs *)

Hypothesis handle_guard :
  forall r w, isProcessing (this w) = true ->
    handle r w = Some (Returned (push (event_of r) w)).

Lemma acts_raise acts (w : world) :
  Forall raise_only acts ->
  isProcessing (this w) = true ->
  exists w',
    for_each (perform handle) acts w = Some w' /\
    isProcessing (this w') = true /\
    listeners (this w') = listeners (this w) /\
    loops w' = loops w /\
    called (trace w') = called (trace w).
Proof.
  intros Hacts. revert w. induction Hacts as [|a acts Ha _ IH]; intros w Hp;
    cbn [for_each].
  - now exists w.
  - destruct a as [change|r]; [contradiction|]. cbn [perform].
    rewrite handle_guard by exact Hp. cbn [mbind option_bind outcome].
    destruct (IH (push (event_of r) w) Hp) as (w' & Hrun & Hp' & Hl & Hlo & Hc).
    exists w'. split; [exact Hrun|]. split; [exact Hp'|]. split; [exact Hl|].
    split; [exact Hlo|]. rewrite Hc. cbn. rewrite called_app. cbn.
    now rewrite app_nil_r.
Qed.

Lemma invoke_undisturbed event c (w : world) :
  undisturbed env event ->
  isProcessing (this w) = true ->
  exists w',
    invoke env handle event c w = Some (Returned w') /\
    isProcessing (this w') = true /\
    listeners (this w') = listeners (this w) /\
    loops w' = loops w /\
    called (trace w') = called (trace w) ++ [(c, event)].
Proof.
  intros Hcalm Hp. unfold invoke. cbn zeta.
  specialize (Hcalm c (app (observe (Called c event) w))). cbn zeta in Hcalm.
  destruct (callback env c event (app (observe (Called c event) w))) as [u reaction].
  cbn [snd] in Hcalm. destruct Hcalm as [Hacts Hsettles].
  destruct (acts_raise _ (with_app u (observe (Called c event) w)) Hacts Hp)
    as (w1 & -> & Hp1 & Hl1 & Hlo1 & Hc1).
  cbn in Hl1, Hlo1, Hc1. rewrite called_app in Hc1. cbn in Hc1.
  destruct (settles reaction) as [|message|]; [| |contradiction];
    eexists; (split; [reflexivity|]); cbn; rewrite ?called_app; cbn;
    rewrite ?app_nil_r; auto.
Qed.

Lemma visit_undisturbed fuel event p rest outer (w : world) :
  undisturbed env event ->
  isProcessing (this w) = true ->
  loops w = (p, rest) :: outer ->
  (length rest <= fuel)%nat ->
  exists w',
    visit env handle fuel event w = Some (Returned w') /\
    isProcessing (this w') = true /\
    listeners (this w') = listeners (this w) /\
    loops w' = outer /\
    called (trace w') = called (trace w) ++ map (fun c => (c, event)) rest.
Proof.
  intros Hcalm. revert rest w.
  induction fuel as [|fuel IH]; intros rest w Hp Hlo Hlen.
  - destruct rest; [|cbn in Hlen; lia]. cbn [visit]. rewrite Hlo.
    eexists. split; [reflexivity|]. cbn. now rewrite app_nil_r.
  - cbn [visit]. rewrite Hlo. destruct rest as [|c rest].
    + eexists. split; [reflexivity|]. cbn. now rewrite app_nil_r.
    + destruct (invoke_undisturbed event c (with_loops ((p, rest) :: outer) w) Hcalm Hp)
        as (w1 & -> & Hp1 & Hl1 & Hlo1 & Hc1).
      cbn [and_then]. cbn in Hl1, Hlo1, Hc1, Hlen.
      destruct (IH rest w1 Hp1 Hlo1 ltac:(lia)) as (w' & Hrun & Hp' & Hl' & Hlo' & Hc').
      exists w'. split; [exact Hrun|]. split; [exact Hp'|]. split; [congruence|].
      split; [exact Hlo'|]. rewrite Hc', Hc1, <- app_assoc. reflexivity.
Qed.

Lemma each_pattern_undisturbed event ps (w : world) :
  undisturbed env event ->
  isProcessing (this w) = true ->
  (forall p, p ∈ ps -> (length (registered p (this w)) <= budget)%nat) ->
  exists w',
    each_pattern env handle budget event ps w = Some (Returned w') /\
    isProcessing (this w') = true /\
    listeners (this w') = listeners (this w) /\
    loops w' = loops w /\
    called (trace w') =
      called (trace w) ++
        flat_map (fun p => map (fun c => (c, event)) (registered p (this w))) ps.
Proof.
  intros Hcalm. revert w. induction ps as [|p ps IH]; intros w Hp Hlen;
    cbn [each_pattern flat_map].
  - exists w. rewrite app_nil_r. auto.
  - assert (Hstep : exists w1,
      match listeners (this w) !! p with
      | Some callbacks =>
          visit env handle budget event (with_loops ((p, callbacks) :: loops w) w)
      | None => Some (Returned w)
      end = Some (Returned w1) /\
      isProcessing (this w1) = true /\
      listeners (this w1) = listeners (this w) /\
      loops w1 = loops w /\
      called (trace w1) =
        called (trace w) ++ map (fun c => (c, event)) (registered p (this w))).
    { pose proof (Hlen p ltac:(left)) as Hb. unfold registered in Hb |- *.
      destruct (listeners (this w) !! p) as [cbs|]; cbn in Hb |- *.
      - exact (visit_undisturbed budget event p cbs (loops w)
                 (with_loops ((p, cbs) :: loops w) w) Hcalm Hp eq_refl Hb).
      - exists w. rewrite app_nil_r. auto. }
    destruct Hstep as (w1 & -> & Hp1 & Hl1 & Hlo1 & Hc1). cbn [and_then].
    assert (Hsame : forall q, registered q (this w1) = registered q (this w))
      by (intros q; unfold registered; now rewrite Hl1).
    destruct (IH w1 Hp1) as (w' & Hrun & Hp' & Hl' & Hlo' & Hc').
    { intros q Hq. rewrite Hsame. apply Hlen. now right. }
    exists w'. split; [exact Hrun|]. split; [exact Hp'|]. split; [congruence|].
    split; [congruence|]. rewrite Hc', Hc1, <- app_assoc. f_equal. f_equal.
    apply flat_map_ext. intros q. now rewrite Hsame.
Qed.

End Reentrant.

(** *** [_handleEvent] *)

Lemma handleEvent_cases fuel r (w : world) run :
  _handleEvent env fuel r w = Some run ->
  follows (push (event_of r) w) (outcome run) /\
  (sets (this w) -> sets (this (outcome run))) /\
  (isProcessing (this w) = true -> run = Returned (push (event_of r) w)) /\
  (isProcessing (this w) = false ->
   match run with
   | Returned w' => eventQueue (this w') = [] /\ isProcessing (this w') = false
   | Stalled w' => isProcessing (this w') = true
   end).
Proof.
  revert r w run. induction fuel as [|fuel IH]; intros r w run; [discriminate|].
  cbn [_handleEvent]. intros Hrun.
  refine (processQueue_cases (_handleEvent env fuel) fuel _ fuel _ _ Hrun).
  intros r' w0 run' Hr'. destruct (IH r' w0 run' Hr') as (Hf & Hs & Hflag & _).
  split; [|split; [exact Hs|]].
  - eapply follows_trans; [|exact Hf]. apply advances_push.
  - intros Hp. now rewrite (Hflag Hp).
Qed.

Lemma handleEvent_advances fuel r (w : world) run :
  _handleEvent env fuel r w = Some run -> advances w (outcome run).
Proof.
  intros Hrun. destruct (handleEvent_cases fuel r w run Hrun) as (Hf & Hs & Hflag & _).
  split; [|split; [exact Hs|]].
  - eapply follows_trans; [|exact Hf]. apply advances_push.
  - intros Hp. now rewrite (Hflag Hp).
Qed.

Lemma handleEvent_guard fuel r (w : world) :
  isProcessing (this w) = true ->
  _handleEvent env (S fuel) r w = Some (Returned (push (event_of r) w)).
Proof.
  intros Hp. cbn [_handleEvent]. unfold _processQueue.
  cbn [push observe with_this this isProcessing]. now rewrite Hp.
Qed.

(** *** Callbacks and other code that leave the listener alone *)

Lemma length_flat_map_elem {A B : Type} (f : A -> list B) (x : A) (l : list A) :
  x ∈ l -> (length (f x) <= length (flat_map f l))%nat.
Proof.
  induction l as [|y l IH]; [now intros ?%elem_of_nil|].
  cbn [flat_map]. rewrite length_app. intros [->|Hx]%elem_of_cons; [lia|].
  specialize (IH Hx). lia.
Qed.

Section Quiet.

Context (handle : Raise -> world -> option (Run U)).
Context (budget : nat).
Hypothesis env_quiet : quiet env.

Lemma quiet_invoke event c (w : world) :
  exists w',
    invoke env handle event c w = Some (Returned w') /\
    this w' = this w /\ loops w' = loops w /\
    pushed (trace w') = pushed (trace w).
Proof.
  unfold invoke. cbn zeta.
  pose proof (proj1 env_quiet c event (app (observe (Called c event) w))) as Hq.
  cbn zeta in Hq.
  destruct (callback env c event (app (observe (Called c event) w))) as [u reaction].
  cbn [snd] in Hq. destruct Hq as (-> & -> & Hsettles). cbn [app for_each].
  destruct (settles reaction) as [|message|]; [| |contradiction];
    eexists; (split; [reflexivity|]); cbn; rewrite !pushed_app; cbn;
    rewrite ?app_nil_r; auto.
Qed.

Lemma quiet_visit fuel event p rest outer (w : world) :
  loops w = (p, rest) :: outer ->
  (length rest <= fuel)%nat ->
  exists w',
    visit env handle fuel event w = Some (Returned w') /\
    this w' = this w /\ loops w' = outer /\
    pushed (trace w') = pushed (trace w).
Proof.
  revert rest w. induction fuel as [|fuel IH]; intros rest w Hlo Hlen.
  - destruct rest; [|cbn in Hlen; lia]. cbn [visit]. rewrite Hlo.
    eexists. split; [reflexivity|]. auto.
  - cbn [visit]. rewrite Hlo. destruct rest as [|c rest].
    + eexists. split; [reflexivity|]. auto.
    + destruct (quiet_invoke event c (with_loops ((p, rest) :: outer) w))
        as (w1 & -> & Ht1 & Hlo1 & Hpu1).
      cbn [and_then]. cbn [with_loops this loops trace] in Ht1, Hlo1, Hpu1.
      cbn in Hlen.
      destruct (IH rest w1 Hlo1 ltac:(lia)) as (w' & Hrun & Ht' & Hlo' & Hpu').
      exists w'. split; [exact Hrun|]. repeat split; congruence.
Qed.

Lemma quiet_each_pattern event ps (w : world) :
  (forall p, p ∈ ps -> (length (registered p (this w)) <= budget)%nat) ->
  exists w',
    each_pattern env handle budget event ps w = Some (Returned w') /\
    this w' = this w /\ loops w' = loops w /\
    pushed (trace w') = pushed (trace w).
Proof.
  revert w. induction ps as [|p ps IH]; intros w Hlen; cbn [each_pattern];
    [exists w; auto|].
  assert (Hstep : exists w1,
    match listeners (this w) !! p with
    | Some callbacks =>
        visit env handle budget event (with_loops ((p, callbacks) :: loops w) w)
    | None => Some (Returned w)
    end = Some (Returned w1) /\ this w1 = this w /\ loops w1 = loops w /\
    pushed (trace w1) = pushed (trace w)).
  { pose proof (Hlen p ltac:(left)) as Hb. unfold registered in Hb.
    destruct (listeners (this w) !! p) as [cbs|]; cbn in Hb; [|exists w; auto].
    exact (quiet_visit budget event p cbs (loops w)
             (with_loops ((p, cbs) :: loops w) w) eq_refl Hb). }
  destruct Hstep as (w1 & -> & Ht1 & Hlo1 & Hpu1). cbn [and_then].
  destruct (IH w1) as (w' & Hrun & Ht' & Hlo' & Hpu').
  { intros q Hq. rewrite Ht1. apply Hlen. now right. }
  exists w'. split; [exact Hrun|]. repeat split; congruence.
Qed.

Lemma quiet_drain fuel (w : world) :
  (length (eventQueue (this w)) <= fuel)%nat ->
  (forall e p, e ∈ eventQueue (this w) -> p ∈ patterns e ->
     (length (registered p (this w)) <= budget)%nat) ->
  exists w',
    drain env handle budget fuel w = Some (Returned w') /\
    listeners (this w') = listeners (this w) /\
    isProcessing (this w') = isProcessing (this w) /\
    pushed (trace w') = pushed (trace w).
Proof.
  revert w. induction fuel as [|fuel IH]; intros w Hlen Hsize; cbn [drain];
    destruct (eventQueue (this w)) as [|event rest] eqn:Hq;
    try (exists w; auto; fail).
  - cbn in Hlen. lia.
  - unfold _dispatchEvent.
    destruct (quiet_each_pattern event (patterns event)
                (observe (Dispatching event) (with_queue rest w)))
      as (w1 & -> & Ht1 & _ & Hpu1).
    { intros p Hp. apply (Hsize event p); [now left|exact Hp]. }
    cbn [and_then].
    pose proof (proj2 env_quiet event (app w1)) as Hi.
    destruct (interval env event (app w1)) as [u acts]. cbn [snd] in Hi. subst acts.
    cbn [for_each].
    destruct (IH (with_app u w1)) as (w' & Hrun & Hl' & Hp' & Hpu').
    + cbn [with_app this]. rewrite Ht1. cbn. cbn in Hlen. lia.
    + cbn [with_app this]. rewrite Ht1. cbn [observe with_queue with_this this eventQueue].
      intros e p He Hp. apply (Hsize e p); [now right|exact Hp].
    + exists w'. split; [exact Hrun|]. cbn [with_app this trace] in Hl', Hp', Hpu'.
      rewrite Ht1 in Hl', Hp'. split; [exact Hl'|]. split; [exact Hp'|].
      rewrite Hpu', Hpu1. cbn. rewrite pushed_app. cbn. now rewrite app_nil_r.
Qed.

End Quiet.

Lemma quiet_handleEvent r (w : world) :
  quiet env ->
  isProcessing (this w) = false ->
  exists w',
    _handleEvent env (S (rounds (eventQueue (this w) ++ [event_of r]) (this w))) r w =
      Some (Returned w') /\
    pushed (trace w') = pushed (trace w) ++ [event_of r].
Proof.
  intros Hquiet Hp. cbn [_handleEvent]. unfold _processQueue.
  cbn [push observe with_this this isProcessing eventQueue]. rewrite Hp. cbn [orb].
  rewrite bool_decide_eq_false_2 by (now destruct (eventQueue (this w))).
  set (queue := eventQueue (this w) ++ [event_of r]).
  destruct (quiet_drain (_handleEvent env (rounds queue (this w)))
              (rounds queue (this w)) Hquiet (rounds queue (this w))
              (with_processing true (push (event_of r) w)))
    as (w1 & -> & _ & _ & Hpu).
  - cbn. fold queue. unfold rounds. lia.
  - cbn [with_processing push observe with_this this eventQueue listeners].
    fold queue. intros e p He Hpat.
    change (registered p _) with (registered p (this w)).
    transitivity (length (targets e (this w))).
    + unfold targets.
      apply (length_flat_map_elem
               (fun q => map (fun c => (c, e)) (registered q (this w))) p) in Hpat.
      now rewrite length_map in Hpat.
    + unfold rounds.
      pose proof (length_flat_map_elem (fun e => targets e (this w)) e queue He).
      lia.
  - cbn [and_then]. eexists. split; [reflexivity|].
    cbn [with_processing with_this trace]. rewrite Hpu. cbn. now rewrite pushed_app.
Qed.

(** *** The claims *)

Lemma sets_register_all rs l : sets l -> sets (register_all rs l).
Proof.
  revert l. induction rs as [|[p c|p c] rs IH]; intros l Hl; cbn [register_all fold_left].
  - exact Hl.
  - apply IH. now apply sets_on.
  - apply IH. now apply sets_off.
Qed.

(** C3, amended. Whatever calls of [on] and of the functions it returned
    built the table of callbacks: when nothing registers or removes a
    callback while the event is dispatched and every callback's promise is
    settled, a dispatch (inside a batch: the flag is set) looks up the
    three keys [service:type], [service:*] and [*] in this order and
    calls, for each key in turn, each callback registered under it, once,
    as no set holds a callback twice, and in registration order, as [on]
    puts a new callback last and leaves a registered one where it is. The
    three keys are three patterns when the type of the event is not [*];
    when it is, the first two are the same and its callbacks are called
    for each. *)
Theorem dispatch_reaches_callbacks fuel budget event rs queue (u : U) t :
  let l := register_all rs constructor in
  undisturbed env event ->
  (length (targets event l) <= budget)%nat ->
  patterns event =
    [service event +:+ ":" +:+ type event; service event +:+ ":*"; "*"] /\
  (type event <> "*" -> NoDup (patterns event)) /\
  Forall (fun p => NoDup (registered p l)) (patterns event) /\
  (forall p c,
     registered p (on p c l) =
       if decide (c ∈ registered p l) then registered p l
       else registered p l ++ [c]) /\
  exists w',
    _dispatchEvent env (_handleEvent env (S fuel)) budget event
      (in_batch l queue u t) = Some (Returned w') /\
    called (trace w') =
      called t ++
        flat_map (fun p => map (fun c => (c, event)) (registered p l))
                 (patterns event).
Proof.
  intros l Hcalm Hbudget. split; [reflexivity|].
  split; [apply patterns_distinct|]. split; [|split].
  - assert (Hsets : sets l) by (apply sets_register_all, sets_constructor).
    apply Forall_forall. intros p _. unfold registered.
    destruct (listeners l !! p) as [cbs|] eqn:Hcbs; cbn.
    + exact (Hsets p cbs Hcbs).
    + apply NoDup_nil_2.
  - intros p c. apply registered_on.
  - destruct (each_pattern_undisturbed (_handleEvent env (S fuel)) budget
                (handleEvent_guard fuel) event (patterns event)
                (in_batch l queue u t) Hcalm eq_refl)
      as (w' & Hrun & _ & _ & _ & Hc).
    + intros p Hp. etransitivity; [|exact Hbudget]. unfold targets.
      apply (length_flat_map_elem
               (fun q => map (fun c => (c, event)) (registered q l)) p) in Hp.
      now rewrite length_map in Hp.
    + exists w'. split; [exact Hrun|exact Hc].
Qed.


(** X1. In every world that calls of [on], of the functions it returned
    and of [_handleEvent] leave, each set of callbacks holds a callback
    once, and the events pushed are the events dispatched, in that order,
    followed by the queue; when the flag is cleared the queue is empty, and
    every event pushed has been dispatched. *)
Theorem reachable_in_order (w : world) :
  reachable env w ->
  sets (this w) /\
  pushed (trace w) = dispatched (trace w) ++ eventQueue (this w) /\
  (isProcessing (this w) = false ->
   eventQueue (this w) = [] /\ dispatched (trace w) = pushed (trace w)).
Proof.
  intros Hreach.
  assert (H : sets (this w) /\
              pushed (trace w) = dispatched (trace w) ++ eventQueue (this w) /\
              (isProcessing (this w) = false -> eventQueue (this w) = [])).
  { induction Hreach as [u|p c w _ IH|p c w _ IH|u w _ IH|fuel r w run _ IH Hrun].
    - split; [apply sets_constructor|]. split; reflexivity.
    - destruct IH as (Hs & Hf & Hq). split; [now apply sets_on|]. split; assumption.
    - destruct IH as (Hs & Hf & Hq). unfold unregister.
      destruct (listeners (this w) !! p) as [cbs|] eqn:Hp; [|auto].
      cbn [this trace]. split; [now apply sets_off|].
      unfold off. rewrite Hp. cbn. split; assumption.
    - exact IH.
    - destruct IH as (Hs & Hf & Hq).
      destruct (handleEvent_advances fuel r w run Hrun) as ((t & Ht & Hqt) & Hs' & _).
      destruct (handleEvent_cases fuel r w run Hrun) as (_ & _ & Hin & Hout).
      split; [now apply Hs'|]. split.
      + rewrite Ht, pushed_app, dispatched_app, Hf, <- !app_assoc. now rewrite Hqt.
      + intros Hflag. destruct (isProcessing (this w)) eqn:Hp.
        * rewrite (Hin eq_refl) in Hflag. cbn in Hflag. congruence.
        * specialize (Hout eq_refl). destruct run as [w'|w']; cbn [outcome] in *.
          -- exact (proj1 Hout).
          -- congruence. }
  destruct H as (Hs & Hf & Hq). split; [exact Hs|]. split; [exact Hf|].
  intros Hp. split; [now apply Hq|]. rewrite Hf, (Hq Hp), app_nil_r. reflexivity.
Qed.

(** X2. When callbacks and other code leave the listener alone and every
    promise is settled, handling an event with no batch in progress
    returns: one round for each event of the queue and one for each call
    are enough, and the queue is empty and the flag cleared after it. *)
Theorem handleEvent_returns r (w : world) :
  quiet env ->
  isProcessing (this w) = false ->
  exists w',
    _handleEvent env (S (rounds (eventQueue (this w) ++ [event_of r]) (this w))) r w =
      Some (Returned w') /\
    eventQueue (this w') = [] /\
    isProcessing (this w') = false /\
    dispatched (trace w') =
      dispatched (trace w) ++ eventQueue (this w) ++ [event_of r].
Proof.
  intros Hquiet Hp. destruct (quiet_handleEvent r w Hquiet Hp) as (w' & Hrun & Hpu).
  exists w'. split; [exact Hrun|].
  destruct (handleEvent_cases _ r w _ Hrun) as ((t & Ht & Hq) & _ & _ & Hout).
  destruct (Hout Hp) as [Hempty Hflag]. split; [exact Hempty|]. split; [exact Hflag|].
  cbn [outcome push observe with_this this trace eventQueue] in Ht, Hq.
  rewrite Hempty, app_nil_r in Hq.
  assert (Hnone : pushed t = []).
  { rewrite Ht, !pushed_app in Hpu.
    change (pushed [Pushed (event_of r)]) with [event_of r] in Hpu.
    rewrite <- (app_nil_r (pushed (trace w) ++ [event_of r])) in Hpu at 2.
    exact (app_inv_head _ _ _ Hpu). }
  rewrite Ht, !dispatched_app. cbn. rewrite <- Hq, Hnone, !app_nil_r. reflexivity.
Qed.

End Facts.

(** *** The claims on a sample application *)

Import ListenerSamples.

Lemma behaviour_undisturbed event : undisturbed behaviour event.
Proof.
  intros c u. cbn. destruct c as [|[|[|[|c]]]]; cbn;
    try destruct (String.eqb (type event) "auth_signin");
    (split; [repeat constructor|discriminate]).
Qed.

Lemma dispatch_reaches_callbacks_witness :
  exists w',
    _dispatchEvent behaviour (_handleEvent behaviour 1) 4 (event_of signin) busy =
      Some (Returned w') /\
    map fst (called (trace w')) = [1; 2; 3; 4]%nat.
Proof.
  destruct (dispatch_reaches_callbacks behaviour 0 4 (event_of signin) wiring [] O []
              (behaviour_undisturbed _) ltac:(vm_compute; lia))
    as (_ & _ & _ & _ & w' & Hrun & Hcalled).
  exists w'. split; [exact Hrun|]. rewrite Hcalled. vm_compute. reflexivity.
Defined.

(** C3 as stated fails. For an event whose type is the string [*] the
    keys [service:type] and [service:*] are the same, and callback 2,
    registered once, under [auth:*], is called twice. And a callback can
    change the sets while they are iterated: when callback 3 removes
    callback 4 from [*] and registers callback 5, whose promise is never
    settled, callback 4 is not called although it was registered, callback
    5 is called, and the dispatch does not end. *)
Lemma dispatch_reaches_callbacks_counterexample :
  let calls env event :=
    option_map (fun run => map fst (called (trace (outcome run))))
      (_dispatchEvent env (_handleEvent env 1) 4 (event_of event) busy) in
  patterns (event_of star) = ["auth:*"; "auth:*"; "*"] /\
  registered "auth:*" wired = [2%nat] /\
  registered "*" wired = [3; 4]%nat /\
  calls behaviour star = Some [2; 2; 3; 4]%nat /\
  calls meddling signin = Some [1; 2; 3; 5]%nat /\
  match _dispatchEvent meddling (_handleEvent meddling 1) 4 (event_of signin) busy with
  | Some (Stalled _) => True
  | _ => False
  end.
Proof. vm_compute. repeat split. Defined.

(** The calls of one dispatch of a sign-in, written out. *)
Example dispatch_sample :
  option_map (fun run => called (trace (outcome run)))
    (_dispatchEvent behaviour (_handleEvent behaviour 1) 4 (event_of signin) busy) =
  Some [(1%nat, event_of signin); (2%nat, event_of signin);
        (3%nat, event_of signin); (4%nat, event_of signin)].
Proof. vm_compute. reflexivity. Qed.


(** The sign-in is dispatched first, to the four callbacks; the event
    callback 1 raised and the credit the wallet reported meanwhile are
    dispatched after it, in this order, to the callbacks under [*]. *)
Example arrival_order_sample :
  map id (dispatched (trace handled)) = ["evt_1"; "evt_2"; "evt_4"] /\
  map (fun call => (fst call, id (snd call))) (called (trace handled)) =
    [(1%nat, "evt_1"); (2%nat, "evt_1"); (3%nat, "evt_1"); (4%nat, "evt_1");
     (3%nat, "evt_2"); (4%nat, "evt_2"); (3%nat, "evt_4"); (4%nat, "evt_4")].
Proof. vm_compute. split; reflexivity. Qed.

(** A sign-in that arrives while a batch is in progress is queued. *)
Example queued_sample :
  option_map (fun run => (eventQueue (this (outcome run)), trace (outcome run)))
    (_handleEvent behaviour 1 signin busy) =
  Some ([event_of signin], [Pushed (event_of signin)]).
Proof. vm_compute. reflexivity. Qed.

(** With a callback whose promise is never settled the batch does not
    end: the flag stays set, and what arrives later stays in the queue. *)
Example stalled_sample :
  match _handleEvent meddling 6 signin idle with
  | Some (Stalled w') =>
      isProcessing (this w') = true /\
      option_map (fun run => map id (eventQueue (this (outcome run))))
        (_handleEvent meddling 6 audit w') = Some ["evt_2"]
  | _ => False
  end.
Proof. vm_compute. split; reflexivity. Qed.

Lemma idle_reachable : reachable behaviour idle.
Proof.
  unfold idle, wiring. cbn [fold_left]. repeat apply reach_on. apply reach_new.
Qed.

Lemma reachable_in_order_witness :
  sets (this handled) /\
  pushed (trace handled) = dispatched (trace handled) ++ eventQueue (this handled) /\
  eventQueue (this handled) = [] /\
  dispatched (trace handled) = pushed (trace handled).
Proof.
  assert (Hrun : _handleEvent behaviour 6 signin idle = Some (Returned handled))
    by (vm_compute; reflexivity).
  assert (Hflag : isProcessing (this handled) = false) by (vm_compute; reflexivity).
  destruct (reachable_in_order behaviour (outcome (Returned handled))
              (reach_handle behaviour 6%nat signin idle (Returned handled)
                 idle_reachable Hrun))
    as (Hs & Hf & Hrest).
  rewrite outcome_returned in Hs, Hf, Hrest.
  destruct (Hrest Hflag) as [Hq Hd].
  exact (conj Hs (conj Hf (conj Hq Hd))).
Defined.

Lemma silent_quiet : quiet silent.
Proof. split; intros; cbn; repeat split; discriminate. Qed.

Lemma handleEvent_returns_witness :
  exists w',
    _handleEvent silent 6 signin idle = Some (Returned w') /\
    eventQueue (this w') = [] /\
    isProcessing (this w') = false /\
    dispatched (trace w') = [event_of signin].
Proof.
  exact (handleEvent_returns silent signin idle silent_quiet eq_refl).
Defined.

End ListenerFacts.

(** * Properties of the machine adapter *)

Module MachineFacts.
Import JS Machine.

Section Facts.

Context {W : Type}.

Abbreviation adapter := (@MachineAdapter W).

(** *** The bounded history *)

Lemma push_bounded_length max entry (history : list HistoryEntry) :
  (length history <= max)%nat ->
  (length (push_bounded max entry history) <= max)%nat.
Proof.
  intros Hlen. unfold push_bounded.
  destruct (Nat.ltb_spec max (length (history ++ [entry]))) as [Hover|Hfits].
  - assert (Htail : forall l : list HistoryEntry, length (tail l) = (length l - 1)%nat)
      by (intros [|x l]; cbn; lia).
    rewrite Htail, length_app. cbn. lia.
  - exact Hfits.
Qed.

Lemma push_bounded_full max entry (history : list HistoryEntry) :
  length history = max -> max <> O ->
  push_bounded max entry history = tail history ++ [entry].
Proof.
  intros Hlen Hmax. unfold push_bounded.
  destruct (Nat.ltb_spec max (length (history ++ [entry]))) as [_|Hfits].
  - destruct history as [|first history]; [cbn in Hlen; congruence|reflexivity].
  - rewrite length_app in Hfits. cbn in Hfits. lia.
Qed.

Lemma push_bounded_room max entry (history : list HistoryEntry) :
  (length history < max)%nat ->
  push_bounded max entry history = history ++ [entry].
Proof.
  intros Hlen. unfold push_bounded.
  destruct (Nat.ltb_spec max (length (history ++ [entry]))) as [Hover|_].
  - rewrite length_app in Hover. cbn in Hover. lia.
  - reflexivity.
Qed.

Lemma bounded_moved now newState md (a : adapter) :
  bounded a -> bounded (moved now newState md a).
Proof.
  intros [Hmax Hlen]. split; [exact Hmax|]. cbn [moved stateHistory].
  rewrite Hmax. apply push_bounded_length. exact Hlen.
Qed.

Lemma bounded_transitionTo now newState md (a : adapter) :
  bounded a -> bounded (fst (_transitionTo now newState md a)).
Proof. apply bounded_moved. Qed.

Lemma bounded_transition now action context (a : adapter) (w : W) :
  bounded a -> bounded (snd (fst (transition now action context a w))).
Proof.
  intros Ha. unfold transition.
  destruct (transitions a !! _) as [handler|]; [|exact Ha].
  destruct (handler (services a) _ w) as [[result|message] w1]; [|exact Ha].
  destruct (nextState result) as [newState|].
  - destruct (negb (String.eqb newState "")).
    + cbn [_transitionTo].
      match goal with |- context [match ?step w1 with _ => _ end] =>
        destruct (step w1) as [[u|message] w2] end;
        cbn [fst snd]; now apply bounded_moved.
    + cbn. exact Ha.
  - cbn. exact Ha.
Qed.

Lemma bounded_initialize now (a : adapter) (w : W) :
  bounded a -> bounded (snd (fst (initialize now a w))).
Proof.
  intros Ha. unfold initialize.
  assert (Hdef : bounded (_defineTransitions a)) by exact Ha.
  destruct (_subscribeToServices (_defineTransitions a) w) as [[u|message] w1];
    [|exact Hdef].
  cbn [_transitionTo].
  match goal with |- context [match ?step w1 with _ => _ end] =>
    destruct (step w1) as [[u'|message] w2] end;
    cbn [fst snd]; now apply bounded_moved.
Qed.

Lemma bounded_subscription now type (a : adapter) :
  bounded a -> bounded (fst (subscription now type a)).
Proof.
  intros Ha. unfold subscription.
  destruct (String.eqb type "auth_signin"); [now apply bounded_moved|].
  destruct (String.eqb type "auth_signout"); [now apply bounded_moved|exact Ha].
Qed.

Lemma reachable_bounded (a : adapter) : reachable a -> bounded a.
Proof.
  induction 1 as [options|now a w _ IH|now action context a w _ IH|now type a _ IH
                 |now newState md a _ IH].
  - split; [reflexivity|cbn; lia].
  - now apply bounded_initialize.
  - now apply bounded_transition.
  - now apply bounded_subscription.
  - now apply bounded_transitionTo.
Qed.

(** *** The claims *)

(** C4. When the transition table has no handler under the key
    [state:action] of the current state and the action, [transition]
    answers [{success: false, error}] and changes nothing. *)
Theorem transition_fails_closed now action context (a : adapter) (w : W) :
  transitions a !! (currentState a +:+ ":" +:+ action) = None ->
  transition now action context a w =
    (failure ("No transition from " +:+ currentState a +:+ " on " +:+ action), a, w)
  /\ success (fst (fst (transition now action context a w))) = false.
Proof.
  intros Hnone. unfold transition. cbn zeta.
  destruct (transitions a !! _) as [handler|] eqn:Hkey.
  - discriminate.
  - split; reflexivity.
Qed.

(** C6. The state history of a reachable adapter has at most 100 entries,
    and so has the history [_transitionTo] leaves. [_transitionTo] puts the
    entry of the move last: behind the entries there are when they are
    fewer than 100, and behind all but the oldest of them when they are
    100, so that the oldest entry is the one that goes. *)
Theorem history_bounded now newState md (a : adapter) :
  reachable a ->
  let entry := {| from := currentState a; to := newState; timestamp := now;
                  metadata := md |} in
  let after := stateHistory (fst (_transitionTo now newState md a)) in
  (length (stateHistory a) <= 100)%nat /\
  (length after <= 100)%nat /\
  ((length (stateHistory a) < 100)%nat -> after = stateHistory a ++ [entry]) /\
  (length (stateHistory a) = 100%nat ->
   after = tail (stateHistory a) ++ [entry] /\
   length after = 100%nat /\
   head after = nth_error (stateHistory a) 1).
Proof.
  intros Hreach entry after. destruct (reachable_bounded a Hreach) as [Hmax Hlen].
  assert (Hafter : bounded (fst (_transitionTo now newState md a)))
    by (apply bounded_transitionTo; now split).
  split; [exact Hlen|]. split; [exact (proj2 Hafter)|].
  subst after. cbn [_transitionTo fst moved stateHistory]. rewrite Hmax. split.
  - intros Hroom. now apply push_bounded_room.
  - intros Hfull. rewrite push_bounded_full by (try exact Hfull; discriminate).
    split; [reflexivity|].
    destruct (stateHistory a) as [|oldest [|second rest]]; cbn in Hfull; try lia.
    split; [|reflexivity]. cbn [tail]. rewrite length_app. cbn in *. lia.
Qed.

(** X5. On an adapter without an integration listener, which subscribes
    to nothing and emits nothing: when the handler of the current state
    and the action returns a [nextState], [transition] moves the adapter to
    that state, appends the history entry of the move, and answers
    [{success: true, state, ...result}] with the new state. *)
Theorem transition_moves now action context handler result newState w1
    (a : adapter) (w : W) :
  let ctx := default_object context in
  reachable a ->
  integration (services a) = None ->
  transitions a !! (currentState a +:+ ":" +:+ action) = Some handler ->
  handler (services a) ctx w = (Normal result, w1) ->
  nextState result = Some newState ->
  newState <> "" ->
  transition now action context a w =
    ({| success := true; state := Some newState; result := result |},
     moved now newState (ByAction action ctx) a, w1) /\
  currentState (moved now newState (ByAction action ctx) a) = newState /\
  last (stateHistory (moved now newState (ByAction action ctx) a)) =
    Some {| from := currentState a; to := newState; timestamp := now;
            metadata := ByAction action ctx |}.
Proof.
  intros ctx Hreach Halone Hkey Hrun Hnext Hne. split; [|split; [reflexivity|]].
  - unfold transition. cbn zeta.
    destruct (transitions a !! _) as [h|]; [|discriminate].
    injection Hkey as ->. fold ctx. rewrite Hrun, Hnext.
    destruct (String.eqb_spec newState ""); [contradiction|]. cbn [negb].
    unfold _transitionTo. rewrite Halone. reflexivity.
  - destruct (reachable_bounded a Hreach) as [Hmax Hlen].
    cbn [moved stateHistory]. rewrite Hmax. unfold push_bounded.
    destruct (Nat.ltb_spec 100 (length (stateHistory a ++ [
      {| from := currentState a; to := newState; timestamp := now;
         metadata := ByAction action ctx |}]))) as [Hover|_].
    + rewrite length_app in Hover. cbn in Hover.
      destruct (stateHistory a) as [|first rest]; [cbn in Hover; lia|].
      cbn [app tail]. apply last_snoc.
    + apply last_snoc.
Qed.

End Facts.

(** *** The claims on an adapter without services *)

Lemma transition_fails_closed_witness :
  transition "t1" "signout" VUndefined bare tt =
    (failure "No transition from initialized on signout", bare, tt).
Proof.
  exact (proj1 (transition_fails_closed "t1" "signout" VUndefined bare tt eq_refl)).
Defined.

Lemma churn_reachable n (a : @MachineAdapter unit) :
  reachable a -> reachable (churn n a).
Proof.
  revert a. induction n as [|n IH]; intros a Ha; cbn [churn]; [exact Ha|].
  apply IH. now apply reach_subscription.
Qed.

Lemma history_bounded_witness :
  let full := churn 99 bare in
  let after := stateHistory (fst (_transitionTo "t100" "authenticated" NoMetadata full)) in
  length (stateHistory full) = 100%nat /\
  after = tail (stateHistory full) ++
            [{| from := "authenticated"; to := "authenticated"; timestamp := "t100";
                metadata := NoMetadata |}] /\
  option_map from (head (stateHistory full)) = Some "idle" /\
  option_map from (head after) = Some "initialized".
Proof.
  intros full after.
  assert (Hreach : reachable full).
  { apply churn_reachable. apply (reach_initialize "t0" _ tt). apply reach_new. }
  assert (Hfull : length (stateHistory full) = 100%nat) by (vm_compute; reflexivity).
  destruct (history_bounded "t100" "authenticated" NoMetadata full Hreach)
    as (_ & _ & _ & Hevict).
  destruct (Hevict Hfull) as (Hafter & _ & Hhead).
  split; [exact Hfull|]. split; [exact Hafter|]. split; [vm_compute; reflexivity|].
  subst after. rewrite Hhead. vm_compute. reflexivity.
Defined.

(** After 150 sign-in events the history holds 100 entries, the first of
    them the one of the 51st event: the entry of [initialize] and those of
    the first 50 events are gone. *)
Example history_sample :
  length (stateHistory (churn 150 bare)) = 100%nat /\
  length (stateHistory (churn 99 bare)) = 100%nat /\
  option_map from (head (stateHistory (churn 99 bare))) = Some "idle" /\
  option_map from (head (stateHistory (churn 100 bare))) = Some "initialized".
Proof. vm_compute. repeat split. Qed.

(** C5 fails on the code. On an adapter without an auth service the
    handler of [initialized:signin] runs and returns [{error}]; on an
    adapter whose auth service fails the sign-in, it returns the error of
    the service. In both cases [transition] answers [success: true]
    together with that error, and the state stays [initialized]. *)
Lemma transition_success_with_error (context : value) :
  transition "t1" "signin" context bare tt =
    ({| success := true;
        state := Some "initialized";
        result := error_result (VStr "Auth service not available") |},
     bare, tt) /\
  transition "t1" "signin" context refused tt =
    ({| success := true;
        state := Some "initialized";
        result := error_result (VStr "Invalid credentials") |},
     refused, tt).
Proof. split; reflexivity. Qed.

Lemma transition_moves_witness :
  transition "t1" "signin" (VObj ∅) staffed tt =
    ({| success := true; state := Some "authenticated";
        result := next_result "authenticated" |},
     moved "t1" "authenticated" (ByAction "signin" (VObj ∅)) staffed, tt).
Proof.
  assert (Hreach : reachable staffed)
    by (apply (reach_initialize "t0" _ tt); apply reach_new).
  refine (proj1 (transition_moves "t1" "signin" (VObj ∅) on_signin
                   (next_result "authenticated") "authenticated" tt staffed tt
                   Hreach eq_refl eq_refl eq_refl eq_refl _)).
  discriminate.
Defined.

End MachineFacts.

(** * More of the wallet: history, subscribers, storage *)

Module WalletMoreFacts.
Import JS Wallet Ledger Subscribers.

Section Facts.

Context (lt_string : Z -> string -> bool).
Context {T : Type} `{!TokenApi T}.

Abbreviation wallet := (@WalletUnified T).

(** *** [getTransactions] *)

(** X6. [getTransactions(limit)] leaves the wallet as it is and returns the
    end of the transaction list, in order: the last [limit] transactions
    for a positive [limit], all of them when there are no more than
    [limit], and all of them for [limit = 0], as [slice(-0)] is
    [slice(0)]. *)
Theorem getTransactions_recent (limit : Z) (w : wallet) :
  snd (getTransactions limit w) = w /\
  exists older recent,
    fst (getTransactions limit w) = Transactions recent /\
    transactions w = older ++ recent /\
    (0 < limit ->
     length recent = Nat.min (Z.to_nat limit) (length (transactions w))) /\
    (limit = 0 -> recent = transactions w).
Proof.
  split; [reflexivity|]. unfold getTransactions, slice_last. cbn [fst].
  destruct (Z.leb_spec limit 0) as [Hle|Hpos].
  - exists (take (Z.to_nat (- limit)) (transactions w)),
           (drop (Z.to_nat (- limit)) (transactions w)).
    split; [reflexivity|]. split; [now rewrite take_drop|]. split; [lia|].
    intros ->. reflexivity.
  - exists (take (length (transactions w) - Z.to_nat limit) (transactions w)),
           (drop (length (transactions w) - Z.to_nat limit) (transactions w)).
    split; [reflexivity|]. split; [now rewrite take_drop|]. split; [|lia].
    intros _. rewrite length_drop. lia.
Qed.

(** *** Subscribers *)

Lemma persist_listeners (w : wallet) : listeners (_persist w) = listeners w.
Proof. unfold _persist. now destruct (storage w). Qed.

Lemma persist_delivered (w : wallet) : delivered (_persist w) = delivered w.
Proof. unfold _persist. now destruct (storage w). Qed.

Lemma settled_listeners event b tx (w : wallet) :
  listeners (settled event b tx w) = listeners w.
Proof. unfold settled. cbn. now rewrite persist_listeners. Qed.

Lemma settled_delivered event b tx (w : wallet) :
  delivered (settled event b tx w) =
    delivered w ++
      map (fun l => {| notice_listener := l; notice_event := event;
                       notice_transaction := tx; notice_balance := b |})
          (listeners w).
Proof.
  unfold settled. cbn.
  now rewrite persist_listeners, persist_delivered, WalletFacts.persist_balance.
Qed.

(** Among the notices of one announcement, the one for a listener. *)
Lemma seen_announcement l event tx b (ls : list nat) :
  NoDup ls ->
  seen l (map (fun l => {| notice_listener := l; notice_event := event;
                           notice_transaction := tx; notice_balance := b |}) ls) =
    if decide (l ∈ ls)
    then [{| notice_listener := l; notice_event := event;
             notice_transaction := tx; notice_balance := b |}]
    else [].
Proof.
  unfold seen. induction 1 as [|x ls Hx Hls IH]; [reflexivity|].
  cbn [map]. rewrite filter_cons. cbn [notice_listener].
  destruct (decide (x = l)) as [->|Hne].
  - rewrite decide_True by apply list_elem_of_here.
    rewrite IH, decide_False by exact Hx. reflexivity.
  - rewrite IH. destruct (decide (l ∈ ls)) as [Hin|Hout].
    + rewrite decide_True by (now apply list_elem_of_further). reflexivity.
    + rewrite decide_False; [reflexivity|].
      intros Hin. apply elem_of_cons in Hin as [->|Hin]; contradiction.
Qed.

Lemma seen_app l (ns ns' : list Notice) : seen l (ns ++ ns') = seen l ns ++ seen l ns'.
Proof. apply filter_app. Qed.

Lemma told_refl l (w : wallet) : NoDup (listeners w) -> told l w w.
Proof.
  intros Hnodup. exists [], []. rewrite !app_nil_r. repeat split; auto.
Qed.

Lemma told_settled l event b tx (w : wallet) :
  NoDup (listeners w) -> told l w (settled event b tx w).
Proof.
  intros Hnodup. exists [tx]. eexists.
  split; [apply WalletFacts.settled_transactions|].
  split; [apply settled_delivered|].
  rewrite settled_listeners. split; [exact Hnodup|]. split; [reflexivity|].
  rewrite seen_announcement by exact Hnodup.
  split; intros Hl; [rewrite decide_True|rewrite decide_False]; auto.
Qed.

Lemma told_trans l (w1 w2 w3 : wallet) : told l w1 w2 -> told l w2 w3 -> told l w1 w3.
Proof.
  intros (new & ns & Htx & Hd & Hnd & Hl & Hin & Hout)
         (new' & ns' & Htx' & Hd' & Hnd' & Hl' & Hin' & Hout').
  exists (new ++ new'), (ns ++ ns').
  rewrite Htx', Htx, Hd', Hd, !app_assoc.
  split; [reflexivity|]. split; [reflexivity|]. split; [exact Hnd'|].
  split; [now rewrite Hl'|]. split.
  - intros Hmem. rewrite seen_app, map_app, Hin by exact Hmem.
    rewrite Hin' by (now apply Hl). reflexivity.
  - intros Hmem. rewrite seen_app, Hout by exact Hmem.
    rewrite Hout'; [reflexivity|]. intros Hmem'. apply Hmem. now apply Hl.
Qed.

Lemma told_with_tokenService l svc (w w' : wallet) :
  told l w w' -> told l w (with_tokenService svc w').
Proof.
  intros (new & ns & H). exists new, ns. exact H.
Qed.

(** A call that keeps the listener tells it of what the call appends. *)
Lemma call_told l c (w : wallet) :
  NoDup (listeners w) -> keeps l c -> told l w (snd (call lt_string c w)).
Proof.
  intros Hnodup [Hsub Hunsub].
  destruct c as [st amount md|st amount md|st st' td| |limit|l'|l']; cbn [call].
  - destruct (WalletFacts.addFunds_cases st amount md w) as [(a & -> & Ha)|He].
    + rewrite WalletFacts.addFunds_ok by exact Ha. now apply told_settled.
    + rewrite He. now apply told_refl.
  - destruct (WalletFacts.deductFunds_cases st amount md w) as [(a & -> & Ha)|[e He]].
    + rewrite WalletFacts.deductFunds_ok by lia. now apply told_settled.
    + rewrite He. now apply told_refl.
  - destruct (WalletFacts.purchaseToken_effect lt_string st st' td w)
      as [->|(a & svc & Ha & [->| ->])].
    + now apply told_refl.
    + unfold debited. apply told_with_tokenService. now apply told_settled.
    + eapply told_trans.
      * unfold debited. apply told_with_tokenService. now apply told_settled.
      * apply told_settled. unfold debited. cbn [with_tokenService listeners].
        now rewrite settled_listeners.
  - now apply told_refl.
  - now apply told_refl.
  - exists [], []. cbn [snd subscribe transactions delivered listeners].
    rewrite !app_nil_r. split; [reflexivity|]. split; [reflexivity|].
    assert (Hne : l <> l') by (intros ->; now apply Hsub).
    destruct (decide (l' ∈ listeners w)) as [Hin|Hnew].
    + repeat split; auto.
    + split.
      * apply NoDup_app. split; [exact Hnodup|]. split; [|apply NoDup_singleton].
        intros x Hx Hx'. apply list_elem_of_singleton in Hx'. now subst.
      * split; [|split; auto]. rewrite elem_of_app, list_elem_of_singleton. tauto.
  - exists [], []. cbn [snd unsubscribe transactions delivered listeners].
    rewrite !app_nil_r. split; [reflexivity|]. split; [reflexivity|].
    assert (Hne : l <> l') by (intros ->; now apply Hunsub).
    split; [now apply NoDup_filter|].
    split; [|split; auto]. rewrite list_elem_of_filter. tauto.
Qed.

Lemma run_told l cs (w : wallet) :
  NoDup (listeners w) -> Forall (keeps l) cs -> told l w (run lt_string cs w).
Proof.
  revert w. induction cs as [|c cs IH]; intros w Hnodup Hall; cbn [run].
  - now apply told_refl.
  - inversion Hall as [|? ? Hc Hcs]; subst.
    pose proof (call_told l c w Hnodup Hc) as Hfirst.
    eapply told_trans; [exact Hfirst|]. apply IH; [|exact Hcs].
    destruct Hfirst as (_ & _ & _ & _ & Hnd & _). exact Hnd.
Qed.

(** X7. Over any sequence of calls that neither subscribe nor unsubscribe
    a listener, a subscribed listener is called once for each transaction
    appended, with that transaction and in the order of the list, and a
    listener that is not subscribed is not called. *)
Theorem subscribers_see_every_transaction l cs (w0 : wallet) :
  NoDup (listeners w0) ->
  Forall (keeps l) cs ->
  let notices := drop (length (delivered w0)) (delivered (run lt_string cs w0)) in
  let new := drop (length (transactions w0)) (transactions (run lt_string cs w0)) in
  (l ∈ listeners w0 -> map notice_transaction (seen l notices) = new) /\
  (l ∉ listeners w0 -> seen l notices = []).
Proof.
  intros Hnodup Hall notices new.
  destruct (run_told l cs w0 Hnodup Hall) as (new' & ns & Htx & Hd & _ & _ & Hin & Hout).
  subst notices new. rewrite Htx, Hd, !drop_app_length. split; assumption.
Qed.

End Facts.

(** *** On sample wallets *)

Import Doubles.

Lemma subscribers_see_every_transaction_witness :
  map notice_transaction
    (seen 7%nat
       (drop (length (delivered watched))
          (delivered (run lt_nan (TokenApi0 := rejecting) busy_day watched)))) =
  drop (length (transactions watched))
    (transactions (run lt_nan (TokenApi0 := rejecting) busy_day watched)).
Proof.
  refine (proj1 (subscribers_see_every_transaction lt_nan (TokenApi0 := rejecting)
                   7%nat busy_day watched _ _) _).
  - refine (bool_decide_unpack _ _). vm_compute. exact I.
  - repeat constructor; discriminate.
  - refine (bool_decide_unpack _ _). vm_compute. exact I.
Defined.

(** The three transactions of that day, as listener 7 was told of them. *)
Example subscribers_sample :
  map notice_event
    (seen 7%nat
       (drop (length (delivered watched))
          (delivered (run lt_nan (TokenApi0 := rejecting) busy_day watched)))) =
  ["funds_deducted"; "funds_added"; "funds_deducted"].
Proof. vm_compute. reflexivity. Qed.

End WalletMoreFacts.

(** * More of the listener: registration *)

Module ListenerMoreFacts.
Import JS Listener.

Lemma registered_off p c l :
  registered p (off p c l) = set_delete c (registered p l).
Proof.
  unfold registered, off.
  destruct (listeners l !! p) as [cbs|] eqn:Hp; cbn [listeners default].
  - now rewrite lookup_insert_eq.
  - now rewrite Hp.
Qed.

Lemma registered_off_ne p q c l :
  p <> q -> registered q (off p c l) = registered q l.
Proof.
  intros Hne. unfold registered, off.
  destruct (listeners l !! p); cbn [listeners]; [|reflexivity].
  now rewrite lookup_insert_ne by exact Hne.
Qed.

Lemma set_delete_absent c (s : list Callback) : c ∉ s -> set_delete c s = s.
Proof.
  intros Hc. unfold set_delete. induction s as [|x s IH]; [reflexivity|].
  apply not_elem_of_cons in Hc as [Hne Hc]. rewrite filter_cons.
  rewrite decide_True by congruence. now rewrite IH.
Qed.

(** X9. Registration is that of a set per pattern: registering a callback
    a second time changes nothing; the function [on] returned removes the
    callback from the pattern and keeps the others in their order, so a
    callback that was new is gone without a trace in the order; and neither
    call touches the callbacks of another pattern. *)
Theorem unsubscribe_removes p c l :
  registered p (on p c (on p c l)) = registered p (on p c l) /\
  registered p (off p c l) = filter (fun x => x <> c) (registered p l) /\
  (c ∉ registered p (off p c l)) /\
  (c ∉ registered p l -> registered p (off p c (on p c l)) = registered p l) /\
  (forall q, p <> q ->
     registered q (on p c l) = registered q l /\
     registered q (off p c l) = registered q l).
Proof.
  split; [|split; [|split; [|split]]].
  - rewrite !ListenerFacts.registered_on. unfold set_add at 1.
    rewrite decide_True; [reflexivity|].
    unfold set_add. destruct (decide (c ∈ registered p l)); [assumption|].
    apply elem_of_app. right. apply list_elem_of_singleton. reflexivity.
  - apply registered_off.
  - rewrite registered_off. unfold set_delete. rewrite list_elem_of_filter.
    intros [Hne _]. now apply Hne.
  - intros Hnew. rewrite registered_off, ListenerFacts.registered_on.
    unfold set_add. rewrite decide_False by exact Hnew.
    unfold set_delete. rewrite filter_app, filter_cons, filter_nil.
    rewrite decide_False by (intros Hne; now apply Hne).
    rewrite app_nil_r. now apply set_delete_absent.
  - intros q Hne. split.
    + now apply ListenerFacts.registered_on_ne.
    + now apply registered_off_ne.
Qed.

End ListenerMoreFacts.

(** * More of the adapter: the table, exceptions, history *)

Module MachineMoreFacts.
Import JS Machine Table.

Section Facts.

Context {W : Type}.

Abbreviation adapter := (@MachineAdapter W).

(** *** The table *)

Lemma defined_lookup (a : adapter) k :
  k ∉ defined_keys ->
  transitions (_defineTransitions a) !! k = transitions a !! k.
Proof.
  intros Hk. unfold defined_keys in Hk.
  repeat (apply not_elem_of_cons in Hk as [? Hk]).
  cbn [_defineTransitions with_transitions transitions].
  rewrite !lookup_insert_ne by congruence. reflexivity.
Qed.

Lemma defined_again (a : adapter) :
  tabled a ->
  transitions (_defineTransitions a) =
    transitions (_defineTransitions (constructor (services a))).
Proof.
  intros [Hempty|Htable]; cbn [_defineTransitions with_transitions transitions] in *.
  - now rewrite Hempty.
  - rewrite Htable. apply map_eq. intros k.
    repeat (rewrite lookup_insert; case_decide; [reflexivity|]).
    reflexivity.
Qed.

Lemma tabled_moved now newState md (a : adapter) :
  tabled a -> tabled (moved now newState md a).
Proof. intros Ha. exact Ha. Qed.

Lemma tabled_transition now action context (a : adapter) (w : W) :
  tabled a -> tabled (snd (fst (transition now action context a w))).
Proof.
  intros Ha. unfold transition. cbn zeta.
  destruct (transitions a !! _) as [handler|]; [|exact Ha].
  destruct (handler (services a) _ w) as [[result|message] w1]; [|exact Ha].
  destruct (nextState result) as [newState|].
  - destruct (negb (String.eqb newState "")).
    + cbn [_transitionTo].
      match goal with |- context [match ?step w1 with _ => _ end] =>
        destruct (step w1) as [[u|message] w2] end;
        cbn [fst snd]; now apply tabled_moved.
    + cbn. exact Ha.
  - cbn. exact Ha.
Qed.

Lemma tabled_initialize now (a : adapter) (w : W) :
  tabled a -> tabled (snd (fst (initialize now a w))).
Proof.
  intros Ha. unfold initialize.
  assert (Hdef : tabled (_defineTransitions a)).
  { right. rewrite (defined_again a Ha). reflexivity. }
  destruct (_subscribeToServices (_defineTransitions a) w) as [[u|message] w1];
    [|exact Hdef].
  cbn [_transitionTo].
  match goal with |- context [match ?step w1 with _ => _ end] =>
    destruct (step w1) as [[u'|message] w2] end;
    cbn [fst snd]; exact Hdef.
Qed.

Lemma reachable_tabled (a : adapter) : reachable a -> tabled a.
Proof.
  induction 1 as [options|now a w _ IH|now action context a w _ IH|now type a _ IH
                 |now newState md a _ IH].
  - now left.
  - now apply tabled_initialize.
  - now apply tabled_transition.
  - unfold subscription.
    destruct (String.eqb type "auth_signin"); [exact IH|].
    destruct (String.eqb type "auth_signout"); exact IH.
  - exact IH.
Qed.

Lemma tabled_lookup (a : adapter) k :
  tabled a -> k ∉ defined_keys -> transitions a !! k = None.
Proof.
  intros [Hempty|Htable] Hk.
  - now rewrite Hempty.
  - rewrite Htable, defined_lookup by exact Hk. reflexivity.
Qed.

(** X10. A reachable adapter acts on the five registered keys only: for
    every other pair of current state and action [transition] fails closed
    and changes nothing. So every action is refused before [initialize]
    (state [idle]), and every action but [signin] in state [initialized]. *)
Theorem transitions_are_the_five now action context (a : adapter) (w : W) :
  reachable a ->
  let refused :=
    transition now action context a w =
      (failure ("No transition from " +:+ currentState a +:+ " on " +:+ action),
       a, w) in
  ((currentState a +:+ ":" +:+ action) ∉ defined_keys -> refused) /\
  (currentState a = "idle" -> refused) /\
  (currentState a = "initialized" -> action <> "signin" -> refused).
Proof.
  intros Hreach refused.
  assert (Hkey : (currentState a +:+ ":" +:+ action) ∉ defined_keys -> refused).
  { intros Hk. subst refused. unfold transition. cbn zeta.
    pose proof (tabled_lookup a _ (reachable_tabled a Hreach) Hk) as Hnone.
    destruct (transitions a !! _) as [handler|]; [discriminate|reflexivity]. }
  split; [exact Hkey|]. split.
  - intros Hidle. apply Hkey. rewrite Hidle. unfold defined_keys. intros Hin.
    repeat (apply elem_of_cons in Hin as [Heq|Hin]; [cbn in Heq; discriminate|]).
    now apply elem_of_nil in Hin.
  - intros Hinit Haction. apply Hkey. rewrite Hinit. unfold defined_keys. intros Hin.
    apply elem_of_cons in Hin as [Heq|Hin].
    + cbn in Heq. injection Heq as Heq. now apply Haction.
    + repeat (apply elem_of_cons in Hin as [Heq|Hin]; [cbn in Heq; discriminate|]).
      now apply elem_of_nil in Hin.
Qed.

(** *** Exceptions *)

(** X11. What a handler throws ends in the answer [{success: false, error}]
    and leaves the adapter as it was. What [emit] throws inside
    [_transitionTo] ends in the same kind of answer, but by then the
    adapter has moved: the state is the next state and the history has the
    entry. *)
Theorem transition_contains_exceptions now action context handler (a : adapter) (w : W) :
  let ctx := default_object context in
  transitions a !! (currentState a +:+ ":" +:+ action) = Some handler ->
  (forall message w1,
     handler (services a) ctx w = (Throw message, w1) ->
     transition now action context a w = (failure message, a, w1)) /\
  (forall result newState message w1 w2,
     handler (services a) ctx w = (Normal result, w1) ->
     nextState result = Some newState ->
     newState <> "" ->
     snd (_transitionTo now newState (ByAction action ctx) a) w1 = (Throw message, w2) ->
     transition now action context a w =
       (failure message, moved now newState (ByAction action ctx) a, w2) /\
     currentState (moved now newState (ByAction action ctx) a) = newState).
Proof.
  intros ctx Hkey. split.
  - intros message w1 Hthrow. unfold transition. cbn zeta.
    destruct (transitions a !! _) as [h|]; [|discriminate].
    injection Hkey as ->. fold ctx. now rewrite Hthrow.
  - intros result newState message w1 w2 Hrun Hnext Hne Hemit.
    split; [|reflexivity]. unfold transition. cbn zeta.
    destruct (transitions a !! _) as [h|]; [|discriminate].
    injection Hkey as ->. fold ctx. rewrite Hrun, Hnext.
    destruct (String.eqb_spec newState ""); [contradiction|]. cbn [negb].
    unfold _transitionTo in Hemit |- *. cbn [snd] in Hemit. rewrite Hemit.
    reflexivity.
Qed.

(** *** Handlers that return data *)

(** [H : key = s +:+ rest] with [key] and [rest] closed strings that no
    prefix [s] reconciles: take [s] apart along the key. *)
Ltac peel s H :=
  repeat (destruct s as [|? s]; cbn in H; try discriminate H; injection H as _ H).

Lemma data_handler_stays (handler : Handler) services ctx (w : W) :
  handler = on_create_token \/ handler = on_add_funds \/ handler = on_purchase_token ->
  forall result w1,
    handler services ctx w = (Normal result, w1) -> nextState result = None.
Proof.
  intros [->|[->| ->]] result w1;
    unfold on_create_token, on_add_funds, on_purchase_token, read.
  - destruct (token services) as [svc|]; [|now intros [= <- _]].
    unfold bind. destruct (createToken svc ctx w) as [[r|m] w']; [|discriminate].
    now intros [= <- _].
  - destruct (wallet services) as [svc|]; [|now intros [= <- _]].
    unfold bind. destruct (prop "amount" ctx) as [amount|]; [|discriminate].
    cbn [ret]. destruct (prop "metadata" ctx) as [metadata|]; [|discriminate].
    cbn [ret]. destruct (addFunds svc amount metadata w) as [[r|m] w']; [|discriminate].
    now intros [= <- _].
  - destruct (wallet services) as [svc|]; [|now intros [= <- _]].
    unfold bind. destruct (prop "tokenData" ctx) as [tokenData|]; [|discriminate].
    cbn [ret]. destruct (purchaseToken svc tokenData w) as [[r|m] w']; [|discriminate].
    now intros [= <- _].
Qed.

(** X12. The actions [create_token], [add_funds] and [purchase_token] never
    move a reachable adapter: whatever the service does, answers or throws,
    the state and the history after [transition] are those before. *)
Theorem data_actions_keep_state now action context (a : adapter) (w : W) :
  reachable a ->
  action ∈ data_actions ->
  snd (fst (transition now action context a w)) = a.
Proof.
  intros Hreach Haction. unfold transition. cbn zeta.
  destruct (transitions a !! (currentState a +:+ ":" +:+ action)) as [handler|] eqn:Hkey;
    [|reflexivity].
  assert (Hdata : handler = on_create_token \/ handler = on_add_funds
                  \/ handler = on_purchase_token).
  { destruct (reachable_tabled a Hreach) as [Hempty|Htable].
    - rewrite Hempty in Hkey. discriminate.
    - rewrite Htable in Hkey.
      cbn [_defineTransitions with_transitions transitions constructor] in Hkey.
      remember (currentState a) as s eqn:Hs. clear Hs.
      unfold data_actions in Haction.
      repeat (apply elem_of_cons in Haction as [->|Haction]);
        [..|now apply elem_of_nil in Haction];
        repeat (rewrite lookup_insert in Hkey;
                match type of Hkey with
                | context [decide (?x = ?y)] => destruct (decide (x = y)) as [Heq|_]
                end;
                [first [injection Hkey as <-; now auto | exfalso; peel s Heq]|]);
        rewrite lookup_empty in Hkey; discriminate. }
  destruct (handler (services a) _ w) as [[result|message] w1] eqn:Hrun; [|reflexivity].
  rewrite (data_handler_stays handler _ _ _ Hdata result w1 Hrun). reflexivity.
Qed.

(** *** [getHistory] *)

(** X13. [getHistory(limit)] returns the end of the state history, in
    order: the last [limit] entries, all of them when there are no more
    than [limit], and all of them for [limit = 0]; for a reachable adapter
    that is never more than 100 entries. *)
Theorem getHistory_recent (limit : nat) (a : adapter) :
  (exists older,
     stateHistory a = older ++ getHistory limit a /\
     (limit <> O ->
      length (getHistory limit a) = Nat.min limit (length (stateHistory a)))) /\
  (limit = O -> getHistory limit a = stateHistory a) /\
  (reachable a -> (length (getHistory limit a) <= 100)%nat).
Proof.
  split; [|split].
  - destruct limit as [|n]; cbn [getHistory].
    + exists []. split; [reflexivity|]. congruence.
    + exists (take (length (stateHistory a) - S n) (stateHistory a)).
      split; [now rewrite take_drop|]. intros _. rewrite length_drop. lia.
  - intros ->. reflexivity.
  - intros Hreach. destruct (MachineFacts.reachable_bounded a Hreach) as [_ Hlen].
    destruct limit as [|n]; cbn [getHistory]; [exact Hlen|].
    rewrite length_drop. lia.
Qed.

End Facts.

(** *** On sample adapters *)

Lemma bare_reachable : reachable bare.
Proof. apply (reach_initialize "t0" _ tt). apply reach_new. Qed.

Lemma shaky_in_reachable : reachable shaky_in.
Proof.
  apply reach_subscription. apply (reach_initialize "t0" _ tt). apply reach_new.
Qed.

Lemma transitions_are_the_five_witness :
  transition "t1" "add_funds" VUndefined bare tt =
    (failure "No transition from initialized on add_funds", bare, tt).
Proof.
  refine (proj2 (proj2 (transitions_are_the_five "t1" "add_funds" VUndefined bare tt
                          bare_reachable)) eq_refl _).
  discriminate.
Defined.

Lemma transition_contains_exceptions_witness :
  transition "t2" "add_funds" VNull shaky_in tt =
    (failure "Cannot read properties of null (reading 'amount')", shaky_in, tt) /\
  transition "t1" "signin" VUndefined shaky tt =
    (failure "listener down",
     moved "t1" "authenticated" (ByAction "signin" (VObj ∅)) shaky, tt).
Proof.
  split.
  - exact (proj1 (transition_contains_exceptions "t2" "add_funds" VNull on_add_funds
                    shaky_in tt eq_refl) _ tt eq_refl).
  - refine (proj1 (proj2 (transition_contains_exceptions "t1" "signin" VUndefined on_signin
                            shaky tt eq_refl)
                     (next_result "authenticated") "authenticated" "listener down" tt tt
                     eq_refl eq_refl _ eq_refl)).
    discriminate.
Defined.

Lemma data_actions_keep_state_witness :
  snd (fst (transition "t2" "add_funds" (VObj (<["amount" := VNum 5]> ∅)) shaky_in tt)) =
    shaky_in.
Proof.
  apply (data_actions_keep_state "t2" "add_funds" _ shaky_in tt shaky_in_reachable).
  refine (bool_decide_unpack _ _). vm_compute. exact I.
Defined.

(** The answer to that [add_funds]: success, the state, and the result of
    the wallet service as data. *)
Example data_action_sample :
  fst (fst (transition "t2" "add_funds" (VObj (<["amount" := VNum 5]> ∅)) shaky_in tt)) =
    {| success := true; state := Some "authenticated";
       result := data_result (VObj (<["success" := VBool true]> ∅)) |}.
Proof. reflexivity. Qed.

End MachineMoreFacts.

(** * Properties of the auth service *)

Module AuthFacts.
Import JS Auth.

Section Facts.

Context (stringify : object -> Completion string).
Context (characters : string -> object).

(** Each listener of a set is called once by [_notifyListeners]. *)
Lemma heard_once event data l (ls : list nat) :
  NoDup ls -> l ∈ ls ->
  heard l (map (fun l => {| notice_listener := l; notice_event := event;
                            notice_data := data |}) ls) =
  [{| notice_listener := l; notice_event := event; notice_data := data |}].
Proof.
  unfold heard. intros Hnodup Hl. induction Hnodup as [|x ls Hx Hls IH];
    [now apply elem_of_nil in Hl|].
  cbn [map]. rewrite filter_cons. cbn [notice_listener].
  destruct (decide (x = l)) as [->|Hne].
  - f_equal. clear IH Hl Hls. induction ls as [|y ls IH]; [reflexivity|].
    apply not_elem_of_cons in Hx as [Hne Hx]. cbn [map]. rewrite filter_cons.
    cbn [notice_listener]. rewrite decide_False by congruence. now apply IH.
  - apply IH. apply elem_of_cons in Hl as [->|Hl]; [contradiction|exact Hl].
Qed.

Lemma heard_app l (ns ns' : list Notice) :
  heard l (ns ++ ns') = heard l ns ++ heard l ns'.
Proof. apply filter_app. Qed.

(** [save] on a service whose write goes through. *)
Lemma save_saves user (a : AuthService) :
  saves stringify user a ->
  exists a1,
    save stringify user a = (Normal tt, a1) /\
    currentUser a1 = currentUser a /\ listeners a1 = listeners a /\
    delivered a1 = delivered a /\ sessionKey a1 = sessionKey a /\
    (storage a = None -> storage a1 = None) /\
    (forall store, storage a = Some store ->
       exists text, stringify user = Normal text /\
         storage a1 = Some {| Storage.items := <[sessionKey a := text]> (Storage.items store);
                              Storage.refuses := Storage.refuses store |}).
Proof.
  unfold saves, save, Storage.takes, Storage.setItem.
  destruct (storage a) as [store|] eqn:Hs.
  - intros (text & -> & ->). eexists. split; [reflexivity|].
    cbn. do 4 (split; [reflexivity|]). split; [discriminate|].
    intros store' Heq. injection Heq as <-. now exists text.
  - intros _. exists a. do 5 (split; [reflexivity|]). split; [now intros _|].
    discriminate.
Qed.

(** [save] on a service whose write does not go through. *)
Lemma save_fails user (a : AuthService) :
  ~ saves stringify user a ->
  exists message, save stringify user a = (Throw message, a).
Proof.
  unfold saves, save, Storage.takes, Storage.setItem.
  destruct (storage a) as [store|] eqn:Hs; [|intros H; now destruct H].
  destruct (stringify user) as [text|message]; [|intros _; now exists message].
  destruct (Storage.refuses store (Storage.items store) (sessionKey a) (Some text))
    as [message|] eqn:Hr.
  - intros _. exists message. destruct a; cbn in *. now subst.
  - intros H. destruct H. now exists text.
Qed.

(** X14. When the storage takes the writes, or the service has none,
    [signIn] of credentials that are not [null] or [undefined] succeeds and
    returns the current user, and the service is authenticated; a [signOut]
    after it succeeds, leaves no current user, removes the session key from
    the storage, and each listener was called with [auth_signin] and then
    [auth_signout], both times with that user. *)
Theorem sign_in_then_out now credentials h (a : AuthService) :
  prop "handle" credentials = Some h ->
  NoDup (listeners a) ->
  let user := new_user characters now h credentials in
  let a1 := snd (signIn stringify characters now credentials a) in
  let a2 := snd (signOut a1) in
  saves stringify user a ->
  clears a1 ->
  fst (signIn stringify characters now credentials a) = User (VObj user) /\
  currentUser a1 = VObj user /\
  isAuthenticated a1 = true /\
  fst (signOut a1) = Done /\
  currentUser a2 = VNull /\
  isAuthenticated a2 = false /\
  session a2 = None /\
  forall l, l ∈ listeners a ->
    heard l (drop (length (delivered a)) (delivered a2)) =
    [{| notice_listener := l; notice_event := "auth_signin"; notice_data := VObj user |};
     {| notice_listener := l; notice_event := "auth_signout"; notice_data := VObj user |}].
Proof.
  intros Hh Hnodup user a1 a2 Hsaves. subst a2 a1. unfold signIn. rewrite Hh.
  cbn zeta. fold user.
  destruct (save_saves user (with_user (VObj user) a) Hsaves)
    as (a1 & -> & Hu & Hl & Hd & Hk & _ & _).
  cbn [fst snd with_user currentUser listeners delivered] in *.
  intros Hclears. unfold signOut, clear, clears in *.
  cbn [_notifyListeners with_user storage sessionKey currentUser] in *.
  unfold session, isAuthenticated.
  destruct (storage a1) as [store|] eqn:Hs.
  - unfold Storage.removeItem, Storage.drops in *. rewrite Hclears.
    cbn. rewrite ?Hu, ?Hl, ?Hd.
    do 6 (split; [reflexivity|]). split; [apply lookup_delete_eq|].
    intros l Hin.
    rewrite <- app_assoc, drop_app_length, heard_app, !heard_once by assumption.
    reflexivity.
  - cbn. rewrite ?Hs, ?Hu, ?Hl, ?Hd. cbn. do 7 (split; [reflexivity|]).
    intros l Hin.
    rewrite <- app_assoc, drop_app_length, heard_app, !heard_once by assumption.
    reflexivity.
Qed.

(** X15. The user of a [signIn] has every property of the credentials
    object as it was given, [handle] and [timestamp] among them: the
    handle is the [username] and the timestamp the time of the call only
    when the credentials have no such key. *)
Theorem credentials_win now credentials h :
  prop "handle" credentials = Some h ->
  let user := new_user characters now h credentials in
  (forall k v, own characters credentials !! k = Some v -> user !! k = Some v) /\
  (own characters credentials !! "handle" = None ->
   user !! "handle" =
     Some (or_else h (default VUndefined (prop "username" credentials)))) /\
  (own characters credentials !! "timestamp" = None ->
   user !! "timestamp" = Some (VStr now)).
Proof.
  intros Hh user. subst user. unfold new_user, spread. split; [|split].
  - intros k v Hk. now apply lookup_union_Some_l.
  - intros Hnone. rewrite lookup_union_r by exact Hnone. apply lookup_insert_eq.
  - intros Hnone. rewrite lookup_union_r by exact Hnone.
    rewrite lookup_insert_ne by discriminate. apply lookup_insert_eq.
Qed.

(** X16. How [signIn] fails. On [null] and [undefined] the answer is
    [{success: false, error}] with the message of the TypeError and the
    service is as before. Every other value becomes the current user
    without any check, and the service is authenticated, whether the
    storage is written or not: [signIn] answers with the user when the
    write goes through, and when [JSON.stringify] or [setItem] throws it
    answers [{success: false, error}] with the user in place, the storage
    as before and no listener called. *)
Theorem sign_in_failures now credentials (a : AuthService) :
  let done := signIn stringify characters now credentials a in
  (credentials = VNull \/ credentials = VUndefined ->
   done = (Failure (type_error "handle" credentials), a)) /\
  (forall h, prop "handle" credentials = Some h ->
   let user := new_user characters now h credentials in
   currentUser (snd done) = VObj user /\
   isAuthenticated (snd done) = true /\
   (saves stringify user a -> fst done = User (VObj user)) /\
   (~ saves stringify user a ->
    exists message,
      done = (Failure message, with_user (VObj user) a))).
Proof.
  intros done. subst done. split.
  - intros [->| ->]; reflexivity.
  - intros h Hh user. unfold signIn. rewrite Hh. cbn zeta. fold user.
    assert (Hcases : saves stringify user a \/ ~ saves stringify user a).
    { unfold saves, Storage.takes. destruct (storage a) as [store|]; [|now left].
      destruct (stringify user) as [text|message].
      - destruct (Storage.refuses store (Storage.items store) (sessionKey a) (Some text))
          as [message|] eqn:Hr.
        + right. intros (text' & Heq & Hr'). injection Heq as <-. congruence.
        + left. now exists text.
      - right. intros (text & Heq & _). discriminate. }
    destruct Hcases as [Hsaves|Hfails].
    + destruct (save_saves user (with_user (VObj user) a) Hsaves)
        as (a1 & -> & Hu & _).
      cbn [fst snd _notifyListeners currentUser]. unfold isAuthenticated.
      cbn [_notifyListeners currentUser]. rewrite Hu. cbn.
      repeat split. intros Hnot. now destruct Hnot.
    + destruct (save_fails user (with_user (VObj user) a) Hfails) as [message ->].
      cbn. repeat split; [now intros Hsaves|]. intros _. now exists message.
Qed.

(** X17. [initialize] restores a stored session as [{handle: text}], with
    the whole stored text as the handle. After a [signIn] that wrote the
    storage the stored text is the serialized user, so a new service on
    that storage comes up with a user whose handle is that serialization,
    not the handle signed in with. *)
Theorem restore_wraps_text now credentials h store text (a : AuthService) :
  prop "handle" credentials = Some h ->
  storage a = Some store ->
  sessionKey a = "pewpi_user" ->
  stringify (new_user characters now h credentials) = Normal text ->
  Storage.takes "pewpi_user" text store ->
  text <> "" ->
  let a1 := snd (signIn stringify characters now credentials a) in
  session a1 = Some text /\
  initialize (constructor (storage a1)) =
    (User (VObj (<["handle" := VStr text]> ∅)),
     with_user (VObj (<["handle" := VStr text]> ∅)) (constructor (storage a1))).
Proof.
  intros Hh Hstore Hkey Htext Htakes Hne a1. subst a1.
  unfold signIn. rewrite Hh. cbn zeta. unfold save.
  cbn [with_user storage sessionKey]. rewrite Hstore, Htext, Hkey.
  unfold Storage.setItem. unfold Storage.takes in Htakes. rewrite Htakes.
  cbn [_notifyListeners with_storage snd storage session]. split.
  - unfold session, Storage.getItem. cbn. rewrite Hkey. apply lookup_insert_eq.
  - unfold initialize, Storage.getItem. cbn [constructor storage sessionKey Storage.items].
    rewrite lookup_insert_eq.
    destruct (String.eqb_spec text ""); [contradiction|reflexivity].
Qed.

End Facts.

(** *** At a desk *)

Lemma sign_in_then_out_witness :
  isAuthenticated (snd (signIn brief no_characters "t1" ada desk)) = true /\
  session (snd (signOut (snd (signIn brief no_characters "t1" ada desk)))) = None.
Proof.
  assert (Hnodup : NoDup (listeners desk))
    by (refine (bool_decide_unpack _ _); vm_compute; exact I).
  assert (Hsaves : saves brief (new_user no_characters "t1" (VStr "ada") ada) desk)
    by (exists "{handle:ada}"; split; reflexivity).
  destruct (sign_in_then_out brief no_characters "t1" ada (VStr "ada") desk
              eq_refl Hnodup Hsaves eq_refl) as (_ & _ & Hin & _ & _ & _ & Hout & _).
  exact (conj Hin Hout).
Defined.

Lemma credentials_win_witness :
  new_user no_characters "t1" (VStr "ada") ada !! "handle" = Some (VStr "ada").
Proof.
  exact (proj1 (credentials_win no_characters "t1" ada (VStr "ada") eq_refl)
           "handle" (VStr "ada") eq_refl).
Defined.

Lemma restore_wraps_text_witness :
  initialize (constructor (storage (snd (signIn brief no_characters "t1" ada desk)))) =
    (User (VObj (<["handle" := VStr "{handle:ada}"]> ∅)),
     with_user (VObj (<["handle" := VStr "{handle:ada}"]> ∅))
       (constructor (storage (snd (signIn brief no_characters "t1" ada desk))))).
Proof.
  refine (proj2 (restore_wraps_text brief no_characters "t1" ada (VStr "ada")
                   (Storage.roomy ∅) "{handle:ada}" desk
                   eq_refl eq_refl eq_refl eq_refl eq_refl _)).
  discriminate.
Defined.

(** On a storage that is full the sign-in is answered with the error of
    [setItem], and the user is signed in all the same. *)
Example sign_in_on_full_storage :
  fst (signIn brief no_characters "t1" ada stuck) = Failure "QuotaExceededError" /\
  isAuthenticated (snd (signIn brief no_characters "t1" ada stuck)) = true /\
  delivered (snd (signIn brief no_characters "t1" ada stuck)) = [].
Proof. repeat split. Qed.

End AuthFacts.

(** * Properties of the token service *)

Module TokenFacts.
Import JS Tokens.

Section Facts.

Context (same_object : object -> object -> bool).
Context (characters : string -> object).
Context (stringify : list value -> Completion string).
Context (parse : string -> Completion Json).

Local Abbreviation same := (same_value_zero same_object).
Local Abbreviation get_ := (Map_get same_object).
Local Abbreviation set_ := (Map_set same_object).

(** *** The map *)

Lemma same_primitive k k' : primitive k -> same k' k = true -> k' = k.
Proof.
  destruct k, k'; cbn; try discriminate; try contradiction; intros _ H.
  - reflexivity.
  - reflexivity.
  - now apply Bool.eqb_prop in H as ->.
  - now apply Z.eqb_eq in H as ->.
  - now apply String.eqb_eq in H as ->.
Qed.

Lemma same_refl k : primitive k -> same k k = true.
Proof.
  destruct k; cbn; try contradiction; intros _.
  - reflexivity.
  - reflexivity.
  - apply Bool.eqb_reflx.
  - apply Z.eqb_refl.
  - apply String.eqb_refl.
Qed.

Lemma get_set_eq k v m : same k k = true -> get_ k (set_ k v m) = Some v.
Proof.
  intros Hk. induction m as [|[k' v'] m IH]; cbn.
  - now rewrite Hk.
  - destruct (same k' k) eqn:Hsame; cbn; now rewrite Hsame.
Qed.

Lemma get_set_found k v m : get_ k m <> None -> get_ k (set_ k v m) = Some v.
Proof.
  induction m as [|[k' v'] m IH]; cbn; [congruence|].
  destruct (same k' k) eqn:Hsame; cbn; rewrite Hsame; [reflexivity|exact IH].
Qed.

Lemma get_set_ne k k' v m :
  primitive k -> same k k' = false -> get_ k' (set_ k v m) = get_ k' m.
Proof.
  intros Hprim Hne. induction m as [|[k'' v''] m IH]; cbn.
  - now rewrite Hne.
  - destruct (same k'' k) eqn:Hsame; cbn.
    + apply (same_primitive _ _ Hprim) in Hsame as ->. now rewrite Hne.
    + now rewrite IH.
Qed.

Lemma get_set_has k k' v m : get_ k' m <> None -> get_ k' (set_ k v m) <> None.
Proof.
  induction m as [|[k'' v''] m IH]; cbn; [congruence|].
  destruct (same k'' k) eqn:Hsame; cbn; destruct (same k'' k'); auto; discriminate.
Qed.

Lemma length_set k v m : (length m <= length (set_ k v m))%nat.
Proof.
  induction m as [|[k' v'] m IH]; cbn; [lia|].
  destruct (same k' k); cbn; lia.
Qed.

Lemma length_set_found k v m :
  get_ k m <> None -> length (set_ k v m) = length m.
Proof.
  induction m as [|[k' v'] m IH]; cbn; [congruence|].
  destruct (same k' k); cbn; [reflexivity|]. intros H. now rewrite IH.
Qed.

Lemma set_fresh k v m :
  Forall (fun entry => same (fst entry) k = false) m -> set_ k v m = m ++ [(k, v)].
Proof.
  induction 1 as [|[k' v'] m Hk _ IH]; cbn in *; [reflexivity|].
  now rewrite Hk, IH.
Qed.

Lemma values_set_In k v m : In v (Map_values (set_ k v m)).
Proof.
  induction m as [|[k' v'] m IH]; cbn; [now left|].
  destruct (same k' k); cbn; [now left|now right].
Qed.

(** *** The methods *)

Lemma persist_cache (t : TokenService) :
  tokenCache (_persistTokens stringify t) = tokenCache t.
Proof.
  unfold _persistTokens. destruct (storage t) as [store|]; [|reflexivity].
  destruct (stringify _) as [text|message]; [|reflexivity].
  now destruct (Storage.setItem "pewpi_tokens" text store) as [[u|message] store'].
Qed.

Lemma stored_cache event id token (t : TokenService) :
  tokenCache (stored same_object stringify event id token t) = set_ id (VObj token) (tokenCache t).
Proof. unfold stored. cbn [_notifyListeners tokenCache]. now rewrite persist_cache. Qed.

(** The storage after a write that goes through, and after one that does
    not. *)
Lemma stored_written event id token store text (t : TokenService) :
  storage t = Some store ->
  stringify (Map_values (set_ id (VObj token) (tokenCache t))) = Normal text ->
  Storage.takes "pewpi_tokens" text store ->
  storage (stored same_object stringify event id token t) =
    Some {| Storage.items := <["pewpi_tokens" := text]> (Storage.items store);
            Storage.refuses := Storage.refuses store |}.
Proof.
  intros Hs Htext Htakes. unfold stored, _persistTokens.
  cbn [_notifyListeners with_cache storage tokenCache]. rewrite Hs, Htext.
  unfold Storage.setItem. unfold Storage.takes in Htakes. now rewrite Htakes.
Qed.

Lemma stored_storage event id token (t : TokenService) :
  storage (stored same_object stringify event id token t) = storage t \/
  exists store text,
    storage t = Some store /\
    stringify (Map_values (set_ id (VObj token) (tokenCache t))) = Normal text /\
    Storage.takes "pewpi_tokens" text store /\
    storage (stored same_object stringify event id token t) =
      Some {| Storage.items := <["pewpi_tokens" := text]> (Storage.items store);
              Storage.refuses := Storage.refuses store |}.
Proof.
  unfold stored, _persistTokens.
  cbn [_notifyListeners with_cache storage tokenCache].
  destruct (storage t) as [store|] eqn:Hs; [|now left].
  destruct (stringify _) as [text|message] eqn:Htext; [|now left].
  unfold Storage.setItem.
  destruct (Storage.refuses store (Storage.items store) "pewpi_tokens" (Some text))
    as [message|] eqn:Hr; [now left|].
  right. exists store, text. repeat split; assumption.
Qed.

Lemma load_has tokens k m :
  get_ k m <> None -> get_ k (snd (load same_object tokens m)) <> None.
Proof.
  revert m. induction tokens as [|token tokens IH]; intros m Hk; cbn; [exact Hk|].
  destruct (prop "id" token); [|exact Hk]. apply IH. now apply get_set_has.
Qed.

Lemma load_length tokens m :
  (length m <= length (snd (load same_object tokens m)))%nat.
Proof.
  revert m. induction tokens as [|token tokens IH]; intros m; cbn; [lia|].
  destruct (prop "id" token) as [k|]; [|cbn; lia].
  etransitivity; [apply (length_set k token)|apply IH].
Qed.

Lemma initialize_cache (t : TokenService) :
  tokenCache (snd (initialize same_object parse t)) = tokenCache t \/
  exists tokens,
    tokenCache (snd (initialize same_object parse t)) =
      snd (load same_object tokens (tokenCache t)).
Proof.
  unfold initialize. destruct (storage t) as [store|]; [|now left].
  destruct (Storage.getItem "pewpi_tokens" store) as [cached|]; [|now left].
  destruct (String.eqb cached ""); [now left|].
  destruct (parse cached) as [[tokens|v]|message]; [|destruct v; now left|now left].
  right. exists tokens. now destruct (load same_object tokens (tokenCache t)) as [[]].
Qed.

Lemma call_cache c (t : TokenService) :
  tokenCache (call same_object characters stringify parse c t) = tokenCache t \/
  (exists id token,
     tokenCache (call same_object characters stringify parse c t) =
       set_ id token (tokenCache t)) \/
  (exists tokens,
     tokenCache (call same_object characters stringify parse c t) =
       snd (load same_object tokens (tokenCache t))).
Proof.
  destruct c as [|st tokenData|tokenId| |tokenId updates|l|l]; cbn [call];
    try (now left).
  - destruct (initialize_cache t) as [H|H]; [now left|now right; right].
  - unfold createToken. destruct (prop "id" tokenData); [|now left].
    right; left. cbn [snd]. rewrite stored_cache. eauto.
  - unfold updateToken.
    destruct (negb (truthy (default VUndefined (get_ tokenId (tokenCache t)))));
      [now left|].
    right; left. cbn [snd]. rewrite stored_cache. eauto.
Qed.

(** After [_persistTokens] the storage is as before, or in step with the
    cache. *)
Lemma stored_outcome event id token (t : TokenService) :
  storage (stored same_object stringify event id token t) = storage t \/
  persisted stringify (stored same_object stringify event id token t).
Proof.
  destruct (stored_storage event id token t)
    as [Hsame|(store & text & Hs & Htext & Htakes & Hnew)]; [now left|].
  right. unfold persisted. rewrite Hnew, stored_cache. exists text.
  split; [exact Htext|]. cbn. apply lookup_insert_eq.
Qed.

(** X18. [createToken] of a token data that is not [null] or [undefined]
    succeeds with the token it built, whether the storage is written or
    not; the token is among the tokens of [getAllTokens], and when the id
    of the token is not an object, [getToken] of that id returns the token.
    When [JSON.stringify] returns and [setItem] takes the text, the storage
    holds the serialization of all tokens under [pewpi_tokens]; otherwise
    the storage is as before. *)
Theorem create_then_get st tokenData (t : TokenService) :
  tokenData <> VNull ->
  tokenData <> VUndefined ->
  let token := new_token characters st tokenData in
  let t1 := snd (createToken same_object characters stringify st tokenData t) in
  fst (createToken same_object characters stringify st tokenData t) = Token (VObj token) /\
  In (VObj token) (Map_values (tokenCache t1)) /\
  (primitive (get "id" token) ->
   fst (getToken same_object (get "id" token) t1) = Token (VObj token)) /\
  (forall store text,
     storage t = Some store ->
     stringify (Map_values (tokenCache t1)) = Normal text ->
     Storage.takes "pewpi_tokens" text store ->
     (storage t1 ≫= Storage.getItem "pewpi_tokens") = Some text) /\
  (storage t1 = storage t \/ persisted stringify t1).
Proof.
  intros Hnull Hundef token t1. subst t1. unfold createToken.
  destruct (prop "id" tokenData) as [i|] eqn:Hid;
    [|destruct tokenData; cbn in Hid; congruence].
  cbn [fst snd]. fold token.
  split; [reflexivity|]. split; [|split; [|split]].
  - rewrite stored_cache. apply values_set_In.
  - intros Hprim. unfold getToken. cbn [fst]. rewrite stored_cache.
    rewrite get_set_eq by now apply same_refl. reflexivity.
  - intros store text Hs Htext Htakes. rewrite stored_cache in Htext.
    rewrite (stored_written _ _ _ store text t Hs Htext Htakes).
    cbn. apply lookup_insert_eq.
  - apply stored_outcome.
Qed.

(** X19. The token of [createToken] has every property of the token data
    as it was given, a falsy one too; [id], [value], [type] and [timestamp]
    get their default (the generated id, 0, the emoji type, the time of the
    call) only when the token data has no such key; and the token has no
    other keys. *)
Theorem token_defaults st (o : object) :
  let token := new_token characters st (VObj o) in
  (forall k v, o !! k = Some v -> token !! k = Some v) /\
  (o !! "id" = None -> token !! "id" = Some (VStr (stamp_id st))) /\
  (o !! "value" = None -> token !! "value" = Some (VNum 0)) /\
  (o !! "type" = None -> token !! "type" = Some (VStr "🧱🍄⭐")) /\
  (o !! "timestamp" = None -> token !! "timestamp" = Some (VStr (stamp_time st))) /\
  (forall k, o !! k = None -> k ∉ ["id"; "value"; "type"; "timestamp"] ->
             token !! k = None).
Proof.
  intros token. subst token. unfold new_token, spread, field, own. cbn [prop].
  split; [|split; [|split; [|split; [|split]]]].
  - intros k v Hk. now apply lookup_union_Some_l.
  - intros Hnone. rewrite lookup_union_r by exact Hnone.
    rewrite lookup_insert_eq. unfold get. now rewrite Hnone.
  - intros Hnone. rewrite lookup_union_r by exact Hnone.
    rewrite lookup_insert_ne by discriminate.
    rewrite lookup_insert_eq. unfold get. now rewrite Hnone.
  - intros Hnone. rewrite lookup_union_r by exact Hnone.
    do 2 rewrite lookup_insert_ne by discriminate.
    rewrite lookup_insert_eq. unfold get. now rewrite Hnone.
  - intros Hnone. rewrite lookup_union_r by exact Hnone.
    do 3 rewrite lookup_insert_ne by discriminate.
    apply lookup_insert_eq.
  - intros k Hnone Hk. rewrite lookup_union_r by exact Hnone.
    rewrite !not_elem_of_cons in Hk. destruct Hk as (H1 & H2 & H3 & H4 & _).
    rewrite !lookup_insert_ne by congruence. apply lookup_empty.
Qed.

(** X20. [updateToken] never adds a token: the number of tokens is as
    before, and for an id that [getToken] answers with [null] the call
    fails with [Token not found] and changes nothing. *)
Theorem update_never_creates tokenId updates (t : TokenService) :
  let t1 := snd (updateToken same_object characters stringify tokenId updates t) in
  length (Map_values (tokenCache t1)) = length (Map_values (tokenCache t)) /\
  (fst (getToken same_object tokenId t) = Token VNull ->
   updateToken same_object characters stringify tokenId updates t =
     (Failure "Token not found", t)).
Proof.
  intros t1. subst t1. unfold updateToken, getToken, Map_values. cbn [fst].
  rewrite !length_map.
  destruct (get_ tokenId (tokenCache t)) as [token|] eqn:Hget; cbn [default from_option id].
  - unfold or_else. destruct (truthy token) eqn:Htruthy; cbn [negb snd].
    + split.
      * rewrite stored_cache. apply length_set_found. congruence.
      * intros H. injection H as ->. discriminate.
    + split; reflexivity.
  - cbn. split; reflexivity.
Qed.

(** X21. [updateToken] of an id that [getToken] finds succeeds with the
    token merged with the updates: a key of the updates has the value of
    the updates, any other key is as in the token. [getToken] of the id
    then returns the merged token, and for an id that is not an object the
    tokens under other ids are as before. When [JSON.stringify] returns and
    [setItem] takes the text, the storage holds the serialization of all
    tokens under [pewpi_tokens]; otherwise the storage is as before. *)
Theorem update_then_get tokenId updates token (t : TokenService) :
  fst (getToken same_object tokenId t) = Token token ->
  token <> VNull ->
  let merged := spread (own characters token) (own characters updates) in
  let t1 := snd (updateToken same_object characters stringify tokenId updates t) in
  fst (updateToken same_object characters stringify tokenId updates t) =
    Token (VObj merged) /\
  (forall k v, own characters updates !! k = Some v -> merged !! k = Some v) /\
  (forall k, own characters updates !! k = None ->
             merged !! k = own characters token !! k) /\
  fst (getToken same_object tokenId t1) = Token (VObj merged) /\
  (primitive tokenId ->
   forall other, same tokenId other = false ->
     fst (getToken same_object other t1) = fst (getToken same_object other t)) /\
  (forall store text,
     storage t = Some store ->
     stringify (Map_values (tokenCache t1)) = Normal text ->
     Storage.takes "pewpi_tokens" text store ->
     (storage t1 ≫= Storage.getItem "pewpi_tokens") = Some text) /\
  (storage t1 = storage t \/ persisted stringify t1).
Proof.
  intros Hget Hnull merged t1. subst t1.
  unfold getToken in Hget. cbn [fst] in Hget. unfold updateToken.
  destruct (get_ tokenId (tokenCache t)) as [found|] eqn:Hfound;
    [|cbn in Hget; congruence].
  cbn [default from_option id] in *. unfold or_else in Hget.
  destruct (truthy found) eqn:Htruthy; [|congruence].
  injection Hget as ->. cbn [negb fst snd]. fold merged.
  split; [reflexivity|]. split; [|split; [|split; [|split; [|split]]]].
  - intros k v Hk. now apply lookup_union_Some_l.
  - intros k Hk. now apply lookup_union_r.
  - unfold getToken. cbn [fst]. rewrite stored_cache.
    rewrite get_set_found by congruence. reflexivity.
  - intros Hprim other Hother. unfold getToken. cbn [fst].
    rewrite stored_cache. now rewrite get_set_ne.
  - intros store text Hs Htext Htakes. rewrite stored_cache in Htext.
    rewrite (stored_written _ _ _ store text t Hs Htext Htakes).
    cbn. apply lookup_insert_eq.
  - apply stored_outcome.
Qed.

(** X22. No method removes a token: over any sequence of calls the number
    of tokens does not go down, and an id the cache has it keeps. *)
Theorem tokens_never_removed calls (t : TokenService) :
  let t1 := run same_object characters stringify parse calls t in
  (length (Map_values (tokenCache t)) <= length (Map_values (tokenCache t1)))%nat /\
  forall id, has same_object id t -> has same_object id t1.
Proof.
  intros t1. subst t1. revert t. induction calls as [|c calls IH]; intros t;
    cbn [run]; [split; [lia|auto]|].
  destruct (IH (call same_object characters stringify parse c t)) as [Hlen Hhas].
  unfold Map_values, has in *. rewrite !length_map in *.
  destruct (call_cache c t) as [Hc|[(id & token & Hc)|(tokens & Hc)]];
    rewrite Hc in *.
  - split; [exact Hlen|exact Hhas].
  - split.
    + etransitivity; [apply (length_set id token)|exact Hlen].
    + intros k Hk. apply Hhas. now apply get_set_has.
  - split.
    + etransitivity; [apply (load_length tokens)|exact Hlen].
    + intros k Hk. apply Hhas. now apply load_has.
Qed.

(** *** Reloading *)

Lemma load_entries m acc :
  keyed m -> distinct same_object (acc ++ m) ->
  load same_object (Map_values m) acc = (Normal tt, acc ++ m).
Proof.
  unfold Map_values. revert acc.
  induction m as [|[k v] m IH]; intros acc Hkeyed Hdistinct; cbn [map snd load].
  - now rewrite app_nil_r.
  - apply Forall_cons in Hkeyed as [Hk Hkeyed]. cbn in Hk. rewrite Hk.
    rewrite set_fresh.
    + rewrite (IH (acc ++ [(k, v)]) Hkeyed); rewrite <- app_assoc; [reflexivity|].
      exact Hdistinct.
    + clear -Hdistinct. induction acc as [|[k' v'] acc IH]; [constructor|].
      cbn in Hdistinct. destruct Hdistinct as [Hhead Hrest].
      constructor; [|now apply IH].
      apply Forall_app in Hhead as [_ Hhead].
      apply Forall_cons in Hhead as [Hhead _]. exact Hhead.
Qed.

Lemma distinct_set k v m :
  distinct same_object m -> distinct same_object (set_ k v m).
Proof.
  induction m as [|[k' v'] m IH]; cbn; [intros _; split; [constructor|exact I]|].
  intros [Hhead Hrest]. destruct (same k' k) eqn:Hsame; cbn.
  - split; assumption.
  - split; [|now apply IH]. clear IH Hrest.
    induction m as [|[k'' v''] m IH]; cbn.
    + constructor; [exact Hsame|constructor].
    + apply Forall_cons in Hhead as [Hh Hhead].
      destruct (same k'' k); constructor; auto.
Qed.

Lemma keyed_set k v m :
  prop "id" v = Some k -> keyed m ->
  (forall k', same k' k = true -> k' = k) ->
  keyed (set_ k v m).
Proof.
  intros Hv Hm Hsame. induction Hm as [|[k' v'] m Hhead Hm IH]; cbn.
  - constructor; [exact Hv|constructor].
  - destruct (same k' k) eqn:Hk.
    + apply Hsame in Hk as ->. constructor; [exact Hv|exact Hm].
    + constructor; [exact Hhead|exact IH].
Qed.

(** A service with its storage in step with its cache, every token under
    its own id and no key twice, is restored from its storage. *)
Lemma reload_in_step store text (t : TokenService) :
  storage t = Some store ->
  persisted stringify t ->
  keyed (tokenCache t) ->
  distinct same_object (tokenCache t) ->
  stringify (Map_values (tokenCache t)) = Normal text ->
  text <> "" ->
  parse text = Normal (Items (Map_values (tokenCache t))) ->
  initialize same_object parse (constructor (storage t)) =
    (Done, with_cache (tokenCache t) (constructor (storage t))).
Proof.
  intros Hstore Hpersisted Hkeyed Hdistinct Htext Hne Hparse.
  unfold persisted in Hpersisted. rewrite Hstore in *.
  destruct Hpersisted as (text' & Htext' & Hget).
  rewrite Htext in Htext'. injection Htext' as <-.
  unfold initialize. cbn [constructor storage tokenCache]. rewrite Hget.
  destruct (String.eqb_spec text ""); [contradiction|].
  rewrite Hparse, (load_entries _ [] Hkeyed Hdistinct). reflexivity.
Qed.

Lemma created_keyed st tokenData (t : TokenService) :
  primitive (get "id" (new_token characters st tokenData)) ->
  keyed (tokenCache t) ->
  keyed (tokenCache (snd (createToken same_object characters stringify st tokenData t))).
Proof.
  intros Hprim Hkeyed. unfold createToken.
  destruct (prop "id" tokenData); [|exact Hkeyed].
  cbn [snd]. rewrite stored_cache. apply keyed_set; [reflexivity|exact Hkeyed|].
  intros k'. now apply same_primitive.
Qed.

Lemma created_distinct st tokenData (t : TokenService) :
  distinct same_object (tokenCache t) ->
  distinct same_object
    (tokenCache (snd (createToken same_object characters stringify st tokenData t))).
Proof.
  intros Hdistinct. unfold createToken.
  destruct (prop "id" tokenData); [|exact Hdistinct].
  cbn [snd]. rewrite stored_cache. now apply distinct_set.
Qed.

Lemma creating_in_step c (t : TokenService) :
  serializable stringify ->
  creating characters c -> in_step same_object stringify t ->
  in_step same_object stringify (call same_object characters stringify parse c t).
Proof.
  intros Hser Hc (Hkeyed & Hdistinct & store & Hstore & Hroom & Hstep).
  destruct c as [|st tokenData|tokenId| |tokenId updates|l|l]; cbn [call creating] in *;
    try contradiction;
    try (split; [exact Hkeyed|split; [exact Hdistinct|
           exists store; split; [exact Hstore|split; [exact Hroom|exact Hstep]]]]).
  split; [now apply created_keyed|]. split; [now apply created_distinct|].
  unfold createToken. destruct (prop "id" tokenData); cbn [snd].
  - set (id := get "id" (new_token characters st tokenData)).
    set (token := new_token characters st tokenData).
    destruct (Hser (Map_values (set_ id (VObj token) (tokenCache t)))) as [text Htext].
    pose proof (stored_written "token_created" id token store text t Hstore Htext
                  (Hroom _ _ _)) as Hnew.
    eexists. split; [exact Hnew|]. split; [exact Hroom|]. left.
    unfold persisted. rewrite Hnew, stored_cache. exists text.
    split; [exact Htext|]. cbn. apply lookup_insert_eq.
  - exists store. split; [exact Hstore|split; [exact Hroom|exact Hstep]].
Qed.

Lemma run_in_step calls (t : TokenService) :
  serializable stringify ->
  Forall (creating characters) calls -> in_step same_object stringify t ->
  in_step same_object stringify (run same_object characters stringify parse calls t).
Proof.
  intros Hser Hcalls. revert t. induction Hcalls as [|c calls Hc _ IH]; intros t Ht;
    cbn [run]; [exact Ht|].
  apply IH. now apply creating_in_step.
Qed.

(** X23. Tokens survive a reload, on a storage that takes every write.
    Take a new service on such a storage without tokens, a [JSON.stringify]
    that returns on every array of tokens, and any sequence of calls that
    create tokens with ids that are not objects, read, or subscribe. When
    [JSON.parse] gives back the tokens that [JSON.stringify] wrote,
    [initialize] on a new service with the storage the calls left succeeds,
    and that service has the same tokens under the same ids, in the same
    order. *)
Theorem tokens_survive_reload calls store text :
  Storage.getItem "pewpi_tokens" store = None ->
  unlimited store ->
  serializable stringify ->
  Forall (creating characters) calls ->
  let t := run same_object characters stringify parse calls (constructor (Some store)) in
  stringify (Map_values (tokenCache t)) = Normal text ->
  text <> "" ->
  parse text = Normal (Items (Map_values (tokenCache t))) ->
  initialize same_object parse (constructor (storage t)) =
    (Done, with_cache (tokenCache t) (constructor (storage t))).
Proof.
  intros Hnone Hroom Hser Hcalls t Htext Hne Hparse.
  assert (Hstep : in_step same_object stringify t).
  { apply run_in_step; [exact Hser|exact Hcalls|].
    split; [constructor|]. split; [exact I|].
    exists store. split; [reflexivity|]. split; [exact Hroom|]. right. now split. }
  destruct Hstep
    as (Hkeyed & Hdistinct & store' & Hstore & _ & [Hpersisted|[Hkey Hempty]]).
  - now apply (reload_in_step store' text).
  - rewrite Hstore, Hempty. unfold initialize. cbn [constructor storage].
    now rewrite Hkey.
Qed.

(** On a storage that is full the token is created and cached all the
    same, and the storage stays empty: the failing write is only logged. *)
Lemma created_on_full_storage st tokenData :
  tokenData <> VNull -> tokenData <> VUndefined ->
  let t := constructor (Some (Storage.crammed ∅)) in
  let t1 := snd (createToken same_object characters stringify st tokenData t) in
  fst (createToken same_object characters stringify st tokenData t) =
    Token (VObj (new_token characters st tokenData)) /\
  storage t1 = storage t.
Proof.
  intros Hnull Hundef t t1. subst t1 t. unfold createToken.
  destruct (prop "id" tokenData) as [i|] eqn:Hid;
    [|destruct tokenData; cbn in Hid; congruence].
  split; [reflexivity|]. cbn [snd]. unfold stored, _persistTokens. cbn.
  now destruct (stringify _).
Qed.

End Facts.

(** *** At the vault *)

Lemma create_then_get_witness :
  fst (getToken apart (VStr "coin") vault1) = Token coin.
Proof.
  refine (proj1 (proj2 (proj2
    (create_then_get apart (fun _ => ∅) coin_text mint_stamp coin_data vault _ _))) I);
    discriminate.
Defined.

Lemma update_then_get_witness :
  let updates := VObj (<["value" := VNum 9]> ∅) in
  let t1 := snd (updateToken apart (fun _ => ∅) coin_text (VStr "coin") updates vault1) in
  exists merged,
    fst (getToken apart (VStr "coin") t1) = Token (VObj merged) /\
    merged !! "value" = Some (VNum 9).
Proof.
  intros updates t1.
  destruct (update_then_get apart (fun _ => ∅) coin_text (VStr "coin") updates coin vault1)
    as (_ & Hnew & _ & Hget & _); [reflexivity|discriminate|].
  eexists. split; [exact Hget|]. now apply Hnew.
Defined.

Lemma tokens_survive_reload_witness :
  initialize apart coin_parse (constructor (storage vault1)) =
    (Done, with_cache (tokenCache vault1) (constructor (storage vault1))).
Proof.
  refine (tokens_survive_reload apart (fun _ => ∅) coin_text coin_parse
            [CreateToken mint_stamp coin_data] (Storage.roomy ∅) "[coin]"
            eq_refl _ _ _ eq_refl _ eq_refl).
  - intros items key write. reflexivity.
  - intros tokens. exists "[coin]". reflexivity.
  - repeat constructor.
  - discriminate.
Defined.

End TokenFacts.

(** * Properties of the wired services *)

Module WiringFacts.
Import JS Wiring.

Lemma get_set k v (o : object) : get k (<[k := v]> o) = v.
Proof. unfold get. now rewrite lookup_insert_eq. Qed.

Lemma get_set_other k k' v (o : object) : k <> k' -> get k' (<[k := v]> o) = get k' o.
Proof. intros Hne. unfold get. now rewrite lookup_insert_ne. Qed.

Section Shop.

Context (lt_string : Z -> string -> bool).
Context (same_object : object -> object -> bool).
Context (characters : string -> object).
Context (stringify : list value -> Completion string).
Context (stamps : nat -> Stamp).

Local Abbreviation shop := (issuing same_object characters stringify stamps).


End Shop.

Section Door.

Context (stringify : object -> Completion string).
Context (characters : string -> object).
Context (clock : nat -> string).

Local Abbreviation door := (authService stringify characters clock).

(** [_transitionTo] on an adapter without an integration listener. *)
Lemma alone_transitionTo now newState metadata (a : @Machine.MachineAdapter Front) :
  Machine.integration (Machine.services a) = None ->
  Machine._transitionTo now newState metadata a =
    (Machine.moved now newState metadata a, Machine.ret tt).
Proof. intros Hnone. unfold Machine._transitionTo. now rewrite Hnone. Qed.

(** X25. On the auth service of this library, with nothing subscribed to
    it and no integration listener on the adapter, the [signin] action of
    an initialized adapter succeeds for every context but [null], the
    omitted one too, when the storage of the auth service takes the write:
    the adapter moves to [authenticated] with the history entry of the
    move, and the auth service has the user built from the context as its
    current user. *)
Theorem adapter_signs_in now context (a : @Machine.MachineAdapter Front) (w : Front) :
  Machine.currentState a = "initialized" ->
  Machine.transitions a !! "initialized:signin" = Some Machine.on_signin ->
  Machine.auth (Machine.services a) = Some door ->
  Machine.integration (Machine.services a) = None ->
  Auth.listeners (desk w) = [] ->
  context <> VNull ->
  let ctx := Machine.default_object context in
  let user :=
    Auth.new_user characters (clock (ticks w))
      (default VUndefined (prop "handle" ctx)) ctx in
  Auth.saves stringify user (desk w) ->
  let done := Machine.transition now "signin" context a w in
  fst (fst done) =
    {| Machine.success := true; Machine.state := Some "authenticated";
       Machine.result := Machine.next_result "authenticated" |} /\
  snd (fst done) = Machine.moved now "authenticated" (Machine.ByAction "signin" ctx) a /\
  Machine.currentState (snd (fst done)) = "authenticated" /\
  Auth.currentUser (desk (snd done)) = VObj user /\
  Auth.isAuthenticated (desk (snd done)) = true.
Proof.
  intros Hstate Hkey Hauth Halone Hquiet Hnull ctx user Hsaves done. subst done.
  unfold Machine.transition. cbn zeta. rewrite Hstate.
  change (Machine.transitions a !! _) with (Machine.transitions a !! "initialized:signin").
  rewrite Hkey. fold ctx. unfold Machine.on_signin. rewrite Hauth.
  assert (Hh : exists h, prop "handle" ctx = Some h).
  { subst ctx. destruct context; try congruence; eexists; reflexivity. }
  destruct Hh as [h Hh]. subst user. rewrite Hh in *. cbn [default from_option id] in *.
  destruct (AuthFacts.save_saves stringify _
              (Auth.with_user
                 (VObj (Auth.new_user characters (clock (ticks w)) h ctx)) (desk w))
              Hsaves)
    as (a1 & Hsave & Hu & _).
  unfold Machine.next_or_error, Machine.read, Machine.bind, Machine.ret.
  cbn [Machine.signIn authService].
  unfold Auth.signIn. rewrite Hh. cbn zeta. rewrite Hsave.
  cbn [auth_answer prop]. rewrite get_set.
  cbn [default from_option id truthy Machine.nextState Machine.next_result negb String.eqb
       Ascii.eqb Bool.eqb].
  rewrite alone_transitionTo by exact Halone.
  cbn [fst snd Machine.ret Machine.moved Machine.currentState desk].
  do 3 (split; [reflexivity|]).
  unfold Auth.isAuthenticated. cbn [Auth._notifyListeners Auth.currentUser].
  rewrite Hu. split; reflexivity.
Qed.

(** X26. [signin] with the context [null] is answered [success: true]:
    the auth service fails on the TypeError and the handler hands its
    message on as [error], the adapter stays [initialized] and nobody is
    signed in. *)
Theorem adapter_signin_null now (a : @Machine.MachineAdapter Front) (w : Front) :
  Machine.currentState a = "initialized" ->
  Machine.transitions a !! "initialized:signin" = Some Machine.on_signin ->
  Machine.auth (Machine.services a) = Some door ->
  let done := Machine.transition now "signin" VNull a w in
  fst (fst done) =
    {| Machine.success := true; Machine.state := Some "initialized";
       Machine.result :=
         Machine.error_result (VStr (type_error "handle" VNull)) |} /\
  snd (fst done) = a /\
  desk (snd done) = desk w.
Proof.
  intros Hstate Hkey Hauth done. subst done.
  unfold Machine.transition. cbn zeta. rewrite Hstate.
  change (Machine.transitions a !! _) with (Machine.transitions a !! "initialized:signin").
  rewrite Hkey. unfold Machine.on_signin. rewrite Hauth.
  cbn. rewrite get_set. cbn. rewrite get_set_other by discriminate.
  rewrite get_set. cbn. rewrite Hstate. repeat split.
Qed.

(** X27. On the auth service of this library, with nothing subscribed to
    it and no integration listener on the adapter, the [signout] action of
    an authenticated adapter succeeds whatever the context, when the
    storage of the auth service takes the write: the adapter moves to
    [initialized] with the history entry of the move, the auth service has
    no current user, and the session key is gone from its storage. *)
Theorem adapter_signs_out now context (a : @Machine.MachineAdapter Front) (w : Front) :
  Machine.currentState a = "authenticated" ->
  Machine.transitions a !! "authenticated:signout" = Some Machine.on_signout ->
  Machine.auth (Machine.services a) = Some door ->
  Machine.integration (Machine.services a) = None ->
  Auth.listeners (desk w) = [] ->
  Auth.clears (desk w) ->
  let ctx := Machine.default_object context in
  let done := Machine.transition now "signout" context a w in
  fst (fst done) =
    {| Machine.success := true; Machine.state := Some "initialized";
       Machine.result := Machine.next_result "initialized" |} /\
  snd (fst done) = Machine.moved now "initialized" (Machine.ByAction "signout" ctx) a /\
  Machine.currentState (snd (fst done)) = "initialized" /\
  Auth.currentUser (desk (snd done)) = VNull /\
  Auth.isAuthenticated (desk (snd done)) = false /\
  Auth.session (desk (snd done)) = None.
Proof.
  intros Hstate Hkey Hauth Halone Hquiet Hclears ctx done. subst done.
  unfold Machine.transition. cbn zeta. rewrite Hstate.
  change (Machine.transitions a !! _) with (Machine.transitions a !! "authenticated:signout").
  rewrite Hkey. fold ctx. unfold Machine.on_signout. rewrite Hauth.
  unfold Machine.next_or_error, Machine.read, Machine.bind, Machine.ret.
  cbn [Machine.signOut authService].
  unfold Auth.signOut, Auth.clear, Auth.clears in *. cbn zeta.
  cbn [Auth.with_user Auth.storage Auth.sessionKey].
  unfold Auth.session, Auth.isAuthenticated.
  destruct (Auth.storage (desk w)) as [store|] eqn:Hs.
  - unfold Storage.removeItem. unfold Storage.drops in Hclears. rewrite Hclears.
    cbn [auth_answer prop]. rewrite get_set.
    cbn [default from_option id truthy Machine.nextState Machine.next_result negb
         String.eqb Ascii.eqb Bool.eqb].
    rewrite alone_transitionTo by exact Halone.
    cbn. do 5 (split; [reflexivity|]). apply lookup_delete_eq.
  - cbn [auth_answer prop]. rewrite get_set.
    cbn [default from_option id truthy Machine.nextState Machine.next_result negb
         String.eqb Ascii.eqb Bool.eqb].
    rewrite alone_transitionTo by exact Halone.
    cbn. rewrite Hs. repeat split.
Qed.

End Door.

(** *** At the till and in the lobby *)


Lemma adapter_signs_in_witness :
  Machine.currentState
    (snd (fst (Machine.transition "t1" "signin" VUndefined lobby closed))) =
    "authenticated" /\
  Auth.isAuthenticated
    (desk (snd (Machine.transition "t1" "signin" VUndefined lobby closed))) = true.
Proof.
  assert (Hsaves : Auth.saves Auth.brief
            (Auth.new_user Auth.no_characters "t1" VUndefined (VObj ∅)) (desk closed))
    by (exists "{}"; split; reflexivity).
  destruct (adapter_signs_in Auth.brief Auth.no_characters (fun _ => "t1")
              "t1" VUndefined lobby closed eq_refl eq_refl eq_refl eq_refl eq_refl)
    as (_ & _ & Hstate & _ & Hin); [discriminate|exact Hsaves|].
  exact (conj Hstate Hin).
Defined.

Lemma adapter_signin_null_witness :
  Machine.success
    (fst (fst (Machine.transition "t1" "signin" VNull lobby closed))) = true /\
  desk (snd (Machine.transition "t1" "signin" VNull lobby closed)) = desk closed.
Proof.
  destruct (adapter_signin_null Auth.brief Auth.no_characters (fun _ => "t1")
              "t1" lobby closed eq_refl eq_refl eq_refl) as (Hr & _ & Hw).
  split; [now rewrite Hr|exact Hw].
Defined.

Lemma adapter_signs_out_witness :
  let signed := Machine.transition "t1" "signin" VUndefined lobby closed in
  Auth.isAuthenticated
    (desk (snd (Machine.transition "t2" "signout" VUndefined
                  (snd (fst signed)) (snd signed)))) = false.
Proof.
  intros signed.
  exact (proj1 (proj2 (proj2 (proj2 (proj2
    (adapter_signs_out Auth.brief Auth.no_characters (fun _ => "t1")
       "t2" VUndefined (snd (fst signed)) (snd signed)
       eq_refl eq_refl eq_refl eq_refl eq_refl eq_refl)))))).
Defined.

End WiringFacts.

(** * Properties of the wallet in doubles *)

Module Wallet64Facts.
Import Binary64 Wallet64 Ledger64.

Section Facts.

Context (number_of_string : string -> float).
Context (stringify : Snapshot -> Completion string).
Context (parse : string -> Completion (option Data)).
Context {T : Type} `{!TokenApi T}.

Abbreviation wallet64 := (@WalletUnified T).

(** *** What [_persist] and [_notifyListeners] leave alone *)

Lemma persist_fields (w : wallet64) :
  balance (_persist stringify w) = balance w /\
  transactions (_persist stringify w) = transactions w /\
  tokenService (_persist stringify w) = tokenService w /\
  listeners (_persist stringify w) = listeners w /\
  delivered (_persist stringify w) = delivered w.
Proof.
  unfold _persist. destruct (storage w) as [store|]; [|repeat split].
  destruct (stringify _) as [text|message]; [|repeat split].
  destruct (Storage.setItem "pewpi_wallet" text store) as [[u|message] store'];
    repeat split.
Qed.

Lemma settled_balance64 event b tx (w : wallet64) :
  balance (settled stringify event b tx w) = b.
Proof.
  unfold settled. cbn [_notifyListeners balance].
  now rewrite (proj1 (persist_fields _)).
Qed.

Lemma settled_transactions64 event b tx (w : wallet64) :
  transactions (settled stringify event b tx w) = transactions w ++ [tx].
Proof.
  unfold settled. cbn [_notifyListeners transactions].
  now rewrite (proj1 (proj2 (persist_fields _))).
Qed.

Lemma settled_tokenService64 event b tx (w : wallet64) :
  tokenService (settled stringify event b tx w) = tokenService w.
Proof.
  unfold settled. cbn [_notifyListeners tokenService].
  now rewrite (proj1 (proj2 (proj2 (persist_fields _)))).
Qed.

(** *** [addFunds] and [deductFunds], case by case *)

Lemma addFunds_ok64 st a metadata (w : wallet64) :
  PrimFloat.leb a 0 = false ->
  addFunds stringify st (VNum a) metadata w =
    (Funds (PrimFloat.add (balance w) a) (new_transaction st "credit" a metadata),
     settled stringify "funds_added" (PrimFloat.add (balance w) a)
       (new_transaction st "credit" a metadata) w).
Proof.
  intros Ha. unfold addFunds. rewrite Ha. cbn zeta. now rewrite settled_balance64.
Qed.

Lemma deductFunds_ok64 st a metadata (w : wallet64) :
  PrimFloat.leb a 0 = false -> PrimFloat.ltb (balance w) a = false ->
  deductFunds stringify st (VNum a) metadata w =
    (Funds (PrimFloat.sub (balance w) a) (new_transaction st "debit" a metadata),
     settled stringify "funds_deducted" (PrimFloat.sub (balance w) a)
       (new_transaction st "debit" a metadata) w).
Proof.
  intros Ha Hb. unfold deductFunds. rewrite Ha, Hb. cbn zeta.
  now rewrite settled_balance64.
Qed.

Lemma addFunds_cases64 st amount metadata (w : wallet64) :
  (exists a, amount = VNum a /\ PrimFloat.leb a 0 = false) \/
  addFunds stringify st amount metadata w = (Failure "Invalid amount", w).
Proof.
  unfold addFunds. destruct amount as [| |b|a|s|o]; try (now right).
  destruct (PrimFloat.leb a 0) eqn:Ha; [now right|]. left. now exists a.
Qed.

Lemma deductFunds_cases64 st amount metadata (w : wallet64) :
  (exists a, amount = VNum a /\ PrimFloat.leb a 0 = false /\
             PrimFloat.ltb (balance w) a = false) \/
  (exists e, deductFunds stringify st amount metadata w = (Failure e, w)).
Proof.
  unfold deductFunds.
  destruct amount as [| |b|a|s|o]; try (right; eexists; reflexivity).
  destruct (PrimFloat.leb a 0) eqn:Ha; [right; eexists; reflexivity|].
  destruct (PrimFloat.ltb (balance w) a) eqn:Hb; [right; eexists; reflexivity|].
  left. now exists a.
Qed.

Lemma deductFunds_success64 st amount metadata (w : wallet64) :
  success (fst (deductFunds stringify st amount metadata w)) = true ->
  exists a, amount = VNum a /\ PrimFloat.leb a 0 = false /\
            PrimFloat.ltb (balance w) a = false.
Proof.
  intros Hok. destruct (deductFunds_cases64 st amount metadata w) as [Ha|[e He]];
    [exact Ha|]. rewrite He in Hok. discriminate.
Qed.

(** *** What [purchaseToken] leaves *)

Lemma purchaseToken_effect64 st st' tokenData (w : wallet64) :
  snd (purchaseToken number_of_string stringify st st' tokenData w) = w \/
  exists a svc,
    PrimFloat.leb a 0 = false /\ PrimFloat.ltb (balance w) a = false /\
    (snd (purchaseToken number_of_string stringify st st' tokenData w) =
       debited stringify st a tokenData svc w \/
     snd (purchaseToken number_of_string stringify st st' tokenData w) =
       settled stringify "funds_added"
         (PrimFloat.add (PrimFloat.sub (balance w) a) a)
         (new_transaction st' "credit" a rollback_metadata)
         (debited stringify st a tokenData svc w)).
Proof.
  unfold purchaseToken.
  destruct (tokenService w) as [svc|]; [|now left].
  destruct (purchase_amount tokenData) as [amount|]; [|now left].
  destruct (balance_lt number_of_string (balance w) amount); [now left|].
  destruct (deductFunds_cases64 st amount (purchase_metadata tokenData) w)
    as [(a & -> & Ha & Hb)|[e He]]; [|rewrite He; now left].
  rewrite deductFunds_ok64 by assumption. cbn [success negb].
  destruct (createToken tokenData svc) as [completion svc'].
  right. exists a, svc'. split; [exact Ha|]. split; [exact Hb|].
  destruct completion as [tokenResult|message]; [|now left].
  destruct (prop "success" tokenResult) as [ok|]; [|now left].
  destruct (truthy ok); cbn [negb]; [now left|].
  right. rewrite addFunds_ok64 by exact Ha. cbn [snd].
  unfold debited. cbn [with_tokenService balance].
  now rewrite settled_balance64.
Qed.

(** *** The transactions of a plain call, replayed *)

Lemma new_transaction_type64 st type a metadata :
  metadata !! "type" = None ->
  has_type type (new_transaction st type a metadata) = true /\
  forall other, other <> type ->
    has_type other (new_transaction st type a metadata) = false.
Proof.
  intros Hmd. unfold has_type, new_transaction, spread.
  rewrite lookup_union_r by exact Hmd.
  rewrite lookup_insert_ne by discriminate. rewrite lookup_insert_eq.
  split; [apply String.eqb_refl|].
  intros other Hne. apply String.eqb_neq. congruence.
Qed.

Lemma new_transaction_amount64 st type a metadata :
  metadata !! "amount" = None ->
  amount_of (new_transaction st type a metadata) = Some a.
Proof.
  intros Hmd. unfold amount_of, new_transaction, spread.
  rewrite lookup_union_r by exact Hmd.
  do 2 rewrite lookup_insert_ne by discriminate. now rewrite lookup_insert_eq.
Qed.

Lemma apply_credit st a metadata b :
  plain metadata ->
  apply b (new_transaction st "credit" a metadata) = PrimFloat.add b a.
Proof.
  intros [Htype Hamount]. unfold apply.
  rewrite new_transaction_amount64 by exact Hamount.
  now rewrite (proj1 (new_transaction_type64 st "credit" a metadata Htype)).
Qed.

Lemma apply_debit st a metadata b :
  plain metadata ->
  apply b (new_transaction st "debit" a metadata) = PrimFloat.sub b a.
Proof.
  intros [Htype Hamount]. unfold apply.
  rewrite new_transaction_amount64 by exact Hamount.
  destruct (new_transaction_type64 st "debit" a metadata Htype) as [Hdebit Hother].
  rewrite Hdebit, (Hother "credit") by discriminate. reflexivity.
Qed.

Lemma purchase_metadata_plain64 tokenData : plain (purchase_metadata tokenData).
Proof. split; reflexivity. Qed.

Lemma rollback_metadata_plain64 : plain rollback_metadata.
Proof. split; reflexivity. Qed.

(** What one call does to the transactions and, if it is plain, to the
    balance. *)
Lemma call_effect64 c (w : wallet64) :
  working c ->
  exists new,
    transactions (snd (call number_of_string stringify parse c w)) =
      transactions w ++ new /\
    (plain_call c ->
     balance (snd (call number_of_string stringify parse c w)) =
       replay (balance w) new).
Proof.
  intros Hc.
  destruct c as [|st amount md|st amount md|st st' td| |limit|l|l]; cbn [call];
    try contradiction;
    try (exists []; rewrite app_nil_r; split; [reflexivity|intros _; reflexivity]).
  - destruct (addFunds_cases64 st amount md w) as [(a & -> & Ha)|He].
    + rewrite addFunds_ok64 by exact Ha. cbn [snd].
      exists [new_transaction st "credit" a md].
      rewrite settled_balance64, settled_transactions64. split; [reflexivity|].
      intros Hplain. cbn. now rewrite apply_credit.
    + rewrite He. exists []. rewrite app_nil_r. now split.
  - destruct (deductFunds_cases64 st amount md w) as [(a & -> & Ha & Hb)|[e He]].
    + rewrite deductFunds_ok64 by assumption. cbn [snd].
      exists [new_transaction st "debit" a md].
      rewrite settled_balance64, settled_transactions64. split; [reflexivity|].
      intros Hplain. cbn. now rewrite apply_debit.
    + rewrite He. exists []. rewrite app_nil_r. now split.
  - destruct (purchaseToken_effect64 st st' td w)
      as [->|(a & svc & Ha & Hb & [-> | ->])].
    + exists []. rewrite app_nil_r. now split.
    + exists [new_transaction st "debit" a (purchase_metadata td)].
      unfold debited. cbn [with_tokenService balance transactions].
      rewrite settled_balance64, settled_transactions64. split; [reflexivity|].
      intros _. cbn. now rewrite apply_debit by apply purchase_metadata_plain64.
    + exists [new_transaction st "debit" a (purchase_metadata td);
              new_transaction st' "credit" a rollback_metadata].
      rewrite settled_balance64, settled_transactions64.
      unfold debited. cbn [with_tokenService balance transactions].
      rewrite settled_transactions64, <- app_assoc. split; [reflexivity|].
      intros _. cbn.
      rewrite apply_debit by apply purchase_metadata_plain64.
      now rewrite apply_credit by apply rollback_metadata_plain64.
Qed.

Lemma plain_working c : plain_call c -> working c.
Proof. now destruct c. Qed.

Lemma run_effect64 cs (w : wallet64) :
  Forall working cs ->
  exists new,
    transactions (run number_of_string stringify parse cs w) = transactions w ++ new /\
    (Forall plain_call cs ->
     balance (run number_of_string stringify parse cs w) = replay (balance w) new).
Proof.
  intros Hcs. revert w. induction Hcs as [|c cs Hc _ IH]; intros w; cbn [run].
  - exists []. rewrite app_nil_r. now split.
  - destruct (call_effect64 c w Hc) as (new1 & Htx1 & Hb1).
    destruct (IH (snd (call number_of_string stringify parse c w)))
      as (new2 & Htx2 & Hb2).
    exists (new1 ++ new2). rewrite Htx2, Htx1, <- app_assoc. split; [reflexivity|].
    intros Hplain. apply Forall_cons in Hplain as [Hp Hps].
    rewrite (Hb2 Hps), (Hb1 Hp). unfold replay. now rewrite fold_left_app.
Qed.

(** *** Exact steps add up *)

Lemma has_type_once tx :
  has_type "credit" tx = true -> has_type "debit" tx = false.
Proof.
  unfold has_type. destruct (tx !! "type") as [[| | | |s|]|]; try discriminate.
  intros Hs. apply String.eqb_eq in Hs as ->. reflexivity.
Qed.

Lemma unrounded_exact b txs : unrounded b txs -> exists x, exact (replay b txs) = Some x.
Proof.
  revert b. induction txs as [|tx txs IH]; intros b; cbn [unrounded]; [auto|].
  intros [_ Hrest]. now apply IH.
Qed.

Lemma unrounded_balanced b0 txs :
  unrounded b0 txs -> balanced b0 (replay b0 txs) txs.
Proof.
  revert b0. induction txs as [|tx txs IH]; intros b0.
  - intros [x Hx]. exists x, x, 0%Z, 0%Z. cbn. repeat split; try assumption. lia.
  - cbn [unrounded]. intros [Hstep Hrest].
    destruct (IH _ Hrest) as (x1 & x & credits & debits & Hx1 & Hx & Hc & Hd & Heq).
    change (replay b0 (tx :: txs)) with (replay (apply b0 tx) txs).
    unfold balanced. cbn [total]. unfold apply in *.
    destruct (has_type "credit" tx) eqn:Hcredit.
    + rewrite (has_type_once tx Hcredit) in *.
      destruct Hstep as (a & Ha & xb & xa & Hxb & Hxa & Hsum).
      rewrite Ha in *. cbn [mbind option_bind]. rewrite Hxa, Hc, Hd.
      cbn [mbind option_bind].
      rewrite Hsum in Hx1. injection Hx1 as <-.
      exists xb, x, (xa + credits)%Z, debits. repeat split; try assumption. lia.
    + destruct (has_type "debit" tx) eqn:Hdebit.
      * destruct Hstep as (a & Ha & xb & xa & Hxb & Hxa & Hdiff).
        rewrite Ha in *. cbn [mbind option_bind]. rewrite Hxa, Hc, Hd.
        cbn [mbind option_bind].
        rewrite Hdiff in Hx1. injection Hx1 as <-.
        exists xb, x, credits, (xa + debits)%Z. repeat split; try assumption. lia.
      * assert (Hsame : match amount_of tx with Some _ => b0 | None => b0 end = b0)
          by now destruct (amount_of tx).
        rewrite Hsame in Hx1. rewrite Hc, Hd.
        exists x1, x, credits, debits. repeat split; assumption.
Qed.

Lemma exact_step_sound op b a r :
  exact_step op b a r = true ->
  exists x y, exact b = Some x /\ exact a = Some y /\ exact r = Some (op x y).
Proof.
  unfold exact_step.
  destruct (exact b) as [x|], (exact a) as [y|], (exact r) as [z|];
    try discriminate.
  intros Hz%Z.eqb_eq. exists x, y. now rewrite Hz.
Qed.

Lemma unrounded_test_sound b txs :
  unrounded_test b txs = true -> unrounded b txs.
Proof.
  revert b. induction txs as [|tx txs IH]; intros b; cbn [unrounded_test unrounded].
  - destruct (exact b) as [x|]; [now exists x|discriminate].
  - intros [Hstep Hrest]%andb_prop. split; [|now apply IH].
    destruct (has_type "credit" tx).
    + destruct (amount_of tx) as [a|]; [|discriminate].
      exists a. split; [reflexivity|]. now apply exact_step_sound in Hstep.
    + destruct (has_type "debit" tx); [|exact I].
      destruct (amount_of tx) as [a|]; [|discriminate].
      exists a. split; [reflexivity|]. now apply exact_step_sound in Hstep.
Qed.

Lemma run_app cs1 cs2 (w : wallet64) :
  run number_of_string stringify parse (cs1 ++ cs2) w =
    run number_of_string stringify parse cs2
      (run number_of_string stringify parse cs1 w).
Proof. revert w. induction cs1 as [|c cs1 IH]; intros w; cbn [run app]; auto. Qed.

(** *** The claims *)

(** C2, amended. When the deduction of [purchaseToken] succeeds and
    [createToken] returns a result whose [success] is false, the method
    returns that result, the transactions gained the debit and then a
    credit of the same amount, and the balance is the one before the call
    less the amount and plus the amount again, each step rounded to a
    double: it is the balance before the call when neither step rounds. *)
Theorem rollback_recredits st st' tokenData svc svc' amount tokenResult ok
    (w : wallet64) :
  tokenService w = Some svc ->
  purchase_amount tokenData = Some amount ->
  success (fst (deductFunds stringify st amount (purchase_metadata tokenData) w)) = true ->
  createToken tokenData svc = (Normal tokenResult, svc') ->
  prop "success" tokenResult = Some ok ->
  truthy ok = false ->
  let done := purchaseToken number_of_string stringify st st' tokenData w in
  exists a,
    amount = VNum a /\
    fst done = Passed tokenResult /\
    transactions (snd done) =
      transactions w ++
        [new_transaction st "debit" a (purchase_metadata tokenData);
         new_transaction st' "credit" a rollback_metadata] /\
    balance (snd done) = PrimFloat.add (PrimFloat.sub (balance w) a) a /\
    (exact_sub (balance w) a ->
     exact_add (PrimFloat.sub (balance w) a) a ->
     exact (balance (snd done)) = exact (balance w)).
Proof.
  intros Hsvc Hamount Hdeduct Hcreate Hok Hfalsy done.
  destruct (deductFunds_success64 _ _ _ _ Hdeduct) as (a & -> & Ha & Hb).
  exists a. split; [reflexivity|].
  assert (Hdone : done =
    (Passed tokenResult,
     settled stringify "funds_added"
       (PrimFloat.add (PrimFloat.sub (balance w) a) a)
       (new_transaction st' "credit" a rollback_metadata)
       (debited stringify st a tokenData svc' w))).
  { subst done. unfold purchaseToken. rewrite Hsvc, Hamount. cbn [balance_lt].
    rewrite Hb. rewrite deductFunds_ok64 by assumption. cbn [success negb].
    rewrite Hcreate, Hok, Hfalsy. cbn [negb].
    rewrite addFunds_ok64 by exact Ha. cbn [fst snd].
    unfold debited. cbn [with_tokenService balance].
    now rewrite settled_balance64. }
  rewrite Hdone. cbn [fst snd]. split; [reflexivity|].
  rewrite settled_balance64, settled_transactions64.
  unfold debited. cbn [with_tokenService transactions].
  rewrite settled_transactions64, <- app_assoc.
  split; [reflexivity|]. split; [reflexivity|].
  intros (x & y & Hx & Hy & Hsub) (x' & y' & Hx' & Hy' & Hadd).
  rewrite Hadd, Hx. rewrite Hsub in Hx'. rewrite Hy in Hy'.
  injection Hx' as <-. injection Hy' as <-. f_equal. lia.
Qed.

(** C8, amended. The methods other than [initialize] only append to the
    transaction list: after any sequence of them the list is the one
    before, followed by what they appended, so the entries of earlier calls
    come before those of later calls. [addFunds] succeeds on a number that
    is not [<= 0], [deductFunds] on one that is moreover not above the
    balance; a successful call appends one transaction at the end, the one
    it returns, and a failing call changes nothing. [initialize] replaces
    the list by the one read from the storage. *)
Theorem transactions_appended_in_order (w : wallet64) :
  (forall cs1 cs2,
     Forall working cs2 ->
     exists new,
       transactions (run number_of_string stringify parse (cs1 ++ cs2) w) =
         transactions (run number_of_string stringify parse cs1 w) ++ new) /\
  (forall st amount metadata,
     let done := addFunds stringify st amount metadata w in
     (success (fst done) = true <->
      exists a, amount = VNum a /\ PrimFloat.leb a 0 = false) /\
     (forall a, amount = VNum a -> PrimFloat.leb a 0 = false ->
        fst done = Funds (PrimFloat.add (balance w) a)
                         (new_transaction st "credit" a metadata) /\
        transactions (snd done) =
          transactions w ++ [new_transaction st "credit" a metadata]) /\
     (success (fst done) = false -> snd done = w)) /\
  (forall st amount metadata,
     let done := deductFunds stringify st amount metadata w in
     (success (fst done) = true <->
      exists a, amount = VNum a /\ PrimFloat.leb a 0 = false /\
                PrimFloat.ltb (balance w) a = false) /\
     (forall a, amount = VNum a -> PrimFloat.leb a 0 = false ->
        PrimFloat.ltb (balance w) a = false ->
        fst done = Funds (PrimFloat.sub (balance w) a)
                         (new_transaction st "debit" a metadata) /\
        transactions (snd done) =
          transactions w ++ [new_transaction st "debit" a metadata]) /\
     (success (fst done) = false -> snd done = w)) /\
  (forall store text data,
     storage w = Some store ->
     Storage.getItem "pewpi_wallet" store = Some text ->
     text <> "" ->
     parse text = Normal (Some data) ->
     transactions (snd (initialize parse w)) = default [] (data_transactions data)).
Proof.
  split; [|split; [|split]].
  - intros cs1 cs2 Hcs. rewrite run_app.
    destruct (run_effect64 cs2 (run number_of_string stringify parse cs1 w) Hcs)
      as (new & Htx & _).
    now exists new.
  - intros st amount md done. subst done.
    destruct (addFunds_cases64 st amount md w) as [(a & -> & Ha)|He].
    + rewrite addFunds_ok64 by exact Ha. cbn [fst snd success]. split; [|split].
      * split; [intros _; now exists a|reflexivity].
      * intros a' Heq Ha'. injection Heq as <-.
        split; [reflexivity|apply settled_transactions64].
      * discriminate.
    + rewrite He. cbn [fst snd success]. split; [|split].
      * split; [discriminate|]. intros (a & -> & Ha).
        rewrite addFunds_ok64 in He by exact Ha. discriminate.
      * intros a -> Ha. rewrite addFunds_ok64 in He by exact Ha. discriminate.
      * reflexivity.
  - intros st amount md done. subst done.
    destruct (deductFunds_cases64 st amount md w) as [(a & -> & Ha & Hb)|[e He]].
    + rewrite deductFunds_ok64 by assumption. cbn [fst snd success]. split; [|split].
      * split; [intros _; now exists a|reflexivity].
      * intros a' Heq Ha' Hb'. injection Heq as <-.
        split; [reflexivity|apply settled_transactions64].
      * discriminate.
    + rewrite He. cbn [fst snd success]. split; [|split].
      * split; [discriminate|]. intros (a & -> & Ha & Hb).
        rewrite deductFunds_ok64 in He by assumption. discriminate.
      * intros a -> Ha Hb. rewrite deductFunds_ok64 in He by assumption. discriminate.
      * reflexivity.
  - intros store text data Hs Hget Hne Hparse. unfold initialize.
    rewrite Hs, Hget. destruct (String.eqb_spec text ""); [contradiction|].
    now rewrite Hparse.
Qed.

(** C9, amended. After any sequence of calls other than [initialize] whose
    metadata carry neither [type] nor [amount], the balance is the one at
    the start with the amount of each transaction appended since added to
    it, for a credit, or subtracted from it, for a debit, in the order of
    the list and each step rounded to a double. When no step rounds, it is
    exactly the balance at the start plus the credits minus the debits. *)
Theorem balance_replays_ledger (cs : list Call) (w0 : wallet64) :
  Forall plain_call cs ->
  let w := run number_of_string stringify parse cs w0 in
  let new := appended w0 w in
  transactions w = transactions w0 ++ new /\
  balance w = replay (balance w0) new /\
  (unrounded (balance w0) new -> balanced (balance w0) (balance w) new).
Proof.
  intros Hplain w new.
  assert (Hworking : Forall working cs)
    by (eapply Forall_impl; [exact Hplain|apply plain_working]).
  destruct (run_effect64 cs w0 Hworking) as (new' & Htx & Hb).
  assert (Hnew : new = new')
    by (subst new w; unfold appended; now rewrite Htx, drop_app_length).
  rewrite Hnew. subst w. split; [exact Htx|]. split; [now apply Hb|].
  intros Hexact. rewrite (Hb Hplain). now apply unrounded_balanced.
Qed.

(** *** The storage *)

Lemma settled_storage event b tx (w : wallet64) :
  storage (settled stringify event b tx w) = storage (_persist stringify (post b tx w)).
Proof. reflexivity. Qed.

Lemma funding_settled c (w : wallet64) :
  funding c ->
  success (fst (call number_of_string stringify parse c w)) = true ->
  exists event b tx,
    snd (call number_of_string stringify parse c w) = settled stringify event b tx w.
Proof.
  destruct c as [|st amount md|st amount md|st st' td| |limit|l|l];
    cbn [funding call]; try contradiction; intros _ Hok.
  - destruct (addFunds_cases64 st amount md w) as [(a & -> & Ha)|He].
    + rewrite addFunds_ok64 by exact Ha. now eexists _, _, _.
    + rewrite He in Hok. discriminate.
  - destruct (deductFunds_cases64 st amount md w) as [(a & -> & Ha & Hb)|[e He]].
    + rewrite deductFunds_ok64 by assumption. now eexists _, _, _.
    + rewrite He in Hok. discriminate.
Qed.

(** X8. A successful [addFunds] or [deductFunds] on a wallet with a storage
    serializes the balance and the transactions it leaves. When
    [JSON.stringify] returns a text and [setItem] takes it, the storage
    holds that text under [pewpi_wallet] afterwards, and if the text is not
    empty and parses to an object, [initialize] of a new wallet on that
    storage takes [balance || 0] and [transactions || []] from that
    object. When [JSON.stringify] or [setItem] throws, the call succeeds
    all the same and the storage is as it was. *)
Theorem funds_written_then_read c store (svc : option T) (w : wallet64) :
  funding c ->
  storage w = Some store ->
  success (fst (call number_of_string stringify parse c w)) = true ->
  let w1 := snd (call number_of_string stringify parse c w) in
  match stringify (snapshot w1) with
  | Normal text =>
      (Storage.takes "pewpi_wallet" text store ->
       (storage w1 ≫= Storage.getItem "pewpi_wallet") = Some text /\
       forall data,
         text <> "" ->
         parse text = Normal (Some data) ->
         let w2 := snd (initialize parse (constructor (storage w1) svc)) in
         balance w2 = balance_or_zero (data_balance data) /\
         transactions w2 = default [] (data_transactions data)) /\
      (~ Storage.takes "pewpi_wallet" text store -> storage w1 = Some store)
  | Throw _ => storage w1 = Some store
  end.
Proof.
  intros Hc Hs Hok w1.
  destruct (funding_settled c w Hc Hok) as (event & b & tx & Hw1).
  subst w1. rewrite Hw1. unfold snapshot.
  rewrite settled_balance64, settled_transactions64, settled_storage.
  unfold _persist. cbn [post storage balance transactions]. rewrite Hs.
  destruct (stringify _) as [text|message]; [|exact Hs].
  unfold Storage.takes, Storage.setItem.
  destruct (Storage.refuses store (Storage.items store) "pewpi_wallet" (Some text))
    as [message|]; cbn [with_storage storage].
  - split; [discriminate|]. intros _. exact Hs.
  - split; [|intros Hno; now destruct Hno]. intros _.
    cbn [mbind option_bind]. unfold Storage.getItem. cbn [Storage.items].
    rewrite lookup_insert_eq. split; [reflexivity|].
    intros data Hne Hparse. unfold initialize, constructor. cbn [storage].
    unfold Storage.getItem. cbn [Storage.items]. rewrite lookup_insert_eq.
    destruct (String.eqb_spec text ""); [contradiction|].
    rewrite Hparse. split; reflexivity.
Qed.

End Facts.

(** *** On sample wallets *)

Import Samples64.

Lemma rollback_recredits_witness :
  let w := holding 10 in
  let done := purchaseToken (TokenApi0 := rejecting) not_a_number tally
                stamp2 stamp3 (token 4) w in
  fst done = Passed (VObj (<["success" := VBool false]>
                           (<["error" := VStr "Token creation failed"]> ∅))) /\
  length (transactions (snd done)) = 3%nat /\
  exact (balance (snd done)) = exact (balance w).
Proof.
  intros w done.
  destruct (rollback_recredits not_a_number tally (TokenApi0 := rejecting)
              stamp2 stamp3 (token 4) tt tt (VNum 4)
              (VObj (<["success" := VBool false]>
                     (<["error" := VStr "Token creation failed"]> ∅)))
              (VBool false) w eq_refl eq_refl eq_refl eq_refl eq_refl eq_refl)
    as (a & Ha & Hres & Htx & _ & Hexact).
  injection Ha as <-. split; [exact Hres|]. split.
  - fold done in Htx. rewrite Htx. reflexivity.
  - apply Hexact; eexists _, _; (split; [|split]); vm_compute; reflexivity.
Defined.

(** C2 as stated fails: the rollback does not always restore the balance.
    With 29.99 in the wallet and a token of 9.99 whose creation fails, the
    balance after the purchase is 29.990000000000002; with 2^53 + 2 in the
    wallet and a token of 1 it is 2^53. *)
#[warnings="-inexact-float"]
Lemma rollback_recredits_counterexample :
  let rejected := VObj (<["success" := VBool false]>
                        (<["error" := VStr "Token creation failed"]> ∅)) in
  let buy price b :=
    purchaseToken (TokenApi0 := rejecting) not_a_number tally stamp2 stamp3
      (token price) (holding b) in
  (balance (holding 29.99) = 29.99%float /\
   success (fst (deductFunds tally stamp2 (VNum 9.99)
                   (purchase_metadata (token 9.99)) (holding 29.99))) = true /\
   fst (buy 9.99 29.99)%float = Passed rejected /\
   balance (snd (buy 9.99 29.99)%float) = 29.990000000000002%float /\
   PrimFloat.eqb (balance (snd (buy 9.99 29.99)%float)) 29.99 = false) /\
  (balance (holding 9007199254740994) = 9007199254740994%float /\
   success (fst (deductFunds tally stamp2 (VNum 1)
                   (purchase_metadata (token 1)) (holding 9007199254740994))) = true /\
   fst (buy 1 9007199254740994)%float = Passed rejected /\
   balance (snd (buy 1 9007199254740994)%float) = 9007199254740992%float /\
   exact (balance (snd (buy 1 9007199254740994)%float))
     <> exact (balance (holding 9007199254740994))).
Proof.
  intros rejected buy. split.
  - repeat split; vm_compute; reflexivity.
  - repeat split; try (vm_compute; reflexivity).
    intros Heq. vm_compute in Heq. discriminate.
Defined.

Lemma transactions_appended_in_order_witness :
  let w1 := snd (addFunds tally stamp1 (VNum 10) ∅ empty) in
  let w2 := snd (deductFunds tally stamp2 (VNum 4) ∅ w1) in
  transactions w1 = [new_transaction stamp1 "credit" 10 ∅] /\
  transactions w2 =
    [new_transaction stamp1 "credit" 10 ∅; new_transaction stamp2 "debit" 4 ∅] /\
  snd (deductFunds tally stamp3 (VNum 7) ∅ w2) = w2.
Proof.
  intros w1 w2.
  destruct (transactions_appended_in_order (TokenApi0 := rejecting) not_a_number tally blank empty)
    as (_ & Hadd & _).
  destruct (Hadd stamp1 (VNum 10) ∅) as (_ & Hcredit & _).
  destruct (Hcredit 10%float eq_refl eq_refl) as [_ Htx1].
  destruct (transactions_appended_in_order (TokenApi0 := rejecting) not_a_number tally blank w1)
    as (_ & _ & Hdeduct & _).
  destruct (Hdeduct stamp2 (VNum 4) ∅) as (_ & Hdebit & _).
  destruct (Hdebit 4%float eq_refl eq_refl eq_refl) as [_ Htx2].
  destruct (transactions_appended_in_order (TokenApi0 := rejecting) not_a_number tally blank w2)
    as (_ & _ & Hdeduct2 & _).
  destruct (Hdeduct2 stamp3 (VNum 7) ∅) as (_ & _ & Hfail).
  split; [exact Htx1|]. split; [etransitivity; [exact Htx2|]; unfold w1; rewrite Htx1; reflexivity|].
  apply Hfail. reflexivity.
Defined.

(** C8 as stated fails: [initialize] is an operation that removes
    transactions. On a storage that is full and still holds the text [{}],
    [addFunds] succeeds and appends its transaction while the write is only
    logged, and an [initialize] after it reads the old text: the list is
    empty again. *)
Lemma transactions_appended_in_order_counterexample :
  let w1 := snd (addFunds tally stamp1 (VNum 5) ∅ stale) in
  success (fst (addFunds tally stamp1 (VNum 5) ∅ stale)) = true /\
  transactions w1 = [new_transaction stamp1 "credit" 5 ∅] /\
  fst (initialize blank w1) = Balance 0 /\
  transactions (snd (initialize blank w1)) = [].
Proof. repeat split. Defined.

Lemma balance_replays_ledger_witness :
  let cs := [AddFunds stamp1 (VNum 10) ∅;
             PurchaseToken stamp2 stamp3 (token 4);
             DeductFunds stamp3 (VNum 3) ∅] in
  let w := run (TokenApi0 := rejecting) not_a_number tally blank cs empty in
  balance w = 7%float /\
  balanced (balance empty) (balance w) (appended empty w).
Proof.
  intros cs w.
  assert (Hplain : Forall plain_call cs) by (repeat constructor).
  destruct (balance_replays_ledger (TokenApi0 := rejecting) not_a_number tally blank
              cs empty Hplain) as (_ & Hbalance & Hexact).
  split; [etransitivity; [exact Hbalance|vm_compute; reflexivity]|].
  apply Hexact, unrounded_test_sound. vm_compute. reflexivity.
Defined.

(** C9 as stated fails twice over. Metadata with an [amount] of its own
    replaces the amount in the transaction but not in the balance; and
    after [addFunds(2^53)] and [addFunds(1)] the balance is [2^53], the
    second credit lost to rounding, while the credits add up to
    [2^53 + 1]. *)
Lemma balance_replays_ledger_counterexample :
  let go cs := run (TokenApi0 := rejecting) not_a_number tally blank cs empty in
  let labelled := [AddFunds stamp1 (VNum 5) (<["amount" := VNum 100]> ∅)] in
  let rounded := [AddFunds stamp1 (VNum 9007199254740992) ∅;
                  AddFunds stamp2 (VNum 1) ∅] in
  ~ balanced (balance empty) (balance (go labelled)) (appended empty (go labelled)) /\
  ~ balanced (balance empty) (balance (go rounded)) (appended empty (go rounded)) /\
  balance (go rounded) = 9007199254740992%float.
Proof.
  intros go labelled rounded. split; [|split; [|reflexivity]].
  - intros (x0 & x & credits & debits & H0 & Hx & Hc & Hd & Heq).
    vm_compute in H0, Hx, Hc, Hd.
    injection H0 as <-. injection Hx as <-. injection Hc as <-. injection Hd as <-.
    vm_compute in Heq. discriminate.
  - intros (x0 & x & credits & debits & H0 & Hx & Hc & Hd & Heq).
    vm_compute in H0, Hx, Hc, Hd.
    injection H0 as <-. injection Hx as <-. injection Hc as <-. injection Hd as <-.
    vm_compute in Heq. discriminate.
Defined.

Lemma funds_written_then_read_witness :
  let w1 := snd (addFunds tally stamp1 (VNum 5) ∅ saving) in
  let back := recalling (snapshot w1) in
  let w2 := snd (initialize back (constructor (storage w1) (Some tt))) in
  (storage w1 ≫= Storage.getItem "pewpi_wallet") = Some "{...}" /\
  balance w2 = 5%float /\
  transactions w2 = [new_transaction stamp1 "credit" 5 ∅].
Proof.
  intros w1 back w2.
  pose proof (funds_written_then_read (TokenApi0 := rejecting) not_a_number tally back
                (AddFunds stamp1 (VNum 5) ∅) (Storage.roomy ∅) (Some tt) saving
                I eq_refl eq_refl) as H.
  destruct (proj1 H eq_refl) as [Hheld Hread].
  split; [exact Hheld|].
  exact (Hread _ ltac:(discriminate) eq_refl).
Defined.

(** On a storage that is full the same call succeeds, and the storage
    keeps the older text. *)
Example funds_on_full_storage :
  let done := addFunds tally stamp1 (VNum 5) ∅ stale in
  success (fst done) = true /\
  balance (snd done) = 5%float /\
  (storage (snd done) ≫= Storage.getItem "pewpi_wallet") = Some "{}".
Proof. repeat split. Qed.

End Wallet64Facts.
